(** * recs.h: an archetype-based entity-component system

    A shallow embedding of [src/include/recs.h] (namespace [recs]) and the
    properties of its [World] that the specification states.

    Conventions of the embedding.
    - [uint32_t] and [uint64_t] are [N]; wrap-around is written out where
      the source can overflow.  [size_t] row indices are [nat] (positions in
      a [std::vector]).
    - A [std::vector] is a [list]; [back] is the last element, [push_back]
      appends at the end.
    - [archetypes_] is a [std::unordered_map<uint64_t, Archetype>].  The
      operations modelled here erase none of its elements and references
      into it are stable, so an
      [Archetype*] is modelled by the key under which the archetype is
      stored.  Two pointers alias exactly when the keys are equal.
    - Undefined behaviour of the C++ program (dereferencing a null
      [Archetype*], indexing a vector out of range, a failing [assert]) is
      the result [Undefined]. *)

From stdpp Require Import base numbers option list gmap fin_maps.

Set Default Proof Using "Type".

(** ** Results of possibly undefined computations *)

Inductive Result (A : Type) : Type :=
  | Ret (a : A)
  | Undefined.
Arguments Ret {A} a.
Arguments Undefined {A}.

#[global] Instance Result_ret : MRet Result := @Ret.
#[global] Instance Result_fmap : FMap Result := λ A B f m,
  match m with Ret a => Ret (f a) | Undefined => Undefined end.
#[global] Instance Result_bind : MBind Result := λ A B f m,
  match m with Ret a => f a | Undefined => Undefined end.

(** [checked o]: an access that is only defined when [o] is present. *)
Definition checked {A} (o : option A) : Result A :=
  match o with Some a => Ret a | None => Undefined end.

(** [v[i]] on a [std::vector], undefined out of range. *)
Definition at_ {A} (v : list A) (i : N) : Result A := checked (v !! N.to_nat i).

(** A loop [for (id : ids) body(id)] over a mutable state. *)
Fixpoint for_ids {S} (ids : list N) (body : N → S → Result S) (s : S) : Result S :=
  match ids with
  | [] => Ret s
  | i :: rest => s' ← body i s; for_ids rest body s'
  end.

(** ** Entity *)

Definition uint32_wrap (n : N) : N := (n mod 2 ^ 32)%N.

Record Entity := mkEntity { id : N; generation : N }.

#[global] Instance Entity_eq_dec : EqDecision Entity.
Proof. solve_decision. Defined.

Definition INVALID_ENTITY : Entity := mkEntity 0 0.

(** ** Component ID *)

Definition RECS_MAX_COMPONENTS : N := 64.

(** The ids the loops [for (ComponentID id = 0; id < RECS_MAX_COMPONENTS; ++id)]
    run through. *)
Definition component_ids : list N := N.of_nat <$> seq 0 64.

(** ** Archetype key (bitmask) *)

Record ArchetypeKey := mkKey { mask : N }.

#[global] Instance ArchetypeKey_eq_dec : EqDecision ArchetypeKey.
Proof. solve_decision. Defined.

Module Key.
Definition empty : ArchetypeKey := mkKey 0.
(** [mask |= (1ULL << id)] *)
Definition add (k : ArchetypeKey) (c : N) : ArchetypeKey :=
  mkKey (N.lor (mask k) (N.shiftl 1 c)).
(** [mask &= ~(1ULL << id)], the complement taken on 64 bits *)
Definition remove (k : ArchetypeKey) (c : N) : ArchetypeKey :=
  mkKey (N.land (mask k) (N.lnot (N.shiftl 1 c) 64)).
(** [return mask & (1ULL << id)], converted to [bool] *)
Definition has (k : ArchetypeKey) (c : N) : bool :=
  negb (N.land (mask k) (N.shiftl 1 c) =? 0)%N.
(** [(key.add(component_id<Cs>()), ...)] *)
Definition add_all (k : ArchetypeKey) (Cs : list N) : ArchetypeKey := foldl add k Cs.
Definition remove_all (k : ArchetypeKey) (Cs : list N) : ArchetypeKey := foldl remove k Cs.
End Key.

(** ** Component storage

    A component value is modelled by an integer; [emplace_back()]
    value-initialises, which is [0].  A [ComponentArray] whose [data] is
    null is a missing entry of [components]; one whose [data] points to a
    [std::vector<T>] is the list of its elements.  The function pointers of
    a [ComponentArray] are set exactly when [data] is (by [make_array] and
    [clone_empty]), and act on the vector as below. *)

Definition Value := Z.
Definition default_value : Value := 0%Z.

(** [move_and_pop(p, index, last)]: [vec[index] = std::move(vec[last]); vec.pop_back()] *)
Definition move_and_pop (vec : list Value) (index last : nat) : Result (list Value) :=
  v ← checked (vec !! last);
  if decide (index < length vec) then Ret (removelast (<[index := v]> vec))
  else Undefined.

(** [copy_element(dst, src, src_idx)]: [dst.push_back(src[src_idx])] *)
Definition copy_element (dst src : list Value) (src_idx : nat) : Result (list Value) :=
  v ← checked (src !! src_idx); Ret (dst ++ [v]).

(** [emplace_default(p)]: [vec.emplace_back()] *)
Definition emplace_default (vec : list Value) : list Value := vec ++ [default_value].

(** ** Archetype *)

Record Archetype := mkArchetype {
  key : ArchetypeKey;
  entities : list Entity;
  components : gmap N (list Value)
}.

Definition set_entities (a : Archetype) (es : list Entity) : Archetype :=
  mkArchetype (key a) es (components a).
Definition set_components (a : Archetype) (cs : gmap N (list Value)) : Archetype :=
  mkArchetype (key a) (entities a) cs.

(** ** World *)

Record Location := mkLocation { arch : option N; index : nat }.

(** A registered [std::function<void(Entity)>] is identified by a number;
    firing it is recorded as the pair of the callback and its argument. *)
Definition Callback := nat.
Definition HookCall : Type := Callback * Entity.

Record EventHandlers := mkHandlers { on_add : list Callback; on_remove : list Callback }.

Record World := mkWorld {
  generations_ : list N;
  free_ids_ : list N;
  archetypes_ : gmap N Archetype;
  entity_locations_ : list Location;
  event_handlers_ : gmap N EventHandlers
}.

Definition World_new : World := mkWorld [] [] ∅ [] ∅.

Definition set_generations (w : World) (g : list N) : World :=
  mkWorld g (free_ids_ w) (archetypes_ w) (entity_locations_ w) (event_handlers_ w).
Definition set_free_ids (w : World) (f : list N) : World :=
  mkWorld (generations_ w) f (archetypes_ w) (entity_locations_ w) (event_handlers_ w).
Definition set_archetypes (w : World) (m : gmap N Archetype) : World :=
  mkWorld (generations_ w) (free_ids_ w) m (entity_locations_ w) (event_handlers_ w).
Definition set_locations (w : World) (l : list Location) : World :=
  mkWorld (generations_ w) (free_ids_ w) (archetypes_ w) l (event_handlers_ w).
Definition set_handlers (w : World) (h : gmap N EventHandlers) : World :=
  mkWorld (generations_ w) (free_ids_ w) (archetypes_ w) (entity_locations_ w) h.

(** [*p] for an [Archetype* p] into [archetypes_]. *)
Definition deref (p : N) (m : gmap N Archetype) : Result Archetype := checked (m !! p).

(** [v[i] = x] on a vector, undefined out of range. *)
Definition assign {A} (v : list A) (i : nat) (x : A) : Result (list A) :=
  if decide (i < length v) then Ret (<[i := x]> v) else Undefined.

(** *** Internal helpers *)

Definition alive_unsafe (e : Entity) (w : World) : bool :=
  match generations_ w !! N.to_nat (id e) with
  | Some g => bool_decide (g = generation e)
  | None => false
  end.

Definition create_unsafe (w : World) : Result (Entity * World) :=
  let '(i, w1) :=
    match last (free_ids_ w) with
    | Some i => (i, set_free_ids w (removelast (free_ids_ w)))
    | None => (uint32_wrap (N.of_nat (length (generations_ w))),
               set_generations w (generations_ w ++ [0%N]))
    end in
  g ← at_ (generations_ w1) i;
  let locs := entity_locations_ w1 in
  let locs1 :=
    if decide (length locs ≤ N.to_nat i)
    then resize (N.to_nat (uint32_wrap (i + 1))) (mkLocation None 0) locs
    else locs in
  locs2 ← assign locs1 (N.to_nat i) (mkLocation None 0);
  Ret (mkEntity i g, set_locations w1 locs2).

(** The column loop of [remove_from_archetype]. *)
Definition pop_column (k : ArchetypeKey) (index last : nat) (c : N)
    (cs : gmap N (list Value)) : Result (gmap N (list Value)) :=
  if Key.has k c then
    vec ← checked (cs !! c);
    vec' ← move_and_pop vec index last;
    Ret (<[c := vec']> cs)
  else Ret cs.

(** [last = arch.entities.size() - 1] wraps around on an empty entity
    column, and [arch.entities[last]] is then out of range. *)
Definition remove_from_archetype (e : Entity) (p : N) (index : nat) (w : World)
    : Result World :=
  a ← deref p (archetypes_ w);
  match length (entities a) with
  | 0 => Undefined
  | S last =>
    moved ← checked (entities a !! last);
    es1 ← assign (entities a) index moved;
    let es2 := removelast es1 in
    cs ← for_ids component_ids (pop_column (key a) index last) (components a);
    let w1 := set_archetypes w (<[p := mkArchetype (key a) es2 cs]> (archetypes_ w)) in
    lm ← at_ (entity_locations_ w1) (id moved);
    let locs1 := <[N.to_nat (id moved) := mkLocation (arch lm) index]> (entity_locations_ w1) in
    locs2 ← assign locs1 (N.to_nat (id e)) (mkLocation None 0);
    Ret (set_locations w1 locs2)
  end.

Definition destroy_unsafe (e : Entity) (w : World) : Result World :=
  if negb (alive_unsafe e w) then Ret w
  else
    loc ← at_ (entity_locations_ w) (id e);
    p ← checked (arch loc);
    w1 ← remove_from_archetype e p (index loc) w;
    g ← at_ (generations_ w1) (id e);
    let w2 := set_generations w1 (<[N.to_nat (id e) := uint32_wrap (g + 1)]> (generations_ w1)) in
    Ret (set_free_ids w2 (free_ids_ w2 ++ [id e])).

(** A [C*] into a column: the archetype, the component and the row. *)
Record Ptr := mkPtr { ptr_arch : N; ptr_component : N; ptr_row : nat }.

(** [get_array<C>(arch)], with its [assert(arr.data)] *)
Definition get_array (c : N) (a : Archetype) : Result (list Value) :=
  checked (components a !! c).

Definition get_unsafe (c : N) (e : Entity) (w : World) : Result (option Ptr) :=
  if negb (alive_unsafe e w) then Ret None
  else
    loc ← at_ (entity_locations_ w) (id e);
    match arch loc with
    | None => Ret None
    | Some p =>
      a ← deref p (archetypes_ w);
      if negb (Key.has (key a) c) then Ret None
      else
        vec ← get_array c a;
        _ ← checked (vec !! index loc);
        Ret (Some (mkPtr p c (index loc)))
    end.

(** Reading and writing through a [C*]. *)
Definition load (q : Ptr) (w : World) : Result Value :=
  a ← deref (ptr_arch q) (archetypes_ w);
  vec ← get_array (ptr_component q) a;
  checked (vec !! ptr_row q).

Definition store (q : Ptr) (v : Value) (w : World) : Result World :=
  a ← deref (ptr_arch q) (archetypes_ w);
  vec ← get_array (ptr_component q) a;
  vec' ← assign vec (ptr_row q) v;
  Ret (set_archetypes w
         (<[ptr_arch q := set_components a (<[ptr_component q := vec']> (components a))]>
            (archetypes_ w))).

(** [ensure_array<C>(arch)]: [if (!arr.data) arr = make_array<C>()] *)
Definition ensure_array (p : N) (c : N) (m : gmap N Archetype) : Result (gmap N Archetype) :=
  a ← deref p m;
  match components a !! c with
  | Some _ => Ret m
  | None => Ret (<[p := set_components a (<[c := []]> (components a))]> m)
  end.

(** [get_or_create_archetype(key)]: the pointer to the archetype and the map. *)
Definition get_or_create_archetype (k : ArchetypeKey) (m : gmap N Archetype)
    : N * gmap N Archetype :=
  match m !! mask k with
  | Some _ => (mask k, m)
  | None => (mask k, <[mask k := mkArchetype k [] ∅]> m)
  end.

(** First loop of [migrate] when the entity has an old archetype:
    [if (!dst.data && old_arch->key.has(id)) dst = clone_empty(old_arch->components[id])] *)
Definition clone_step (old_arch new_arch : N) (new_key : ArchetypeKey) (c : N)
    (m : gmap N Archetype) : Result (gmap N Archetype) :=
  if Key.has new_key c then
    dst ← deref new_arch m;
    match components dst !! c with
    | Some _ => Ret m
    | None =>
      src ← deref old_arch m;
      if Key.has (key src) c then
        match components src !! c with
        | Some _ => Ret (<[new_arch := set_components dst (<[c := []]> (components dst))]> m)
        | None => Ret m
        end
      else Ret m
    end
  else Ret m.

(** Second loop: copy the old value or default-construct. *)
Definition copy_step (old_arch new_arch : N) (new_key : ArchetypeKey) (old_index : nat)
    (c : N) (m : gmap N Archetype) : Result (gmap N Archetype) :=
  if Key.has new_key c then
    dst ← deref new_arch m;
    src ← deref old_arch m;
    if Key.has (key src) c then
      d ← checked (components dst !! c);
      s ← checked (components src !! c);
      d' ← copy_element d s old_index;
      Ret (<[new_arch := set_components dst (<[c := d']> (components dst))]> m)
    else
      d ← checked (components dst !! c);
      Ret (<[new_arch := set_components dst (<[c := emplace_default d]> (components dst))]> m)
  else Ret m.

(** The loop of the branch without an old archetype. *)
Definition default_step (new_arch : N) (new_key : ArchetypeKey) (c : N)
    (m : gmap N Archetype) : Result (gmap N Archetype) :=
  if Key.has new_key c then
    dst ← deref new_arch m;
    d ← checked (components dst !! c);
    Ret (<[new_arch := set_components dst (<[c := emplace_default d]> (components dst))]> m)
  else Ret m.

Definition fire_component_added (c : N) (e : Entity) (w : World) : list HookCall :=
  match event_handlers_ w !! c with
  | Some h => (λ cb, (cb, e)) <$> on_add h
  | None => []
  end.

Definition fire_component_removed (c : N) (e : Entity) (w : World) : list HookCall :=
  match event_handlers_ w !! c with
  | Some h => (λ cb, (cb, e)) <$> on_remove h
  | None => []
  end.

Definition migrate (Cs : list N) (e : Entity) (adding : bool) (w : World)
    : Result (World * list HookCall) :=
  loc ← at_ (entity_locations_ w) (id e);
  let old_arch := arch loc in
  new_key0 ←
    match old_arch with
    | Some p => a ← deref p (archetypes_ w); Ret (key a)
    | None => Ret Key.empty
    end;
  let new_key := if adding then Key.add_all new_key0 Cs else Key.remove_all new_key0 Cs in
  let '(new_arch, m1) := get_or_create_archetype new_key (archetypes_ w) in
  a ← deref new_arch m1;
  let new_index := length (entities a) in
  let m2 := <[new_arch := set_entities a (entities a ++ [e])]> m1 in
  m3 ← (if adding then for_ids Cs (ensure_array new_arch) m2 else Ret m2);
  w1 ←
    match old_arch with
    | Some p =>
      let old_index := index loc in
      m4 ← for_ids component_ids (clone_step p new_arch new_key) m3;
      m5 ← for_ids component_ids (copy_step p new_arch new_key old_index) m4;
      remove_from_archetype e p old_index (set_archetypes w m5)
    | None =>
      m4 ← for_ids component_ids (default_step new_arch new_key) m3;
      Ret (set_archetypes w m4)
    end;
  locs ← assign (entity_locations_ w1) (N.to_nat (id e)) (mkLocation (Some new_arch) new_index);
  let w2 := set_locations w1 locs in
  let calls :=
    if adding then mjoin ((λ c, fire_component_added c e w2) <$> Cs)
    else mjoin ((λ c, fire_component_removed c e w2) <$> Cs) in
  Ret (w2, calls).

(** *** Public operations

    Each of [create], [destroy], [alive], [add], [remove], [get] and [has]
    takes [world_mutex_] and runs the body below. *)

Definition create (w : World) : Result (Entity * World) := create_unsafe w.
Definition destroy (e : Entity) (w : World) : Result World := destroy_unsafe e w.
Definition alive (e : Entity) (w : World) : bool := alive_unsafe e w.

(** [add<Cs...>(e)] *)
Definition add (Cs : list N) (e : Entity) (w : World) : Result (World * list HookCall) :=
  migrate Cs e true w.

(** [add<C>(e, args...)]: migrate, then [*comp = C{args...}] when [get_unsafe] finds it *)
Definition add_value (c : N) (e : Entity) (v : Value) (w : World)
    : Result (World * list HookCall) :=
  '(w1, calls) ← migrate [c] e true w;
  q ← get_unsafe c e w1;
  match q with
  | Some q => w2 ← store q v w1; Ret (w2, calls)
  | None => Ret (w1, calls)
  end.

(** [remove<Cs...>(e)] *)
Definition remove (Cs : list N) (e : Entity) (w : World) : Result (World * list HookCall) :=
  migrate Cs e false w.

Definition get (c : N) (e : Entity) (w : World) : Result (option Ptr) := get_unsafe c e w.

Definition has (c : N) (e : Entity) (w : World) : Result bool :=
  if negb (alive_unsafe e w) then Ret false
  else
    loc ← at_ (entity_locations_ w) (id e);
    match arch loc with
    | None => Ret false
    | Some p => a ← deref p (archetypes_ w); Ret (Key.has (key a) c)
    end.

(** The value [get<C>(e)] points to, when it is not null. *)
Definition read (c : N) (e : Entity) (w : World) : Result (option Value) :=
  q ← get c e w;
  match q with
  | Some q => v ← load q w; Ret (Some v)
  | None => Ret None
  end.

Fixpoint create_batch_loop (count : nat) (w : World) : Result (list Entity * World) :=
  match count with
  | 0 => Ret ([], w)
  | S n =>
    '(e, w1) ← create_unsafe w;
    '(es, w2) ← create_batch_loop n w1;
    Ret (e :: es, w2)
  end.
Definition create_batch (count : nat) (w : World) : Result (list Entity * World) :=
  create_batch_loop count w.

Fixpoint destroy_batch (es : list Entity) (w : World) : Result World :=
  match es with
  | [] => Ret w
  | e :: rest => w1 ← destroy_unsafe e w; destroy_batch rest w1
  end.

Definition empty_handlers : EventHandlers := mkHandlers [] [].

(** [event_handlers_[id].on_add.push_back(callback)] *)
Definition on_component_added (c : N) (cb : Callback) (w : World) : World :=
  let h := default empty_handlers (event_handlers_ w !! c) in
  set_handlers w (<[c := mkHandlers (on_add h ++ [cb]) (on_remove h)]> (event_handlers_ w)).

Definition on_component_removed (c : N) (cb : Callback) (w : World) : World :=
  let h := default empty_handlers (event_handlers_ w !! c) in
  set_handlers w (<[c := mkHandlers (on_add h) (on_remove h ++ [cb])]> (event_handlers_ w)).

(** *** Iteration

    The callback of an iteration receives references into the columns (or
    their base pointers).  What is modelled is the sequence of callback
    invocations: where each one points, and the values found there.  The
    order in which a [std::unordered_map] is traversed is unspecified; the
    model traverses [archetypes_] in the order of [map_to_list], the same
    for every iteration over the same World. *)

Definition required (Cs : list N) : ArchetypeKey := Key.add_all Key.empty Cs.

(** [(arch.key.mask & required.mask) == required.mask] *)
Definition includes (a : Archetype) (req : ArchetypeKey) : bool :=
  bool_decide (N.land (mask (key a)) (mask req) = mask req).

(** [(arch.key.mask & exclude_mask.mask) != 0] *)
Definition excluded (a : Archetype) (excl : ArchetypeKey) : bool :=
  negb (bool_decide (N.land (mask (key a)) (mask excl) = 0%N)).

(** One call of [fn] on the elements at row [i] of the columns [get_array<Cs>(arch)]. *)
Record Visit := mkVisit { visit_arch : N; visit_row : nat; visit_args : list Value }.

(** One call [fn(get_array<Cs>(arch)->data()..., arch.entities.size())]:
    a base pointer is modelled by the column it points into. *)
Record Chunk := mkChunk { chunk_arch : N; chunk_base : list (list Value); chunk_count : nat }.

Fixpoint mapR {A B} (f : A → Result B) (l : list A) : Result (list B) :=
  match l with
  | [] => Ret []
  | x :: rest => y ← f x; ys ← mapR f rest; Ret (y :: ys)
  end.

Definition row_args (Cs : list N) (a : Archetype) (i : nat) : Result (list Value) :=
  mapR (λ c, vec ← get_array c a; checked (vec !! i)) Cs.

(** [for (size_t i = 0; i < n; ++i) fn(...)] with [n = arch.entities.size()] *)
Definition each_row (Cs : list N) (p : N) (a : Archetype) : Result (list Visit) :=
  mapR (λ i, args ← row_args Cs a i; Ret (mkVisit p i args)) (seq 0 (length (entities a))).

(** [for (auto& [_, arch] : archetypes_) body]: the calls made, in order. *)
Fixpoint visit_archetypes {V} (body : N → Archetype → Result (list V))
    (l : list (N * Archetype)) : Result (list V) :=
  match l with
  | [] => Ret []
  | (p, a) :: rest =>
    vs ← body p a; vs' ← visit_archetypes body rest; Ret (vs ++ vs')
  end.

Definition for_each (Cs : list N) (w : World) : Result (list Visit) :=
  visit_archetypes
    (λ p a, if negb (includes a (required Cs)) then Ret [] else each_row Cs p a)
    (map_to_list (archetypes_ w)).

Definition for_each_chunk (Cs : list N) (w : World) : Result (list Chunk) :=
  visit_archetypes
    (λ p a,
       if negb (includes a (required Cs)) then Ret []
       else if decide (entities a = []) then Ret []
       else base ← mapR (λ c, get_array c a) Cs;
            Ret [mkChunk p base (length (entities a))])
    (map_to_list (archetypes_ w)).

(** [query<Cs...>().exclude<Es...>().each(fn)] *)
Definition Query_each (Cs Es : list N) (w : World) : Result (list Visit) :=
  let exclude_mask := Key.add_all Key.empty Es in
  visit_archetypes
    (λ p a,
       if negb (includes a (required Cs)) then Ret []
       else if excluded a exclude_mask then Ret []
       else each_row Cs p a)
    (map_to_list (archetypes_ w)).

(** The rows a chunk callback reaches through its base pointers:
    [base[j][i]] for [i < count]. *)
Definition chunk_rows (ch : Chunk) : Result (list Visit) :=
  mapR (λ i, args ← mapR (λ col : list Value, checked (col !! i)) (chunk_base ch);
             Ret (mkVisit (chunk_arch ch) i args))
       (seq 0 (chunk_count ch)).

Fixpoint chunks_rows (chs : list Chunk) : Result (list Visit) :=
  match chs with
  | [] => Ret []
  | ch :: rest => vs ← chunk_rows ch; vs' ← chunks_rows rest; Ret (vs ++ vs')
  end.

(** The row a visit is made to. *)
Definition visit_key (v : Visit) : N * nat := (visit_arch v, visit_row v).

(** The entity a visit belongs to: the one at that row of the entity column. *)
Definition visit_entity (w : World) (v : Visit) : option Entity :=
  a ← archetypes_ w !! visit_arch v; entities a !! visit_row v.

(** *** Sequences of public operations *)

Inductive Op :=
  | OpCreate
  | OpDestroy (e : Entity)
  | OpAdd (Cs : list N) (e : Entity)
  | OpAddValue (c : N) (e : Entity) (v : Value)
  | OpRemove (Cs : list N) (e : Entity)
  | OpCreateBatch (count : nat)
  | OpDestroyBatch (es : list Entity)
  | OpOnAdded (c : N) (cb : Callback)
  | OpOnRemoved (c : N) (cb : Callback)
  | OpStore (q : Ptr) (v : Value).

(** [component_id<C>()] only yields ids below [RECS_MAX_COMPONENTS]:
    [next_component_id] asserts it. *)
Definition component_id_ok (c : N) : Prop := (c < RECS_MAX_COMPONENTS)%N.

Definition op_ids (op : Op) : list N :=
  match op with
  | OpAdd Cs _ | OpRemove Cs _ => Cs
  | OpAddValue c _ _ | OpOnAdded c _ | OpOnRemoved c _ => [c]
  | OpStore q _ => [ptr_component q]
  | _ => []
  end.

(** The World after one operation.  [OpStore] is a client writing a
    component through a pointer it got from [get] or from an iteration. *)
Definition step (op : Op) (w : World) : Result World :=
  if decide (Forall component_id_ok (op_ids op)) then
    match op with
    | OpCreate => snd <$> create w
    | OpDestroy e => destroy e w
    | OpAdd Cs e => fst <$> add Cs e w
    | OpAddValue c e v => fst <$> add_value c e v w
    | OpRemove Cs e => fst <$> remove Cs e w
    | OpCreateBatch n => snd <$> create_batch n w
    | OpDestroyBatch es => destroy_batch es w
    | OpOnAdded c cb => Ret (on_component_added c cb w)
    | OpOnRemoved c cb => Ret (on_component_removed c cb w)
    | OpStore q v => store q v w
    end
  else Undefined.

Fixpoint run (ops : list Op) (w : World) : Result World :=
  match ops with
  | [] => Ret w
  | op :: rest => w1 ← step op w; run rest w1
  end.

(** ** Invariants of the storage *)

(** Column [c] of archetype [a] is present and as long as the entity column,
    when [c] is in the key. *)
Definition column_ok (a : Archetype) (c : N) : Prop :=
  Key.has (key a) c = true → length <$> components a !! c = Some (length (entities a)).

Definition archetype_ok (p : N) (a : Archetype) : Prop :=
  mask (key a) = p ∧ (p < 2 ^ 64)%N ∧ Forall (column_ok a) component_ids.

(** Row parity: every archetype is stored under its key, a [uint64_t], and
    its key columns are present and parallel to the entity column. *)
Definition row_parity (w : World) : Prop := map_Forall archetype_ok (archetypes_ w).

(** Directory consistency for a handle [e]: its directory entry points to a
    row of an archetype, and that row holds [e]. *)
Definition directory_consistent (w : World) (e : Entity) : Prop :=
  match entity_locations_ w !! N.to_nat (id e) with
  | Some (mkLocation (Some p) row) =>
    match archetypes_ w !! p with
    | Some a => entities a !! row = Some e
    | None => False
    end
  | _ => False
  end.

(** The directory entry of [e] can be followed: it has no archetype, or it
    is consistent for [e] and the directory has an entry for the last entity
    of that archetype (the one a swap-remove moves). *)
Definition placed (w : World) (e : Entity) : Prop :=
  ∃ loc, entity_locations_ w !! N.to_nat (id e) = Some loc ∧
    match arch loc with
    | None => True
    | Some p => ∃ a el,
        archetypes_ w !! p = Some a ∧
        entities a !! index loc = Some e ∧
        last (entities a) = Some el ∧
        N.to_nat (id el) < length (entity_locations_ w)
    end.

(** The archetype the directory gives for [e], if any. *)
Definition entity_archetype (w : World) (e : Entity) : option Archetype :=
  loc ← entity_locations_ w !! N.to_nat (id e);
  p ← arch loc;
  archetypes_ w !! p.

(** The component set of [e]: the key of its archetype, empty without one. *)
Definition entity_key (w : World) (e : Entity) : ArchetypeKey :=
  from_option key Key.empty (entity_archetype w e).

(** The value stored for component [c] at the row of [e]. *)
Definition cell (c : N) (e : Entity) (w : World) : option Value :=
  loc ← entity_locations_ w !! N.to_nat (id e);
  a ← entity_archetype w e;
  vec ← components a !! c;
  vec !! index loc.

(** Column [c] of the archetype [q] points to. *)
Definition col (q : N) (c : N) (m : gmap N Archetype) : option (list Value) :=
  a ← m !! q; components a !! c.

(** [m'] differs from [m] at most in the columns of the archetype at [q]. *)
Definition same_frame (q : N) (m m' : gmap N Archetype) : Prop :=
  (∀ p, p ≠ q → m' !! p = m !! p) ∧
  option_Forall2 (λ a a', key a' = key a ∧ entities a' = entities a) (m !! q) (m' !! q).

(** What one round of the loops of [migrate] and [remove_from_archetype]
    does to the column it visits ([x] before, [x'] after). *)

(** [ensure_array] and the [clone_empty] loop: a missing column is made, empty. *)
Definition made (x x' : option (list Value)) : Prop :=
  x' = x ∨ (x = None ∧ x' = Some []).

(** The copy loop, from the archetype at [p] to the one at [q]; the source
    column is the column itself when the two pointers alias. *)
Definition copied (p q : N) (new_key : ArchetypeKey) (idx : nat) (m0 : gmap N Archetype)
    (c : N) (x x' : option (list Value)) : Prop :=
  if Key.has new_key c then
    ∃ src d, m0 !! p = Some src ∧ x = Some d ∧
      if Key.has (key src) c then
        ∃ sv v, (if decide (p = q) then x else col p c m0) = Some sv ∧
                sv !! idx = Some v ∧ x' = Some (d ++ [v])
      else x' = Some (d ++ [default_value])
  else x' = x.

(** The loop of the branch without an old archetype. *)
Definition defaulted (new_key : ArchetypeKey) (c : N) (x x' : option (list Value)) : Prop :=
  if Key.has new_key c then ∃ d, x = Some d ∧ x' = Some (d ++ [default_value])
  else x' = x.

(** The swap-remove loop. *)
Definition popped (k : ArchetypeKey) (index last : nat) (c : N)
    (x x' : option (list Value)) : Prop :=
  if Key.has k c
  then ∃ vec v, x = Some vec ∧ vec !! last = Some v ∧ index < length vec ∧
                x' = Some (removelast (<[index := v]> vec))
  else x' = x.

(** The state of the destination archetype [q] in the middle of a
    migration: the entity is pushed, the key columns still have [n] rows,
    or are not made yet when the archetype is new. *)
Definition mid_migration (q : N) (nk : ArchetypeKey) (n : nat) (m : gmap N Archetype) : Prop :=
  (∀ p a, p ≠ q → m !! p = Some a → archetype_ok p a) ∧
  ∃ a, m !! q = Some a ∧ key a = nk ∧ mask nk = q ∧ (q < 2 ^ 64)%N ∧
       length (entities a) = S n ∧
       ∀ c, (c < 64)%N → Key.has nk c = true →
            length <$> components a !! c = Some n ∨ (components a !! c = None ∧ n = 0).

(** ** The World mutex

    What an operation does with [world_mutex_], as the sequence of its
    events: taking and releasing the mutex, the operation's own accesses to
    the state of the World, and the calls it makes to the caller's
    callbacks (iteration callbacks and hooks). *)

Inductive Event :=
  | Acquire
  | Release
  | Access
  | Call.

#[global] Instance Event_eq_dec : EqDecision Event.
Proof. solve_decision. Defined.

Definition Traced (A : Type) : Type := Result (A * list Event).

(** The statements of an operation that read or write the World. *)
Definition touching {A} (body : Result A) : Traced A := a ← body; Ret (a, [Access]).

(** [std::lock_guard<std::mutex> lock(world_mutex_);] around a block. *)
Definition lock_guard {A} (block : Traced A) : Traced A :=
  '(a, evs) ← block; Ret (a, Acquire :: evs ++ [Release]).

(** The block is followed by one callback call per element of [calls]. *)
Definition then_calls {A B} (block : Traced A) (calls : A → list B) : Traced A :=
  '(a, evs) ← block; Ret (a, evs ++ ((λ _, Call) <$> calls a)).

(** The mutex is held from the first event to the last. *)
Definition held_throughout (evs : list Event) : Prop :=
  ∃ body, evs = Acquire :: (body ++ [Release]) ∧ (Acquire ∉ body) ∧ (Release ∉ body).

(** The mutex is never taken. *)
Definition never_held (evs : list Event) : Prop := Acquire ∉ evs.

(** The snapshot [parallel_for_each] takes under the lock: the matching,
    non-empty archetypes with their row counts. *)
Definition work_items (Cs : list N) (w : World) : list (N * nat) :=
  omap (λ '(p, a),
          if includes a (required Cs)
          then (if decide (0 < length (entities a)) then Some (p, length (entities a))
                else None)
          else None)
       (map_to_list (archetypes_ w)).

(** The dispatch of the snapshot: [fn] on every row of every work item. *)
Fixpoint dispatch (Cs : list N) (items : list (N * nat)) (w : World) : Result (list Visit) :=
  match items with
  | [] => Ret []
  | (p, count) :: rest =>
    a ← deref p (archetypes_ w);
    vs ← mapR (λ i, args ← row_args Cs a i; Ret (mkVisit p i args)) (seq 0 count);
    vs' ← dispatch Cs rest w;
    Ret (vs ++ vs')
  end.

(** [generations_.size() - free_ids_.size()], in [size_t] *)
Definition get_entity_count (w : World) : N :=
  ((2 ^ 64 + N.of_nat (length (generations_ w)) - N.of_nat (length (free_ids_ w)))
     mod 2 ^ 64)%N.

Definition get_archetype_count (w : World) : nat := size (archetypes_ w).

(** [for (start = 0; start < total; start += chunk_size)] with
    [count = std::min(chunk_size, total - start)], for [chunk_size = 4096]. *)
Definition chunk_size : nat := 4096.
Definition subdivide (p : N) (total : nat) : list (N * nat * nat) :=
  (λ k, (p, k * chunk_size, min chunk_size (total - k * chunk_size)))
    <$> seq 0 ((total + chunk_size - 1) / chunk_size).

(** The snapshot [parallel_for_each_chunk] takes under the lock. *)
Definition chunk_work (Cs : list N) (w : World) : list (N * nat * nat) :=
  mjoin ((λ '(p, a),
            if includes a (required Cs)
            then (if decide (entities a = []) then []
                  else subdivide p (length (entities a)))
            else [])
         <$> map_to_list (archetypes_ w)).

(** Its dispatch: per chunk one call of [fn] on the base pointers of the
    [Cs] columns advanced by [work.start], and [work.count]; such a pointer
    is modelled by the column from [start] on. *)
Fixpoint dispatch_chunks (Cs : list N) (work : list (N * nat * nat)) (w : World)
    : Result (list Chunk) :=
  match work with
  | [] => Ret []
  | (p, start, count) :: rest =>
    a ← deref p (archetypes_ w);
    base ← mapR (λ c, get_array c a) Cs;
    chs ← dispatch_chunks Cs rest w;
    Ret (mkChunk p (drop start <$> base) count :: chs)
  end.

(** The public operations with their use of the mutex, as in the source. *)
Module API.
Definition create (w : World) : Traced (Entity * World) :=
  lock_guard (touching (create_unsafe w)).
Definition destroy (e : Entity) (w : World) : Traced World :=
  lock_guard (touching (destroy_unsafe e w)).
Definition alive (e : Entity) (w : World) : Traced bool :=
  lock_guard (touching (Ret (alive_unsafe e w))).
Definition add (Cs : list N) (e : Entity) (w : World) : Traced (World * list HookCall) :=
  lock_guard (then_calls (touching (migrate Cs e true w)) snd).
Definition add_value (c : N) (e : Entity) (v : Value) (w : World)
    : Traced (World * list HookCall) :=
  lock_guard (then_calls (touching (add_value c e v w)) snd).
Definition remove (Cs : list N) (e : Entity) (w : World) : Traced (World * list HookCall) :=
  lock_guard (then_calls (touching (migrate Cs e false w)) snd).
Definition get (c : N) (e : Entity) (w : World) : Traced (option Ptr) :=
  lock_guard (touching (get_unsafe c e w)).
Definition has (c : N) (e : Entity) (w : World) : Traced bool :=
  lock_guard (touching (has c e w)).
Definition create_batch (count : nat) (w : World) : Traced (list Entity * World) :=
  lock_guard (touching (create_batch count w)).
Definition destroy_batch (es : list Entity) (w : World) : Traced World :=
  lock_guard (touching (destroy_batch es w)).
(** No [lock_guard] in these three. *)
Definition for_each (Cs : list N) (w : World) : Traced (list Visit) :=
  then_calls (touching (for_each Cs w)) (λ vs, vs).
Definition for_each_chunk (Cs : list N) (w : World) : Traced (list Chunk) :=
  then_calls (touching (for_each_chunk Cs w)) (λ chs, chs).
Definition Query_each (Cs Es : list N) (w : World) : Traced (list Visit) :=
  then_calls (touching (Query_each Cs Es w)) (λ vs, vs).
(** The lock is taken for the snapshot only; the callbacks run after its
    release (in the source, on the threads of an OpenMP loop). *)
Definition parallel_for_each (Cs : list N) (w : World) : Traced (list Visit) :=
  '(items, evs) ← lock_guard (touching (Ret (work_items Cs w)));
  vs ← dispatch Cs items w;
  Ret (vs, evs ++ ((λ _, Call) <$> vs)).
Definition parallel_for_each_chunk (Cs : list N) (w : World) : Traced (list Chunk) :=
  '(work, evs) ← lock_guard (touching (Ret (chunk_work Cs w)));
  chs ← dispatch_chunks Cs work w;
  Ret (chs, evs ++ ((λ _, Call) <$> chs)).
(** No [lock_guard] in the hook registration and the counters either. *)
Definition on_component_added (c : N) (cb : Callback) (w : World) : Traced World :=
  touching (Ret (on_component_added c cb w)).
Definition on_component_removed (c : N) (cb : Callback) (w : World) : Traced World :=
  touching (Ret (on_component_removed c cb w)).
Definition get_entity_count (w : World) : Traced N := touching (Ret (get_entity_count w)).
Definition get_archetype_count (w : World) : Traced nat :=
  touching (Ret (get_archetype_count w)).
End API.

(** ** Worlds used as examples *)

Definition result_or {A} (d : A) (r : Result A) : A :=
  match r with Ret a => a | Undefined => d end.

Definition entity0 : Entity := mkEntity 0 0.
Definition entity1 : Entity := mkEntity 1 0.

(** One entity, just created. *)
Definition world_fresh : World := result_or World_new (run [OpCreate] World_new).

(** One entity holding component 0. *)
Definition ops_one : list Op := [OpCreate; OpAdd [0%N] entity0].
Definition world_one : World := result_or World_new (run ops_one World_new).

(** The entity of [world_one] destroyed: [entity0] is a stale handle. *)
Definition world_stale : World :=
  result_or World_new (run [OpCreate; OpAdd [0%N] entity0; OpDestroy entity0] World_new).

(** One entity holding component 1, and a remove hook for component 0. *)
Definition world_hooked : World :=
  result_or World_new (run [OpOnRemoved 0 7; OpCreate; OpAdd [1%N] entity0] World_new).

(** Two entities with component 0 (values 5 and 6), the first also with
    component 1: two archetypes. *)
Definition ops_two : list Op :=
  [OpCreate; OpAddValue 0 entity0 5%Z; OpCreate; OpAddValue 0 entity1 6%Z;
   OpAdd [1%N] entity0].
Definition world_two : World := result_or World_new (run ops_two World_new).

(** The results of the operations tried on these worlds. *)
Definition world_stale_added : World :=
  fst (result_or (World_new, []) (add [0%N] entity0 world_stale)).
Definition world_one_readded : World :=
  fst (result_or (World_new, []) (add [0%N] entity0 world_one)).
Definition world_one_removed : World :=
  fst (result_or (World_new, []) (remove [1%N] entity0 world_one)).
Definition world_hooked_removed : World :=
  fst (result_or (World_new, []) (remove [0%N] entity0 world_hooked)).

#[global] Instance column_ok_dec a c : Decision (column_ok a c).
Proof. unfold column_ok. apply _. Defined.
#[global] Instance archetype_ok_dec p a : Decision (archetype_ok p a).
Proof. unfold archetype_ok. apply _. Defined.
#[global] Instance row_parity_dec w : Decision (row_parity w).
Proof. unfold row_parity. apply _. Defined.
#[global] Instance directory_consistent_dec w e : Decision (directory_consistent w e).
Proof. unfold directory_consistent. repeat case_match; apply _. Defined.

(** ** Component registry

    [next_component_id] keeps one static counter; [component_id<T>] keeps
    one static id per type [T], set by the first call.  The per-type statics
    are the map [assigned], from the type (named by a number) to its id. *)

Record Registry := mkRegistry { next_id : N; assigned : gmap nat N }.

Definition Registry_new : Registry := mkRegistry 0 ∅.

(** [assert(id < RECS_MAX_COMPONENTS); return id++;] *)
Definition next_component_id (r : Registry) : Result (N * Registry) :=
  if decide (next_id r < RECS_MAX_COMPONENTS)%N
  then Ret (next_id r, mkRegistry (uint32_wrap (next_id r + 1)) (assigned r))
  else Undefined.

(** [static ComponentID id = next_component_id(); return id;] *)
Definition component_id (T : nat) (r : Registry) : Result (N * Registry) :=
  match assigned r !! T with
  | Some i => Ret (i, r)
  | None =>
    '(i, r1) ← next_component_id r;
    Ret (i, mkRegistry (next_id r1) (<[T := i]> (assigned r1)))
  end.

(** The ids a program gets for the types it mentions, in order. *)
Fixpoint component_ids_of (Ts : list nat) (r : Registry) : Result (list N * Registry) :=
  match Ts with
  | [] => Ret ([], r)
  | T :: rest =>
    '(i, r1) ← component_id T r;
    '(ids, r2) ← component_ids_of rest r1;
    Ret (i :: ids, r2)
  end.

(** The counter is within bounds, and the ids given out are below it and
    given to one type each. *)
Definition registry_ok (r : Registry) : Prop :=
  (next_id r ≤ RECS_MAX_COMPONENTS)%N ∧
  ∀ T i, assigned r !! T = Some i →
    (i < next_id r)%N ∧ ∀ T', assigned r !! T' = Some i → T' = T.

(** ** Resources

    The resource operations only touch [resources_] (and the mutex), so the
    member is modelled on its own.  A [ResourceStorage] holds the [data]
    pointer (the value it points to, or null) and whether [destroy] is set;
    the calls of [destroy] are recorded as the values destroyed. *)

Record ResourceStorage := mkResource { res_data : option Value; res_destroy : bool }.

(** [if (res.data && res.destroy) res.destroy(res.data);] *)
Definition destroy_resource (res : ResourceStorage) : list Value :=
  match res_data res with
  | Some v => if res_destroy res then [v] else []
  | None => []
  end.

(** [set_resource<R>(args...)]: [resources_[id]] makes a null entry when
    there is none. *)
Definition set_resource (r : N) (v : Value) (rs : gmap N ResourceStorage)
    : gmap N ResourceStorage * list Value :=
  let res := default (mkResource None false) (rs !! r) in
  (<[r := mkResource (Some v) true]> rs, destroy_resource res).

(** [get_resource<R>()], with its [assert(it != end && it->second.data)] *)
Definition get_resource (r : N) (rs : gmap N ResourceStorage) : Result Value :=
  res ← checked (rs !! r); checked (res_data res).

Definition has_resource (r : N) (rs : gmap N ResourceStorage) : bool :=
  match rs !! r with
  | Some res => bool_decide (res_data res ≠ None)
  | None => false
  end.

(** The resource loop of [~World()]: the values destroyed. *)
Definition destroy_resources (rs : gmap N ResourceStorage) : list Value :=
  mjoin ((λ kv, destroy_resource kv.2) <$> map_to_list rs).

(** A sequence of [set_resource] calls: the table and the values destroyed
    on the way. *)
Fixpoint set_resources (sets : list (N * Value)) (rs : gmap N ResourceStorage)
    : gmap N ResourceStorage * list Value :=
  match sets with
  | [] => (rs, [])
  | (r, v) :: rest =>
    let '(rs1, d1) := set_resource r v rs in
    let '(rs2, d2) := set_resources rest rs1 in
    (rs2, d1 ++ d2)
  end.

(** ** The chunk loop of [parallel_for_each_chunk]

    [for (size_t start = 0; start < total; start += chunk_size)], as a loop
    with a bound on its rounds. *)
Fixpoint subdivide_loop (fuel : nat) (p : N) (start total : nat) : list (N * nat * nat) :=
  match fuel with
  | 0 => []
  | S fuel' =>
    if decide (start < total)
    then (p, start, min chunk_size (total - start))
           :: subdivide_loop fuel' p (start + chunk_size) total
    else []
  end.

(** The rows of a chunk. *)
Definition chunk_range (ch : N * nat * nat) : list nat := seq ch.1.2 ch.2.

(** ** The directory against the entity columns *)

(** The entity columns of a World, by archetype pointer. *)
Definition entity_columns (w : World) (p : N) : option (list Entity) :=
  entities <$> archetypes_ w !! p.

(** [locs] is the directory of the entity columns [E]: every stored entity
    has the entry of its row, and every entry with an archetype names a row
    that holds an entity of that id. *)
Definition consistent (E : N → option (list Entity)) (locs : list Location) : Prop :=
  (∀ p es r e, E p = Some es → es !! r = Some e →
     locs !! N.to_nat (id e) = Some (mkLocation (Some p) r)) ∧
  (∀ i p r, locs !! i = Some (mkLocation (Some p) r) →
     ∃ es e, E p = Some es ∧ es !! r = Some e ∧ N.to_nat (id e) = i).

(** A World in good order: row parity; the directory is consistent with
    the entity columns; every stored entity is alive and its id is not
    free; the free ids are ids of the World; and the directory has an entry
    for every id. *)
Definition world_ok (w : World) : Prop :=
  row_parity w ∧
  consistent (entity_columns w) (entity_locations_ w) ∧
  (∀ p es e, entity_columns w p = Some es → e ∈ es →
     alive e w = true ∧ id e ∉ free_ids_ w) ∧
  Forall (λ i, N.to_nat i < length (generations_ w)) (free_ids_ w) ∧
  length (generations_ w) ≤ length (entity_locations_ w).

(** A handle that [create] has returned and [destroy] has not taken back:
    alive, and its id is not on the free list. *)
Definition live (e : Entity) (w : World) : bool :=
  alive e w && bool_decide (id e ∉ free_ids_ w).

(** [add] of at least one component that [e] lacks, [remove] of at least
    one that it has: the migration goes to another archetype. *)
Definition changes_key (adding : bool) (Cs : list N) (e : Entity) (w : World) : bool :=
  if adding then existsb (λ c, negb (Key.has (entity_key w e) c)) Cs
  else existsb (λ c, Key.has (entity_key w e) c) Cs.

(** [destroy] of a stale handle, or of an entity that has an archetype. *)
Definition careful_destroy (e : Entity) (w : World) : bool :=
  negb (alive e w) || bool_decide (is_Some (entity_archetype w e)).

Fixpoint careful_destroys (es : list Entity) (w : World) : bool :=
  match es with
  | [] => true
  | e :: rest =>
    careful_destroy e w &&
    match destroy_unsafe e w with
    | Ret w1 => careful_destroys rest w1
    | Undefined => true
    end
  end.

(** The careful uses of the operations: component ids below
    [RECS_MAX_COMPONENTS]; ids that stay within [uint32_t]; [destroy] of
    stale handles and of entities with an archetype; components added to
    and removed from live handles only, every [add] adding and every
    [remove] removing something; writes through valid pointers. *)
Definition careful (op : Op) (w : World) : bool :=
  bool_decide (Forall component_id_ok (op_ids op)) &&
  match op with
  | OpCreate => bool_decide (N.of_nat (length (generations_ w)) < 2 ^ 32 - 1)%N
  | OpCreateBatch n => bool_decide (N.of_nat (length (generations_ w) + n) < 2 ^ 32)%N
  | OpDestroy e => careful_destroy e w
  | OpDestroyBatch es => careful_destroys es w
  | OpAdd Cs e => live e w && changes_key true Cs e w
  | OpAddValue c e _ => live e w && changes_key true [c] e w
  | OpRemove Cs e => live e w && changes_key false Cs e w
  | OpStore q _ => match load q w with Ret _ => true | Undefined => false end
  | OpOnAdded _ _ | OpOnRemoved _ _ => true
  end.

Fixpoint careful_run (ops : list Op) (w : World) : bool :=
  match ops with
  | [] => true
  | op :: rest =>
    careful op w &&
    match step op w with
    | Ret w1 => careful_run rest w1
    | Undefined => true
    end
  end.

(** ** Entity ids

    The free ids are ids of the World, there are no more of them than ids,
    and the next id fits [uint32_t] with room for [id + 1]. *)
Definition free_ids_ok (w : World) : Prop :=
  Forall (λ i, N.to_nat i < length (generations_ w)) (free_ids_ w) ∧
  length (free_ids_ w) ≤ length (generations_ w) ∧
  (N.of_nat (length (generations_ w)) < 2 ^ 32 - 1)%N.

#[global] Instance free_ids_ok_dec w : Decision (free_ids_ok w).
Proof. unfold free_ids_ok. apply _. Defined.

(** A handle that is stale and whose directory entry names no archetype:
    the state [destroy] leaves a handle in. *)
Definition gone (w : World) (e : Entity) : Prop :=
  alive e w = false ∧
  ∀ loc, entity_locations_ w !! N.to_nat (id e) = Some loc → arch loc = None.

(** Every archetype of [m] is still in [m'], under the same pointer and
    with the same key. *)
Definition archetypes_kept (m m' : gmap N Archetype) : Prop :=
  ∀ p a, m !! p = Some a → ∃ a', m' !! p = Some a' ∧ key a' = key a.

(** The visit is to an archetype that has none of the components [Es]. *)
Definition not_excluded (Es : list N) (w : World) (v : Visit) : bool :=
  match archetypes_ w !! visit_arch v with
  | Some a => negb (excluded a (Key.add_all Key.empty Es))
  | None => false
  end.

(** ** More example worlds *)

(** Three entities with component 0 (values 5, 6, 7). *)
Definition entity2 : Entity := mkEntity 2 0.
Definition ops_three : list Op :=
  [OpCreate; OpAddValue 0 entity0 5%Z; OpCreate; OpAddValue 0 entity1 6%Z;
   OpCreate; OpAddValue 0 entity2 7%Z].
Definition world_three : World := result_or World_new (run ops_three World_new).

(** A careful sequence of operations: three entities, components added,
    written and removed, one entity destroyed and its id used again. *)
Definition ops_careful : list Op :=
  [OpOnAdded 0 3; OpCreate; OpAddValue 0 entity0 5%Z; OpCreateBatch 2;
   OpAddValue 0 entity1 6%Z; OpAdd [0; 1]%N entity2; OpAdd [1%N] entity0;
   OpStore (mkPtr 3 1 0) 9%Z; OpDestroy entity2; OpRemove [0%N] entity0;
   OpDestroyBatch [entity1; entity1]; OpCreate; OpAdd [2%N] (mkEntity 1 1)].
Definition world_careful : World := result_or World_new (run ops_careful World_new).

(** An add hook and a remove hook for component 0, and one fresh entity. *)
Definition world_hooks : World :=
  result_or World_new (run [OpOnAdded 0 3; OpOnAdded 0 4; OpOnRemoved 0 5; OpCreate] World_new).

(** * Properties *)

(** ** The result monad *)

Lemma bind_Ret {A B} (m : Result A) (f : A → Result B) (b : B) :
  m ≫= f = Ret b ↔ ∃ a, m = Ret a ∧ f a = Ret b.
Proof.
  destruct m as [a|]; simpl.
  - split; [eauto | by intros (? & [= <-] & ?)].
  - split; [done | by intros (? & ? & ?)].
Qed.

Lemma fmap_Ret {A B} (m : Result A) (f : A → B) (b : B) :
  f <$> m = Ret b ↔ ∃ a, m = Ret a ∧ b = f a.
Proof.
  destruct m as [a|]; simpl.
  - split; [intros [= <-]; eauto | by intros (? & [= <-] & ->)].
  - split; [done | by intros (? & ? & ?)].
Qed.

Lemma checked_Ret {A} (o : option A) (a : A) : checked o = Ret a ↔ o = Some a.
Proof. destruct o; simpl; split; congruence. Qed.

Lemma assign_Ret {A} (v : list A) i x v' :
  assign v i x = Ret v' ↔ i < length v ∧ v' = <[i := x]> v.
Proof.
  unfold assign. case_decide; split; try done.
  - by intros [= <-].
  - by intros [_ ->].
  - intros [??]; lia.
Qed.

(** Take apart a hypothesis stating that a sequence of steps returns. *)
Ltac inv_ret :=
  repeat match goal with
  | H : Ret _ = Ret _ |- _ => injection H as H; try subst
  | H : Undefined = Ret _ |- _ => discriminate H
  | H : _ ≫= _ = Ret _ |- _ =>
    let a := fresh "r" in let H1 := fresh H in
    apply bind_Ret in H as (a & H1 & H)
  | H : _ <$> _ = Ret _ |- _ =>
    let a := fresh "r" in let H1 := fresh H in
    apply fmap_Ret in H as (a & H1 & H)
  | H : checked _ = Ret _ |- _ => apply checked_Ret in H
  | H : deref _ _ = Ret _ |- _ => apply checked_Ret in H
  | H : at_ _ _ = Ret _ |- _ => apply checked_Ret in H
  | H : get_array _ _ = Ret _ |- _ => apply checked_Ret in H
  | H : assign _ _ _ = Ret _ |- _ => apply assign_Ret in H as [? H]
  end; subst.

(** Reduce the projections of the records of the model, and nothing else. *)
Ltac simpl_world :=
  cbn [generations_ free_ids_ archetypes_ entity_locations_ event_handlers_
       set_generations set_free_ids set_archetypes set_locations set_handlers
       key entities components set_entities set_components
       arch index id generation mask fst snd] in *.

(** ** Archetype keys *)

Lemma shiftl_1_testbit (c i : N) : N.testbit (N.shiftl 1 c) i = bool_decide (c = i).
Proof.
  rewrite N.shiftl_1_l, N.pow2_bits_eqb.
  case_bool_decide; [by apply N.eqb_eq | by apply N.eqb_neq].
Qed.

Lemma has_testbit (k : ArchetypeKey) (c : N) : Key.has k c = N.testbit (mask k) c.
Proof.
  unfold Key.has. destruct (N.testbit (mask k) c) eqn:Hb.
  - apply negb_true_iff, N.eqb_neq. intros H0.
    assert (N.testbit (N.land (mask k) (N.shiftl 1 c)) c = true) as Hc.
    { rewrite N.land_spec, Hb, shiftl_1_testbit. by rewrite bool_decide_eq_true_2. }
    rewrite H0, N.bits_0 in Hc. done.
  - apply negb_false_iff, N.eqb_eq, N.bits_inj. intros i.
    rewrite N.land_spec, shiftl_1_testbit, N.bits_0.
    case_bool_decide; subst; [by rewrite Hb | by rewrite andb_false_r].
Qed.

Lemma has_empty (c : N) : Key.has Key.empty c = false.
Proof. by rewrite has_testbit, N.bits_0. Qed.

Lemma has_add (k : ArchetypeKey) (c c' : N) :
  Key.has (Key.add k c) c' = Key.has k c' || bool_decide (c = c').
Proof. by rewrite !has_testbit; simpl; rewrite N.lor_spec, shiftl_1_testbit. Qed.

Lemma has_remove (k : ArchetypeKey) (c c' : N) :
  (c' < 64)%N → Key.has (Key.remove k c) c' = Key.has k c' && negb (bool_decide (c = c')).
Proof.
  intros Hc. rewrite !has_testbit; simpl.
  by rewrite N.land_spec, N.lnot_spec_low, shiftl_1_testbit.
Qed.

Lemma has_add_all (Cs : list N) (k : ArchetypeKey) (c : N) :
  Key.has (Key.add_all k Cs) c = Key.has k c || bool_decide (c ∈ Cs).
Proof.
  unfold Key.add_all. revert k. induction Cs as [|x Cs IH]; intros k.
  - case_bool_decide as Hin; [by apply elem_of_nil in Hin | by rewrite orb_false_r].
  - cbn [foldl]. rewrite IH, has_add, <- orb_assoc. f_equal.
    destruct (decide (x = c)) as [->|Hxc].
    + rewrite (bool_decide_eq_true_2 (c = c)) by done.
      rewrite (bool_decide_eq_true_2 (c ∈ c :: Cs)) by (by left). done.
    + rewrite (bool_decide_eq_false_2 (x = c)) by done. simpl.
      apply bool_decide_ext. rewrite elem_of_cons.
      split; [by right|by intros [->|?]].
Qed.

Lemma has_remove_all (Cs : list N) (k : ArchetypeKey) (c : N) :
  (c < 64)%N →
  Key.has (Key.remove_all k Cs) c = Key.has k c && negb (bool_decide (c ∈ Cs)).
Proof.
  intros Hc. unfold Key.remove_all. revert k. induction Cs as [|x Cs IH]; intros k.
  - case_bool_decide as Hin; [by apply elem_of_nil in Hin | by rewrite andb_true_r].
  - cbn [foldl]. rewrite IH, has_remove, <- andb_assoc by done. f_equal.
    destruct (decide (x = c)) as [->|Hxc].
    + rewrite (bool_decide_eq_true_2 (c = c)) by done.
      rewrite (bool_decide_eq_true_2 (c ∈ c :: Cs)) by (by left). done.
    + rewrite (bool_decide_eq_false_2 (x = c)) by done. simpl. f_equal.
      apply bool_decide_ext. rewrite elem_of_cons.
      split; [by right|by intros [->|?]].
Qed.

Lemma mask_add_bound (k : ArchetypeKey) (c : N) :
  (mask k < 2 ^ 64)%N → (c < 64)%N → (mask (Key.add k c) < 2 ^ 64)%N.
Proof.
  intros Hk Hc. simpl.
  destruct (decide (N.lor (mask k) (N.shiftl 1 c) = 0)%N) as [->|Hne]; [done|].
  apply N.log2_lt_pow2; [lia|].
  rewrite N.log2_lor.
  assert (N.log2 (N.shiftl 1 c) = c) as ->.
  { rewrite N.shiftl_1_l. apply N.log2_pow2. lia. }
  destruct (decide (mask k = 0%N)) as [->|Hk0]; [simpl; lia|].
  apply N.log2_lt_pow2 in Hk; lia.
Qed.

Lemma mask_add_all_bound (Cs : list N) (k : ArchetypeKey) :
  (mask k < 2 ^ 64)%N → Forall component_id_ok Cs → (mask (Key.add_all k Cs) < 2 ^ 64)%N.
Proof.
  unfold Key.add_all. intros Hk HCs. revert k Hk.
  induction HCs as [|c Cs Hc _ IH]; intros k Hk; simpl; [done|].
  apply IH. by apply mask_add_bound.
Qed.

Lemma mask_remove_bound (k : ArchetypeKey) (c : N) :
  (mask k < 2 ^ 64)%N → (mask (Key.remove k c) < 2 ^ 64)%N.
Proof.
  intros Hk. simpl.
  pose proof (N.land_le_l (mask k) (N.lnot (N.shiftl 1 c) 64)) as Hle. lia.
Qed.

Lemma mask_remove_all_bound (Cs : list N) (k : ArchetypeKey) :
  (mask k < 2 ^ 64)%N → (mask (Key.remove_all k Cs) < 2 ^ 64)%N.
Proof.
  unfold Key.remove_all. revert k. induction Cs as [|c Cs IH]; intros k Hk; simpl; [done|].
  apply IH. by apply mask_remove_bound.
Qed.

(** A 64-bit key is determined by the components it has. *)
Lemma key_eq (k k' : ArchetypeKey) :
  (mask k < 2 ^ 64)%N → (mask k' < 2 ^ 64)%N →
  (∀ c, (c < 64)%N → Key.has k c = Key.has k' c) → k = k'.
Proof.
  intros Hk Hk' Hhas. destruct k as [m], k' as [m']; simpl in *. f_equal.
  apply N.bits_inj. intros i.
  destruct (decide (i < 64)%N) as [Hi|Hi].
  - specialize (Hhas i Hi). by rewrite !has_testbit in Hhas.
  - assert (∀ x, (x < 2 ^ 64)%N → N.testbit x i = false) as Hhigh.
    { intros x Hx. destruct (decide (x = 0%N)) as [->|Hx0]; [apply N.bits_0|].
      apply N.bits_above_log2. apply N.log2_lt_pow2 in Hx; lia. }
    by rewrite !Hhigh.
Qed.

(** ** Loops over component ids *)

Lemma elem_of_component_ids (c : N) : c ∈ component_ids ↔ (c < 64)%N.
Proof.
  unfold component_ids. rewrite list_elem_of_fmap. split.
  - intros (n & -> & Hn%elem_of_seq). lia.
  - intros Hc. exists (N.to_nat c). split; [lia|]. apply elem_of_seq. lia.
Qed.

Lemma NoDup_component_ids : NoDup component_ids.
Proof.
  unfold component_ids. apply NoDup_fmap_2; [|apply NoDup_seq].
  intros x y Hxy. lia.
Qed.

(** From here on the list of ids is only used through the two lemmas above. *)
#[global] Opaque component_ids.

(** A loop whose body for [c] only touches the part [get c] of the state. *)
Lemma for_ids_cols {S X} (get : N → S → X) (F : relation S) `{!PreOrder F}
    (T : N → X → X → Prop) (body : N → S → Result S) ids s0 s' :
  NoDup ids →
  (∀ c s1 s2, c ∈ ids → F s0 s1 → body c s1 = Ret s2 →
     F s1 s2 ∧ (∀ c', c' ≠ c → get c' s2 = get c' s1) ∧ T c (get c s1) (get c s2)) →
  for_ids ids body s0 = Ret s' →
  F s0 s' ∧ ∀ c, (c ∈ ids → T c (get c s0) (get c s')) ∧ (c ∉ ids → get c s' = get c s0).
Proof.
  intros Hnd Hstep.
  enough (∀ s1, F s0 s1 → for_ids ids body s1 = Ret s' →
            F s0 s' ∧ ∀ c, (c ∈ ids → T c (get c s1) (get c s')) ∧
                           (c ∉ ids → get c s' = get c s1)) as Hgen.
  { apply Hgen. reflexivity. }
  induction Hnd as [|c ids Hc Hnd IH]; intros s1 Hs1 Hrun; simpl in Hrun.
  - inv_ret. split; [done|]. intros c. split; [by intros ?%elem_of_nil|done].
  - inv_ret.
    destruct (Hstep c s1 r) as (HF & Hother & HT); [by left|done..|].
    destruct IH with (s1 := r) as (HF' & Hcols); [|by etrans|done|].
    { intros c' s2 s3 Hc'. apply Hstep. by right. }
    split; [done|]. intros c'. split.
    + intros [->|Hin]%elem_of_cons.
      * destruct (Hcols c) as [_ Heq]. by rewrite Heq.
      * destruct (Hcols c') as [HT' _]. rewrite <- Hother; [by apply HT'|].
        intros ->. done.
    + intros Hnin. apply not_elem_of_cons in Hnin as [Hne Hnin].
      destruct (Hcols c') as [_ Heq]. rewrite Heq by done. by apply Hother.
Qed.

Lemma same_frame_preorder q : PreOrder (same_frame q).
Proof.
  split.
  - intros m. split; [done|]. by destruct (m !! q); constructor.
  - intros m1 m2 m3 [H1 H1'] [H2 H2']. split.
    + intros p Hp. by rewrite H2, H1.
    + destruct H1' as [a a' [??]|]; inversion H2' as [b b' [??]|]; constructor.
      split; congruence.
Qed.
#[global] Existing Instance same_frame_preorder.

Lemma same_frame_insert q m a cs :
  m !! q = Some a → same_frame q m (<[q := set_components a cs]> m).
Proof.
  intros Ha. split.
  - intros p Hp. by rewrite lookup_insert_ne.
  - rewrite Ha, lookup_insert_eq. by constructor.
Qed.

Lemma same_frame_lookup q m m' a' :
  same_frame q m m' → m' !! q = Some a' →
  ∃ a, m !! q = Some a ∧ key a' = key a ∧ entities a' = entities a.
Proof.
  intros [_ H] Ha'. rewrite Ha' in H. inversion H as [a b [??]|]; subst. eauto.
Qed.

Lemma same_frame_lookup_1 q m m' a :
  same_frame q m m' → m !! q = Some a →
  ∃ a', m' !! q = Some a' ∧ key a' = key a ∧ entities a' = entities a.
Proof.
  intros [_ H] Ha. rewrite Ha in H. inversion H as [b a' [??]|]; subst. eauto.
Qed.

Lemma col_insert q c m a cs :
  col q c (<[q := set_components a cs]> m) = cs !! c.
Proof. unfold col. by rewrite lookup_insert_eq. Qed.

Lemma col_same_frame_ne q p c m m' :
  same_frame q m m' → p ≠ q → col p c m' = col p c m.
Proof. intros [H _] Hp. unfold col. by rewrite H. Qed.

(** ** Vectors *)

Lemma removelast_take {A} (l : list A) : removelast l = take (pred (length l)) l.
Proof. apply removelast_firstn_len. Qed.

Lemma length_removelast {A} (l : list A) : length (removelast l) = pred (length l).
Proof. rewrite removelast_take, length_take. lia. Qed.

(** Pushing a copy of row [i] and swap-removing row [i] restores a vector. *)
Lemma push_swap_remove {A} (l : list A) (i : nat) (x : A) :
  l !! i = Some x → removelast (<[i := x]> (l ++ [x])) = l.
Proof.
  intros Hi. pose proof (lookup_lt_Some _ _ _ Hi) as Hlt.
  rewrite insert_app_l by done. rewrite removelast_last.
  by apply list_insert_id.
Qed.

(** ** Swap-remove of a row *)

Lemma pop_column_spec k index last c cs cs' :
  pop_column k index last c cs = Ret cs' →
  (∀ c', c' ≠ c → cs' !! c' = cs !! c') ∧ popped k index last c (cs !! c) (cs' !! c).
Proof.
  unfold pop_column, popped, move_and_pop. intros Hrun.
  destruct (Key.has k c); [|by inv_ret].
  inv_ret. case_decide; [|done]. inv_ret. split.
  - intros c' Hc'. by rewrite lookup_insert_ne.
  - rewrite lookup_insert_eq. eauto 10.
Qed.

Lemma pop_columns_spec k index last cs cs' :
  for_ids component_ids (pop_column k index last) cs = Ret cs' →
  ∀ c, ((c < 64)%N → popped k index last c (cs !! c) (cs' !! c)) ∧
       (¬ (c < 64)%N → cs' !! c = cs !! c).
Proof.
  intros Hrun c.
  eapply (for_ids_cols (λ c cs, cs !! c) (λ _ _, True) (popped k index last)
            (PreOrder0 := Build_PreOrder _ (λ _, I) (λ _ _ _ _ _, I)))
    in Hrun as [_ Hcols]; [|apply NoDup_component_ids|].
  - rewrite <- elem_of_component_ids. apply Hcols.
  - intros c1 s1 s2 _ _ Hstep. apply pop_column_spec in Hstep as [??]. done.
Qed.

Lemma remove_from_archetype_inv e p index w w' :
  remove_from_archetype e p index w = Ret w' →
  ∃ a last moved cs lm,
    archetypes_ w !! p = Some a ∧
    length (entities a) = S last ∧
    entities a !! last = Some moved ∧
    index < length (entities a) ∧
    (∀ c, ((c < 64)%N → popped (key a) index last c (components a !! c) (cs !! c)) ∧
          (¬ (c < 64)%N → cs !! c = components a !! c)) ∧
    entity_locations_ w !! N.to_nat (id moved) = Some lm ∧
    N.to_nat (id e) < length (entity_locations_ w) ∧
    w' = mkWorld (generations_ w) (free_ids_ w)
           (<[p := mkArchetype (key a) (removelast (<[index := moved]> (entities a))) cs]>
              (archetypes_ w))
           (<[N.to_nat (id e) := mkLocation None 0]>
              (<[N.to_nat (id moved) := mkLocation (arch lm) index]> (entity_locations_ w)))
           (event_handlers_ w).
Proof.
  unfold remove_from_archetype. intros Hrun. inv_ret.
  destruct (length (entities r)) as [|last] eqn:Hlen; [done|].
  inv_ret. simpl_world.
  rewrite length_insert in *.
  exists r, last, r0, r2, r3. split_and!; try done.
  by apply pop_columns_spec.
Qed.

Lemma popped_length k index last c x x' n :
  popped k index last c x x' → Key.has k c = true →
  length <$> x = Some (S n) → length <$> x' = Some n.
Proof.
  unfold popped. intros Hpop Hhas Hlen. rewrite Hhas in Hpop.
  destruct Hpop as (vec & v & -> & _ & _ & ->). simpl in *.
  rewrite length_removelast, length_insert. f_equal. injection Hlen as ->. done.
Qed.

Lemma archetype_ok_columns p a c :
  archetype_ok p a → (c < 64)%N → Key.has (key a) c = true →
  length <$> components a !! c = Some (length (entities a)).
Proof.
  intros (_ & _ & Hcols) Hc Hhas. rewrite Forall_forall in Hcols.
  apply Hcols; [by apply elem_of_component_ids|done].
Qed.

Lemma remove_from_archetype_parity e p index w w' :
  row_parity w → remove_from_archetype e p index w = Ret w' → row_parity w'.
Proof.
  intros Hinv (a & last & moved & cs & lm & Ha & Hlen & _ & Hidx & Hcs & _ & _ & ->)
    %remove_from_archetype_inv.
  unfold row_parity in *; simpl. apply map_Forall_insert_2; [|done].
  specialize (Hinv p a Ha). destruct Hinv as (Hk & Hb & Hcols).
  split; [done|]. split; [done|]. apply Forall_forall. intros c Hc%elem_of_component_ids.
  unfold column_ok; simpl. intros Hhas.
  rewrite length_removelast, length_insert, Hlen. simpl.
  destruct (Hcs c) as [Hpop _]. eapply popped_length; [by apply Hpop|done|].
  rewrite <- Hlen. by eapply archetype_ok_columns.
Qed.

Lemma for_ids_cols_total {S X} (get : N → S → X) (F : relation S) `{!PreOrder F}
    (Pre : N → X → Prop) (body : N → S → Result S) ids s0 :
  NoDup ids →
  (∀ c s1, c ∈ ids → F s0 s1 → Pre c (get c s1) →
     ∃ s2, body c s1 = Ret s2 ∧ F s1 s2 ∧ ∀ c', c' ≠ c → get c' s2 = get c' s1) →
  (∀ c, c ∈ ids → Pre c (get c s0)) →
  ∃ s', for_ids ids body s0 = Ret s'.
Proof.
  intros Hnd Hstep.
  enough (∀ s1, F s0 s1 → (∀ c, c ∈ ids → Pre c (get c s1)) →
            ∃ s', for_ids ids body s1 = Ret s') as Hgen.
  { apply Hgen. reflexivity. }
  induction Hnd as [|c ids Hc Hnd IH]; intros s1 Hs1 Hpre; simpl.
  - eauto.
  - destruct (Hstep c s1) as (s2 & -> & HF & Hother); [by left|done|apply Hpre; by left|].
    simpl. apply IH.
    + intros c' s3 Hc'. apply Hstep. by right.
    + by etrans.
    + intros c' Hc'. rewrite Hother; [apply Hpre; by right|]. by intros ->.
Qed.

(** ** The loops of [migrate] *)

Lemma made_refl x : made x x.
Proof. by left. Qed.

Lemma made_trans x y z : made x y → made y z → made x z.
Proof. intros [->|[-> ->]]; [done|]. intros [->|[? _]]; [by right|done]. Qed.

Lemma made_is_Some x y : made x y → is_Some x → is_Some y.
Proof. intros [->|[-> _]] [??]; done. Qed.

Lemma col_lookup q c m a : m !! q = Some a → col q c m = components a !! c.
Proof. intros Ha. unfold col. by rewrite Ha. Qed.

Lemma col_insert_ne q c c' m a x :
  c' ≠ c → m !! q = Some a →
  col q c' (<[q := set_components a (<[c := x]> (components a))]> m) = col q c' m.
Proof.
  intros Hc Ha. rewrite col_insert, lookup_insert_ne by done. by rewrite (col_lookup _ _ _ a).
Qed.

Lemma ensure_array_spec q c m m' :
  ensure_array q c m = Ret m' →
  same_frame q m m' ∧ (∀ c', c' ≠ c → col q c' m' = col q c' m) ∧
  made (col q c m) (col q c m') ∧ is_Some (col q c m').
Proof.
  unfold ensure_array. intros Hrun. inv_ret.
  destruct (components r !! c) as [vec|] eqn:Hc; inv_ret.
  - split; [done|]. split; [done|]. split; [apply made_refl|].
    rewrite (col_lookup _ _ _ r), Hc; done.
  - split; [by apply same_frame_insert|]. split; [|split].
    + intros c' Hc'. by apply col_insert_ne.
    + right. by rewrite col_insert, lookup_insert_eq, (col_lookup _ _ _ r).
    + by rewrite col_insert, lookup_insert_eq.
Qed.

Lemma ensure_loop_spec q Cs m m' :
  for_ids Cs (ensure_array q) m = Ret m' →
  same_frame q m m' ∧ (∀ c, made (col q c m) (col q c m')) ∧
  (∀ c, c ∈ Cs → is_Some (col q c m')).
Proof.
  revert m. induction Cs as [|c Cs IH]; intros m Hrun; simpl in Hrun; inv_ret.
  - split; [done|]. split; [intros; apply made_refl|]. by intros c ?%elem_of_nil.
  - apply ensure_array_spec in Hrun0 as (HF & Hother & Hmade & Hsome).
    apply IH in Hrun as (HF' & Hmade' & Hsome').
    split; [by etrans|]. split.
    + intros c'. eapply made_trans; [|apply Hmade'].
      destruct (decide (c' = c)) as [->|Hne]; [done|].
      rewrite Hother by done. apply made_refl.
    + intros c' [->|Hin]%elem_of_cons; [|by apply Hsome'].
      eapply made_is_Some; [apply Hmade'|done].
Qed.

Lemma clone_step_spec p q nk c m m' :
  clone_step p q nk c m = Ret m' →
  same_frame q m m' ∧ (∀ c', c' ≠ c → col q c' m' = col q c' m) ∧
  made (col q c m) (col q c m') ∧
  (Key.has nk c = true → ∀ src, m !! p = Some src → Key.has (key src) c = true →
     is_Some (components src !! c) → is_Some (col q c m')).
Proof.
  unfold clone_step. intros Hrun.
  destruct (Key.has nk c) eqn:Hnk; [|inv_ret; split_and!; [reflexivity|done|apply made_refl|done]].
  inv_ret. destruct (components r !! c) as [vec|] eqn:Hc; inv_ret.
  { split; [done|]. split; [done|]. split; [apply made_refl|].
    intros _ src _ _ _. rewrite (col_lookup _ _ _ r), Hc; done. }
  destruct (Key.has (key r0) c) eqn:Hsrc; [|inv_ret].
  - destruct (components r0 !! c) as [svec|] eqn:Hsc; inv_ret.
    + split; [by apply same_frame_insert|]. split; [|split].
      * intros c' Hc'. by apply col_insert_ne.
      * right. by rewrite col_insert, lookup_insert_eq, (col_lookup _ _ _ r).
      * intros _ src _ _ _. by rewrite col_insert, lookup_insert_eq.
    + split; [done|]. split; [done|]. split; [apply made_refl|].
      intros _ src Hsrc' _ [? Hx]. simplify_eq.
  - split; [done|]. split; [done|]. split; [apply made_refl|].
    intros _ src Hsrc' Hh. simplify_eq. congruence.
Qed.

Lemma clone_loop_spec p q nk m m' :
  for_ids component_ids (clone_step p q nk) m = Ret m' →
  same_frame q m m' ∧ (∀ c, made (col q c m) (col q c m')) ∧
  (∀ c src, (c < 64)%N → Key.has nk c = true → p ≠ q → m !! p = Some src →
     Key.has (key src) c = true → is_Some (components src !! c) → is_Some (col q c m')).
Proof.
  intros Hrun.
  eapply (for_ids_cols (λ c m, col q c m) (same_frame q)
            (λ c x x', made x x' ∧
               (Key.has nk c = true → p ≠ q → ∀ src, m !! p = Some src →
                Key.has (key src) c = true → is_Some (components src !! c) → is_Some x')))
    in Hrun as [HF Hcols]; [|apply NoDup_component_ids|].
  - split; [done|]. split.
    + intros c. destruct (decide (c ∈ component_ids)) as [Hc|Hc].
      * by apply Hcols.
      * destruct (Hcols c) as [_ Hsame]. rewrite Hsame by done. apply made_refl.
    + intros c src Hc%elem_of_component_ids Hnk Hpq Hsrc Hhas Hsome.
      destruct (Hcols c) as [Hin _]. destruct (Hin Hc) as [_ H]. eauto.
  - intros c s1 s2 _ HF Hstep.
    apply clone_step_spec in Hstep as (HF' & Hother & Hmade & Hsome).
    split; [done|]. split; [done|]. split; [done|].
    intros Hnk Hpq src Hsrc. apply Hsome; [done|].
    destruct HF as [HF _]. by rewrite HF.
Qed.

Lemma copy_step_spec p q nk idx m0 c m m' :
  same_frame q m0 m → copy_step p q nk idx c m = Ret m' →
  same_frame q m m' ∧ (∀ c', c' ≠ c → col q c' m' = col q c' m) ∧
  copied p q nk idx m0 c (col q c m) (col q c m').
Proof.
  unfold copy_step, copied, copy_element. intros HF Hrun.
  destruct (Key.has nk c) eqn:Hnk; [|by inv_ret].
  inv_ret. rename r into dst, r0 into src.
  assert (∃ src0, m0 !! p = Some src0 ∧ key src = key src0) as (src0 & Hsrc0 & Hkey).
  { destruct (decide (p = q)) as [->|Hpq].
    - destruct (same_frame_lookup _ _ _ _ HF Hrun1) as (a & ? & ? & ?). eauto.
    - destruct HF as [HF _]. rewrite HF in Hrun1 by done. eauto. }
  assert (col p c m = if decide (p = q) then col q c m else col p c m0) as Hsrccol.
  { case_decide; [by subst|]. by eapply col_same_frame_ne. }
  destruct (Key.has (key src) c) eqn:Hsrc; inv_ret.
  - split; [by apply same_frame_insert|]. split.
    + intros c' Hc'. by apply col_insert_ne.
    + rewrite col_insert, lookup_insert_eq, (col_lookup _ _ _ dst) by done.
      exists src0, r. split; [done|]. split; [done|]. rewrite <- Hkey, Hsrc.
      exists r0, r2. split; [|done].
      rewrite <- (col_lookup _ _ _ dst Hrun0), <- Hsrccol. by rewrite (col_lookup _ _ _ src).
  - split; [by apply same_frame_insert|]. split.
    + intros c' Hc'. by apply col_insert_ne.
    + rewrite col_insert, lookup_insert_eq, (col_lookup _ _ _ dst) by done.
      exists src0, r. split; [done|]. split; [done|]. by rewrite <- Hkey, Hsrc.
Qed.

Lemma copy_loop_spec p q nk idx m m' :
  for_ids component_ids (copy_step p q nk idx) m = Ret m' →
  same_frame q m m' ∧
  ∀ c, ((c < 64)%N → copied p q nk idx m c (col q c m) (col q c m')) ∧
       (¬ (c < 64)%N → col q c m' = col q c m).
Proof.
  intros Hrun.
  eapply (for_ids_cols (λ c m, col q c m) (same_frame q) (copied p q nk idx m))
    in Hrun as [HF Hcols]; [|apply NoDup_component_ids|].
  - split; [done|]. intros c. rewrite <- elem_of_component_ids. apply Hcols.
  - intros c s1 s2 _ HF Hstep. by eapply copy_step_spec.
Qed.

Lemma default_step_spec q nk c m m' :
  default_step q nk c m = Ret m' →
  same_frame q m m' ∧ (∀ c', c' ≠ c → col q c' m' = col q c' m) ∧
  defaulted nk c (col q c m) (col q c m').
Proof.
  unfold default_step, defaulted. intros Hrun.
  destruct (Key.has nk c) eqn:Hnk; [|by inv_ret].
  inv_ret. split; [by apply same_frame_insert|]. split.
  - intros c' Hc'. by apply col_insert_ne.
  - rewrite col_insert, lookup_insert_eq, (col_lookup _ _ _ r) by done. eauto.
Qed.

Lemma default_loop_spec q nk m m' :
  for_ids component_ids (default_step q nk) m = Ret m' →
  same_frame q m m' ∧
  ∀ c, ((c < 64)%N → defaulted nk c (col q c m) (col q c m')) ∧
       (¬ (c < 64)%N → col q c m' = col q c m).
Proof.
  intros Hrun.
  eapply (for_ids_cols (λ c m, col q c m) (same_frame q) (defaulted nk))
    in Hrun as [HF Hcols]; [|apply NoDup_component_ids|].
  - split; [done|]. intros c. rewrite <- elem_of_component_ids. apply Hcols.
  - intros c s1 s2 _ HF Hstep. by eapply default_step_spec.
Qed.

(** ** Row parity is kept by every operation *)

Lemma mid_migration_made q nk n m m' :
  mid_migration q nk n m → same_frame q m m' →
  (∀ c, made (col q c m) (col q c m')) → mid_migration q nk n m'.
Proof.
  intros [Hothers (a & Ha & Hk & Hq & Hb & Hlen & Hcols)] HF Hmade.
  destruct (same_frame_lookup_1 _ _ _ _ HF Ha) as (a' & Ha' & Hk' & He').
  split.
  - intros p b Hp Hb'. destruct HF as [HF _]. rewrite HF in Hb' by done. eauto.
  - exists a'. split_and!; try congruence.
    intros c Hc Hhas. specialize (Hmade c).
    rewrite (col_lookup _ _ _ a), (col_lookup _ _ _ a') in Hmade by done.
    destruct (Hcols c Hc Hhas) as [Hl|[Hn ->]], Hmade as [->|[Hx ->]]; auto.
    by rewrite Hx in Hl.
Qed.

Lemma get_or_create_mid nk m q m1 a e :
  map_Forall archetype_ok m → (mask nk < 2 ^ 64)%N →
  get_or_create_archetype nk m = (q, m1) → m1 !! q = Some a →
  mid_migration q nk (length (entities a)) (<[q := set_entities a (entities a ++ [e])]> m1).
Proof.
  unfold get_or_create_archetype. intros Hinv Hb Hgoc Ha.
  destruct (m !! mask nk) as [a0|] eqn:Hm; injection Hgoc as <- <-.
  - rewrite Hm in Ha. injection Ha as ->.
    destruct (Hinv _ _ Hm) as (Hk & _ & Hcols).
    assert (key a = nk) as Hkey by (destruct (key a), nk; simpl in *; by subst).
    split.
    + intros p b Hp. rewrite lookup_insert_ne by done. apply Hinv.
    + exists (set_entities a (entities a ++ [e])). rewrite lookup_insert_eq. simpl_world.
      split_and!; try done.
      * rewrite length_app. simpl. lia.
      * intros c Hc Hhas. left. eapply archetype_ok_columns; [by apply (Hinv _ _ Hm)|done|].
        by rewrite Hkey.
  - rewrite lookup_insert_eq in Ha. injection Ha as <-. simpl_world. split.
    + intros p b Hp. rewrite !lookup_insert_ne by done. apply Hinv.
    + eexists. rewrite lookup_insert_eq. split; [done|]. simpl_world.
      split_and!; try done. intros c _ _. right. by rewrite lookup_empty.
Qed.

Lemma mid_migration_finish q nk n m m' :
  mid_migration q nk n m → same_frame q m m' →
  (∀ c, (c < 64)%N → Key.has nk c = true →
        ∃ d v, col q c m = Some d ∧ col q c m' = Some (d ++ [v])) →
  map_Forall archetype_ok m'.
Proof.
  intros [Hothers (a & Ha & Hk & Hq & Hb & Hlen & Hcols)] HF Hpush.
  destruct (same_frame_lookup_1 _ _ _ _ HF Ha) as (a' & Ha' & Hk' & He').
  intros p b Hb'. destruct (decide (p = q)) as [->|Hp].
  - rewrite Ha' in Hb'. injection Hb' as <-. split_and!; try congruence.
    apply Forall_forall. intros c Hc%elem_of_component_ids Hhas.
    rewrite Hk', Hk in Hhas.
    destruct (Hpush c Hc Hhas) as (d & v & Hd & Hd').
    rewrite (col_lookup _ _ _ a) in Hd by done.
    rewrite (col_lookup _ _ _ a') in Hd' by done.
    rewrite Hd', He', Hlen. simpl. rewrite length_app. simpl.
    destruct (Hcols c Hc Hhas) as [Hl|[Hn _]]; [|congruence].
    rewrite Hd in Hl. simpl in Hl. injection Hl as ->. f_equal. lia.
  - destruct HF as [HF _]. rewrite HF in Hb' by done. eauto.
Qed.

(** The steps of a [migrate] that returns. *)
Lemma migrate_inv Cs e adding w w' calls :
  migrate Cs e adding w = Ret (w', calls) →
  ∃ loc k0 q m1 a m3 w1,
    let nk := if adding then Key.add_all k0 Cs else Key.remove_all k0 Cs in
    entity_locations_ w !! N.to_nat (id e) = Some loc ∧
    match arch loc with
    | Some p => ∃ a0, archetypes_ w !! p = Some a0 ∧ key a0 = k0
    | None => k0 = Key.empty
    end ∧
    get_or_create_archetype nk (archetypes_ w) = (q, m1) ∧
    m1 !! q = Some a ∧
    (if adding
     then for_ids Cs (ensure_array q) (<[q := set_entities a (entities a ++ [e])]> m1)
     else Ret (<[q := set_entities a (entities a ++ [e])]> m1)) = Ret m3 ∧
    match arch loc with
    | Some p => ∃ m4 m5,
        for_ids component_ids (clone_step p q nk) m3 = Ret m4 ∧
        for_ids component_ids (copy_step p q nk (index loc)) m4 = Ret m5 ∧
        remove_from_archetype e p (index loc) (set_archetypes w m5) = Ret w1
    | None => ∃ m4,
        for_ids component_ids (default_step q nk) m3 = Ret m4 ∧
        w1 = set_archetypes w m4
    end ∧
    N.to_nat (id e) < length (entity_locations_ w1) ∧
    w' = set_locations w1
           (<[N.to_nat (id e) := mkLocation (Some q) (length (entities a))]>
              (entity_locations_ w1)) ∧
    calls = (if adding then mjoin ((λ c, fire_component_added c e w') <$> Cs)
             else mjoin ((λ c, fire_component_removed c e w') <$> Cs)).
Proof.
  unfold migrate. intros Hrun.
  apply bind_Ret in Hrun as (loc & Hloc & Hrun). apply checked_Ret in Hloc.
  apply bind_Ret in Hrun as (k0 & Hk0 & Hrun).
  destruct (get_or_create_archetype _ _) as [q m1] eqn:Hgoc.
  apply bind_Ret in Hrun as (a & Ha & Hrun). apply checked_Ret in Ha.
  apply bind_Ret in Hrun as (m3 & Hm3 & Hrun).
  apply bind_Ret in Hrun as (w1 & Hw1 & Hrun).
  apply bind_Ret in Hrun as (locs & Hlocs & Hrun).
  apply assign_Ret in Hlocs as [Hlt ->]. injection Hrun as <- <-.
  exists loc, k0, q, m1, a, m3, w1. cbn zeta. split_and!; try done.
  - destruct (arch loc) as [p|]; [|by injection Hk0].
    apply bind_Ret in Hk0 as (a0 & Ha0%checked_Ret & [= <-]). eauto.
  - destruct (arch loc) as [p|].
    + apply bind_Ret in Hw1 as (m4 & Hm4 & Hw1).
      apply bind_Ret in Hw1 as (m5 & Hm5 & Hw1). eauto.
    + apply bind_Ret in Hw1 as (m4 & Hm4 & [= <-]). eauto.
Qed.

Lemma migrate_parity Cs e adding w w' calls :
  Forall component_id_ok Cs → row_parity w →
  migrate Cs e adding w = Ret (w', calls) → row_parity w'.
Proof.
  unfold row_parity. intros HCs Hinv Hrun.
  apply migrate_inv in Hrun
    as (loc & k0 & q & m1 & a & m3 & w1 & Hloc & Hk0 & Hgoc & Ha & Hm3 & Hw1 & _ & -> & _).
  set (nk := if adding then Key.add_all k0 Cs else Key.remove_all k0 Cs) in *.
  simpl_world.
  assert (mask k0 < 2 ^ 64)%N as Hk0b.
  { destruct (arch loc) as [p|]; [|by subst].
    destruct Hk0 as (a0 & Ha0 & <-). destruct (Hinv _ _ Ha0) as (-> & ? & _). done. }
  assert (mask nk < 2 ^ 64)%N as Hnk.
  { subst nk. destruct adding; [by apply mask_add_all_bound|by apply mask_remove_all_bound]. }
  pose proof (get_or_create_mid nk _ _ _ _ e Hinv Hnk Hgoc Ha) as Hmid.
  assert (mid_migration q nk (length (entities a)) m3) as Hmid3.
  { destruct adding; [|by injection Hm3 as <-].
    apply ensure_loop_spec in Hm3 as (HF & Hmade & _).
    by eapply mid_migration_made. }
  clear Hmid. destruct (arch loc) as [p|].
  - destruct Hw1 as (m4 & m5 & Hm4 & Hm5 & Hw1).
    apply clone_loop_spec in Hm4 as (HF4 & Hmade4 & _).
    pose proof (mid_migration_made _ _ _ _ _ Hmid3 HF4 Hmade4) as Hmid4.
    apply copy_loop_spec in Hm5 as (HF5 & Hcols5).
    assert (map_Forall archetype_ok m5) as Hinv5.
    { eapply mid_migration_finish; [done..|].
      intros c Hc Hhas. destruct (Hcols5 c) as [Hcp _]. specialize (Hcp Hc).
      unfold copied in Hcp. rewrite Hhas in Hcp.
      destruct Hcp as (src & d & _ & Hd & Hcp).
      destruct (Key.has (key src) c); [|by eauto].
      destruct Hcp as (sv & v & _ & _ & Hd'). eauto. }
    by apply remove_from_archetype_parity in Hw1.
  - destruct Hw1 as (m4 & Hm4 & ->). simpl_world.
    apply default_loop_spec in Hm4 as (HF & Hcols).
    eapply mid_migration_finish; [done..|].
    intros c Hc Hhas. destruct (Hcols c) as [Hd _]. specialize (Hd Hc).
    unfold defaulted in Hd. rewrite Hhas in Hd. destruct Hd as (d & ? & ?). eauto.
Qed.

Lemma create_unsafe_archetypes w e w' :
  create_unsafe w = Ret (e, w') → archetypes_ w' = archetypes_ w.
Proof.
  unfold create_unsafe. intros Hrun.
  destruct (last (free_ids_ w)) as [i|];
    apply bind_Ret in Hrun as (g & _ & Hrun);
    apply bind_Ret in Hrun as (locs & _ & Hrun);
    by injection Hrun as <- <-.
Qed.

Lemma create_batch_loop_archetypes n w es w' :
  create_batch_loop n w = Ret (es, w') → archetypes_ w' = archetypes_ w.
Proof.
  revert w es. induction n as [|n IH]; intros w es Hrun; simpl in Hrun.
  - by injection Hrun as <- <-.
  - apply bind_Ret in Hrun as ([e w1] & Hc & Hrun).
    apply bind_Ret in Hrun as ([es' w2] & Hb & Hrun). injection Hrun as <- <-.
    apply IH in Hb. apply create_unsafe_archetypes in Hc. congruence.
Qed.

Lemma destroy_unsafe_parity e w w' :
  row_parity w → destroy_unsafe e w = Ret w' → row_parity w'.
Proof.
  unfold destroy_unsafe. intros Hinv Hrun.
  destruct (negb (alive_unsafe e w)); [by injection Hrun as <-|].
  apply bind_Ret in Hrun as (loc & _ & Hrun).
  apply bind_Ret in Hrun as (p & _ & Hrun).
  apply bind_Ret in Hrun as (w1 & Hw1 & Hrun).
  apply bind_Ret in Hrun as (g & _ & Hrun). injection Hrun as <-.
  by apply remove_from_archetype_parity in Hw1.
Qed.

Lemma destroy_batch_parity es w w' :
  row_parity w → destroy_batch es w = Ret w' → row_parity w'.
Proof.
  revert w. induction es as [|e es IH]; intros w Hinv Hrun; simpl in Hrun.
  - by injection Hrun as <-.
  - apply bind_Ret in Hrun as (w1 & Hw1 & Hrun).
    eapply IH; [|done]. by eapply destroy_unsafe_parity.
Qed.

Lemma store_parity q v w w' :
  row_parity w → store q v w = Ret w' → row_parity w'.
Proof.
  unfold store, row_parity. intros Hinv Hrun.
  apply bind_Ret in Hrun as (a & Ha%checked_Ret & Hrun).
  apply bind_Ret in Hrun as (vec & Hvec%checked_Ret & Hrun).
  apply bind_Ret in Hrun as (vec' & [Hlt ->]%assign_Ret & Hrun).
  injection Hrun as <-. simpl_world.
  apply map_Forall_insert_2; [|done].
  destruct (Hinv _ _ Ha) as (Hk & Hb & Hcols).
  split; [done|]. split; [done|].
  apply Forall_forall. intros c Hc Hhas. simpl_world.
  rewrite Forall_forall in Hcols. specialize (Hcols c Hc Hhas).
  destruct (decide (c = ptr_component q)) as [->|Hne].
  - rewrite lookup_insert_eq. rewrite Hvec in Hcols. simpl in *.
    by rewrite length_insert.
  - by rewrite lookup_insert_ne.
Qed.

Lemma add_value_parity c e v w w' calls :
  component_id_ok c → row_parity w →
  add_value c e v w = Ret (w', calls) → row_parity w'.
Proof.
  unfold add_value. intros Hc Hinv Hrun.
  apply bind_Ret in Hrun as ([w1 calls1] & Hm & Hrun).
  apply migrate_parity in Hm; [|by apply Forall_singleton|done].
  apply bind_Ret in Hrun as (q & _ & Hrun).
  destruct q as [q|]; [|by injection Hrun as <- <-].
  apply bind_Ret in Hrun as (w2 & Hs & Hrun). injection Hrun as <- <-.
  by eapply store_parity.
Qed.

Lemma step_parity op w w' :
  row_parity w → step op w = Ret w' → row_parity w'.
Proof.
  unfold step. intros Hinv Hrun. case_decide as Hids; [|done].
  destruct op; simpl in Hids.
  - apply fmap_Ret in Hrun as ([e w1] & Hc & ->).
    unfold row_parity. cbn [snd]. by rewrite (create_unsafe_archetypes _ _ _ Hc).
  - by eapply destroy_unsafe_parity.
  - apply fmap_Ret in Hrun as ([w1 calls] & Hm & ->). by eapply migrate_parity.
  - apply fmap_Ret in Hrun as ([w1 calls] & Hm & ->).
    rewrite Forall_singleton in Hids. cbn [fst]. by eapply add_value_parity.
  - apply fmap_Ret in Hrun as ([w1 calls] & Hm & ->). by eapply migrate_parity.
  - apply fmap_Ret in Hrun as ([es w1] & Hc & ->).
    unfold row_parity. cbn [snd]. by rewrite (create_batch_loop_archetypes _ _ _ _ Hc).
  - by eapply destroy_batch_parity.
  - by injection Hrun as <-.
  - by injection Hrun as <-.
  - by eapply store_parity.
Qed.

Lemma World_new_parity : row_parity World_new.
Proof. apply map_Forall_empty. Qed.

(** C4.  Row parity holds after every public operation: in a World built by
    any sequence of public operations that all return, every archetype is
    stored under its key and each of its key columns is present and has as
    many rows as its entity column. *)
Theorem row_parity_after_every_operation (ops : list Op) (w : World) :
  run ops World_new = Ret w →
  row_parity w ∧
  ∀ p a c vec,
    archetypes_ w !! p = Some a → component_id_ok c → Key.has (key a) c = true →
    components a !! c = Some vec → length vec = length (entities a).
Proof.
  intros Hrun.
  assert (row_parity w) as Hinv.
  { revert Hrun. generalize World_new_parity. generalize World_new.
    induction ops as [|op ops IH]; intros w0 Hinv Hrun; simpl in Hrun.
    - by injection Hrun as <-.
    - apply bind_Ret in Hrun as (w1 & Hstep & Hrun).
      eapply IH; [|done]. by eapply step_parity. }
  split; [done|].
  intros p a c vec Ha Hc Hhas Hvec.
  pose proof (archetype_ok_columns _ _ _ (Hinv _ _ Ha) Hc Hhas) as Hlen.
  rewrite Hvec in Hlen. by injection Hlen.
Qed.

(** ** Read accessors *)

(** C10.  An alive entity whose directory entry has no archetype (created,
    no component added yet): [get<C>] returns null and [has<C>] returns
    false for every component [C], and neither fails. *)
Theorem fresh_entity_get_null_has_false (c : N) (e : Entity) (w : World) (loc : Location) :
  alive e w = true →
  entity_locations_ w !! N.to_nat (id e) = Some loc →
  arch loc = None →
  get c e w = Ret None ∧ has c e w = Ret false.
Proof.
  unfold alive, get, get_unsafe, has, at_. intros -> -> Harch. simpl.
  by rewrite Harch.
Qed.

(** [create] leaves the new entity in that state. *)
Lemma create_unsafe_fresh w e w' :
  create_unsafe w = Ret (e, w') →
  alive e w' = true ∧ entity_locations_ w' !! N.to_nat (id e) = Some (mkLocation None 0).
Proof.
  unfold create_unsafe, alive, alive_unsafe. intros Hrun.
  destruct (last (free_ids_ w)) as [i|];
    apply bind_Ret in Hrun as (g & Hg%checked_Ret & Hrun);
    apply bind_Ret in Hrun as (locs & [Hlt ->]%assign_Ret & Hrun);
    injection Hrun as <- <-; simpl_world; simpl_world;
    (split; [by rewrite Hg, bool_decide_eq_true_2|by apply list_lookup_insert_eq]).
Qed.

(** ** Iteration *)

Lemma mapR_total {A B} (f : A → Result B) (l : list A) :
  (∀ x, x ∈ l → ∃ y, f x = Ret y) → ∃ ys, mapR f l = Ret ys.
Proof.
  induction l as [|x l IH]; intros Hf; simpl; [eauto|].
  destruct (Hf x) as [y ->]; [by left|].
  destruct IH as [ys ->]; [intros x' Hx'; apply Hf; by right|].
  simpl. eauto.
Qed.

Lemma mapR_elem_of {A B} (f : A → Result B) (l : list A) (ys : list B) :
  mapR f l = Ret ys → ∀ y, y ∈ ys ↔ ∃ x, x ∈ l ∧ f x = Ret y.
Proof.
  revert ys. induction l as [|x l IH]; intros ys Hrun y; simpl in Hrun.
  - injection Hrun as <-. split; [by intros ?%elem_of_nil|].
    by intros (x & ?%elem_of_nil & _).
  - apply bind_Ret in Hrun as (y0 & Hy0 & Hrun).
    apply bind_Ret in Hrun as (ys0 & Hys0 & Hrun). injection Hrun as <-.
    rewrite elem_of_cons, (IH _ Hys0). split.
    + intros [->|(x' & Hx' & Hy)]; [exists x; split; [by left|done]|].
      exists x'. split; [by right|done].
    + intros (x' & [->|Hx']%elem_of_cons & Hy); [left; congruence|right; eauto].
Qed.

Lemma mapR_fmap {A B C} (f : A → Result B) (g : B → C) (h : A → C)
    (l : list A) (ys : list B) :
  mapR f l = Ret ys → (∀ x y, x ∈ l → f x = Ret y → g y = h x) → g <$> ys = h <$> l.
Proof.
  revert ys. induction l as [|x l IH]; intros ys Hrun Hgh; simpl in Hrun.
  - by injection Hrun as <-.
  - apply bind_Ret in Hrun as (y0 & Hy0 & Hrun).
    apply bind_Ret in Hrun as (ys0 & Hys0 & Hrun). injection Hrun as <-.
    simpl. f_equal; [apply Hgh; [by left|done]|].
    apply IH; [done|]. intros x' y' Hx'. apply Hgh. by right.
Qed.

Lemma mapR_bind {A B C} (f : A → Result B) (g : B → Result C) (l : list A) (ys : list B) :
  mapR f l = Ret ys → mapR (λ x, f x ≫= g) l = mapR g ys.
Proof.
  revert ys. induction l as [|x l IH]; intros ys Hrun; simpl in Hrun.
  - by injection Hrun as <-.
  - apply bind_Ret in Hrun as (y0 & Hy0 & Hrun).
    apply bind_Ret in Hrun as (ys0 & Hys0 & Hrun). injection Hrun as <-.
    simpl. rewrite Hy0. simpl. by rewrite (IH _ Hys0).
Qed.

Lemma mapR_ext {A B} (f g : A → Result B) (l : list A) :
  (∀ x, x ∈ l → f x = g x) → mapR f l = mapR g l.
Proof.
  induction l as [|x l IH]; intros Hfg; simpl; [done|].
  rewrite Hfg by (by left). rewrite IH; [done|]. intros x' Hx'. apply Hfg. by right.
Qed.

Lemma includes_has a Cs c :
  includes a (required Cs) = true → c ∈ Cs → Key.has (key a) c = true.
Proof.
  unfold includes, required. intros Hinc%bool_decide_eq_true Hc.
  assert (Key.has (Key.add_all Key.empty Cs) c = true) as Hreq.
  { rewrite has_add_all, bool_decide_eq_true_2 by done. apply orb_true_r. }
  rewrite has_testbit in *. rewrite <- Hinc, N.land_spec in Hreq.
  by apply andb_true_iff in Hreq as [? _].
Qed.

(** In an archetype that has all of [Cs], the columns are there and every
    row can be read. *)
Lemma columns_present p a Cs :
  archetype_ok p a → Forall component_id_ok Cs → includes a (required Cs) = true →
  ∃ base, mapR (λ c, get_array c a) Cs = Ret base ∧
          Forall (λ col, length col = length (entities a)) base.
Proof.
  intros Hok HCs Hinc.
  assert (∀ c, c ∈ Cs → ∃ vec, get_array c a = Ret vec ∧ length vec = length (entities a))
    as Hcols.
  { intros c Hc. rewrite Forall_forall in HCs.
    pose proof (archetype_ok_columns _ _ _ Hok (HCs c Hc) (includes_has _ _ _ Hinc Hc)) as Hl.
    unfold get_array. destruct (components a !! c) as [vec|]; [|done].
    injection Hl as Hl. eauto. }
  destruct (mapR_total (λ c, get_array c a) Cs) as [base Hbase].
  { intros c Hc. destruct (Hcols c Hc) as (vec & ? & _). eauto. }
  exists base. split; [done|]. apply Forall_forall. intros col Hcol.
  apply (mapR_elem_of _ _ _ Hbase) in Hcol as (c & Hc & Hget).
  destruct (Hcols c Hc) as (vec & Hget' & Hlen). congruence.
Qed.

Lemma row_args_base a Cs base i :
  mapR (λ c, get_array c a) Cs = Ret base →
  row_args Cs a i = mapR (λ col : list Value, checked (col !! i)) base.
Proof. intros Hbase. unfold row_args. by apply mapR_bind. Qed.

Lemma row_args_total p a Cs i :
  archetype_ok p a → Forall component_id_ok Cs → includes a (required Cs) = true →
  i < length (entities a) → ∃ args, row_args Cs a i = Ret args.
Proof.
  intros Hok HCs Hinc Hi.
  destruct (columns_present _ _ _ Hok HCs Hinc) as (base & Hbase & Hlen).
  rewrite (row_args_base _ _ _ _ Hbase). apply mapR_total.
  intros col Hcol. rewrite Forall_forall in Hlen.
  destruct (lookup_lt_is_Some_2 col i) as [v ->]; [rewrite Hlen by done; lia|].
  simpl. eauto.
Qed.

Lemma each_row_total p a Cs :
  archetype_ok p a → Forall component_id_ok Cs → includes a (required Cs) = true →
  ∃ vs, each_row Cs p a = Ret vs.
Proof.
  intros Hok HCs Hinc. unfold each_row. apply mapR_total.
  intros i Hi%elem_of_seq.
  destruct (row_args_total p a Cs i) as [args ->]; [done..|lia|]. simpl. eauto.
Qed.

Lemma each_row_elem_of Cs p a vs :
  each_row Cs p a = Ret vs →
  ∀ v, v ∈ vs ↔ visit_arch v = p ∧ visit_row v < length (entities a) ∧
                 row_args Cs a (visit_row v) = Ret (visit_args v).
Proof.
  unfold each_row. intros Hrun v. rewrite (mapR_elem_of _ _ _ Hrun). split.
  - intros (i & Hi%elem_of_seq & Hv).
    apply bind_Ret in Hv as (args & Hargs & [= <-]). simpl. split_and!; [done|lia|done].
  - intros (Hp & Hi & Hargs). exists (visit_row v). split; [apply elem_of_seq; lia|].
    rewrite Hargs. simpl. destruct v; simpl in *. by subst.
Qed.

Lemma each_row_rows Cs p a vs :
  each_row Cs p a = Ret vs → visit_row <$> vs = seq 0 (length (entities a)).
Proof.
  unfold each_row. intros Hrun.
  rewrite <- (list_fmap_id (seq 0 _)).
  eapply mapR_fmap; [done|].
  intros i v _ Hv. apply bind_Ret in Hv as (args & _ & [= <-]). done.
Qed.

Lemma visit_archetypes_total {V} (body : N → Archetype → Result (list V)) l :
  (∀ p a, (p, a) ∈ l → ∃ vs, body p a = Ret vs) → ∃ vs, visit_archetypes body l = Ret vs.
Proof.
  induction l as [|[p a] l IH]; intros Hbody; simpl; [eauto|].
  destruct (Hbody p a) as [vs ->]; [by left|].
  destruct IH as [vs' ->]; [intros p' a' Hin; apply Hbody; by right|].
  simpl. eauto.
Qed.

Lemma visit_archetypes_elem_of {V} (body : N → Archetype → Result (list V)) l vs :
  visit_archetypes body l = Ret vs →
  ∀ v, v ∈ vs ↔ ∃ p a vs', (p, a) ∈ l ∧ body p a = Ret vs' ∧ v ∈ vs'.
Proof.
  revert vs. induction l as [|[p a] l IH]; intros vs Hrun v; simpl in Hrun.
  - injection Hrun as <-. split; [by intros ?%elem_of_nil|].
    by intros (? & ? & ? & ?%elem_of_nil & _).
  - apply bind_Ret in Hrun as (vs1 & Hvs1 & Hrun).
    apply bind_Ret in Hrun as (vs2 & Hvs2 & Hrun). injection Hrun as <-.
    rewrite elem_of_app, (IH _ Hvs2). split.
    + intros [Hv|(p' & a' & vs' & Hin & Hb & Hv)].
      * exists p, a, vs1. split; [by left|done].
      * exists p', a', vs'. split; [by right|done].
    + intros (p' & a' & vs' & [[= -> ->]|Hin]%elem_of_cons & Hb & Hv).
      * left. congruence.
      * right. eauto 10.
Qed.

Lemma visit_archetypes_NoDup (body : N → Archetype → Result (list Visit)) l vs :
  NoDup (l.*1) → visit_archetypes body l = Ret vs →
  (∀ p a vs', (p, a) ∈ l → body p a = Ret vs' →
     Forall (λ v, visit_arch v = p) vs' ∧ NoDup (visit_row <$> vs')) →
  NoDup (visit_key <$> vs).
Proof.
  revert vs. induction l as [|[p a] l IH]; intros vs Hnd Hrun Hbody; simpl in Hrun.
  - injection Hrun as <-. constructor.
  - apply bind_Ret in Hrun as (vs1 & Hvs1 & Hrun).
    apply bind_Ret in Hrun as (vs2 & Hvs2 & Hrun). injection Hrun as <-.
    apply NoDup_cons in Hnd as [Hp Hnd].
    destruct (Hbody p a vs1) as [Harch Hrows]; [by left|done|].
    rewrite fmap_app. apply NoDup_app. split_and!.
    + apply (NoDup_fmap_1 snd). by rewrite <- list_fmap_compose.
    + intros k (v1 & -> & Hv1)%list_elem_of_fmap (v2 & Hk & Hv2)%list_elem_of_fmap.
      rewrite Forall_forall in Harch. specialize (Harch v1 Hv1).
      apply (visit_archetypes_elem_of _ _ _ Hvs2) in Hv2 as (p' & a' & vs' & Hin & Hb & Hv2).
      destruct (Hbody p' a' vs') as [Harch' _]; [by right|done|].
      rewrite Forall_forall in Harch'. specialize (Harch' v2 Hv2).
      apply Hp. apply list_elem_of_fmap. exists (p', a'). split; [|done].
      unfold visit_key in Hk. simpl. congruence.
    + apply IH; [done..|]. intros p' a' vs' Hin. apply Hbody. by right.
Qed.

Lemma each_row_NoDup Cs p a vs :
  each_row Cs p a = Ret vs →
  Forall (λ v, visit_arch v = p) vs ∧ NoDup (visit_row <$> vs).
Proof.
  intros Hrun. split.
  - apply Forall_forall. intros v Hv. by apply (each_row_elem_of _ _ _ _ Hrun) in Hv as [? _].
  - rewrite (each_row_rows _ _ _ _ Hrun). apply NoDup_seq.
Qed.

(** An include set and an exclude set that share a component match no
    archetype. *)
Lemma includes_excluded a Cs Es c :
  c ∈ Cs → c ∈ Es → includes a (required Cs) = true →
  excluded a (Key.add_all Key.empty Es) = true.
Proof.
  intros HCs HEs Hinc. pose proof (includes_has _ _ _ Hinc HCs) as Hhas.
  unfold excluded. apply negb_true_iff, bool_decide_eq_false. intros H0.
  assert (Key.has (Key.add_all Key.empty Es) c = true) as HE.
  { rewrite has_add_all, bool_decide_eq_true_2 by done. apply orb_true_r. }
  rewrite has_testbit in *.
  assert (N.testbit (N.land (mask (key a)) (mask (Key.add_all Key.empty Es))) c = true) as Hb.
  { by rewrite N.land_spec, Hhas, HE. }
  by rewrite H0, N.bits_0 in Hb.
Qed.

(** C6.  [query<I>().exclude<E>().each] returns, and visits exactly the rows
    of the archetypes [A] with [(A.key & I) == I] and [(A.key & E) == 0],
    each row once, with the values of the [I] columns at that row; when [I]
    and [E] share a component it visits nothing. *)
Theorem query_each_visits_matching_rows (Cs Es : list N) (w : World) :
  Forall component_id_ok Cs → row_parity w →
  ∃ vs, Query_each Cs Es w = Ret vs ∧
    NoDup (visit_key <$> vs) ∧
    (∀ v, v ∈ vs ↔
       ∃ a, archetypes_ w !! visit_arch v = Some a ∧
            N.land (mask (key a)) (mask (required Cs)) = mask (required Cs) ∧
            N.land (mask (key a)) (mask (Key.add_all Key.empty Es)) = 0%N ∧
            visit_row v < length (entities a) ∧
            row_args Cs a (visit_row v) = Ret (visit_args v)) ∧
    ((∃ c, c ∈ Cs ∧ c ∈ Es) → vs = []).
Proof.
  intros HCs Hinv. unfold Query_each.
  set (body := λ (p : N) (a : Archetype),
         if negb (includes a (required Cs)) then Ret []
         else if excluded a (Key.add_all Key.empty Es) then Ret []
         else each_row Cs p a).
  assert (∀ p a, (p, a) ∈ map_to_list (archetypes_ w) → ∃ vs, body p a = Ret vs) as Htot.
  { intros p a Hin%elem_of_map_to_list. unfold body.
    destruct (includes a (required Cs)) eqn:Hinc; simpl; [|eauto].
    destruct (excluded a _); [eauto|]. eapply each_row_total; [by apply Hinv|done..]. }
  destruct (visit_archetypes_total body _ Htot) as [vs Hvs].
  exists vs. split; [done|]. split_and!.
  - eapply visit_archetypes_NoDup; [apply NoDup_fst_map_to_list|done|].
    intros p a vs' _. unfold body.
    destruct (negb _); [intros [= <-]; split; [done|constructor]|].
    destruct (excluded _ _); [intros [= <-]; split; [done|constructor]|].
    apply each_row_NoDup.
  - intros v. rewrite (visit_archetypes_elem_of _ _ _ Hvs). unfold body. split.
    + intros (p & a & vs' & Hin%elem_of_map_to_list & Hb & Hv).
      destruct (includes a (required Cs)) eqn:Hinc; simpl in Hb;
        [|injection Hb as <-; by apply elem_of_nil in Hv].
      destruct (excluded a _) eqn:Hex; [injection Hb as <-; by apply elem_of_nil in Hv|].
      apply (each_row_elem_of _ _ _ _ Hb) in Hv as (<- & Hrow & Hargs).
      exists a. split_and!; try done.
      * by apply bool_decide_eq_true in Hinc.
      * unfold excluded in Hex. by apply negb_false_iff, bool_decide_eq_true in Hex.
    + intros (a & Ha & Hinc & Hex & Hrow & Hargs).
      destruct (each_row_total (visit_arch v) a Cs) as [vs' Hvs'];
        [by apply Hinv|done|by apply bool_decide_eq_true|].
      exists (visit_arch v), a, vs'. split; [by apply elem_of_map_to_list|].
      unfold includes, excluded.
      rewrite (bool_decide_eq_true_2 _ Hinc), (bool_decide_eq_true_2 _ Hex). simpl.
      split; [done|]. by apply (each_row_elem_of _ _ _ _ Hvs').
  - intros (c & HcC & HcE). destruct vs as [|v vs]; [done|]. exfalso.
    assert (v ∈ v :: vs) as Hv by by left.
    apply (visit_archetypes_elem_of _ _ _ Hvs) in Hv as (p & a & vs' & _ & Hb & Hv).
    unfold body in Hb.
    destruct (includes a (required Cs)) eqn:Hinc; simpl in Hb;
      [|injection Hb as <-; by apply elem_of_nil in Hv].
    rewrite (includes_excluded _ _ _ _ HcC HcE Hinc) in Hb.
    injection Hb as <-. by apply elem_of_nil in Hv.
Qed.

Lemma chunk_rows_each_row Cs p a base :
  mapR (λ c, get_array c a) Cs = Ret base →
  chunk_rows (mkChunk p base (length (entities a))) = each_row Cs p a.
Proof.
  intros Hbase. unfold chunk_rows, each_row. simpl. apply mapR_ext.
  intros i _. by rewrite (row_args_base _ _ _ _ Hbase).
Qed.

Lemma for_each_visit_entity Cs w vs v :
  for_each Cs w = Ret vs → v ∈ vs → is_Some (visit_entity w v).
Proof.
  unfold for_each. intros Hrun Hv.
  apply (visit_archetypes_elem_of _ _ _ Hrun) in Hv
    as (p & a & vs' & Hin%elem_of_map_to_list & Hb & Hv).
  destruct (negb _); [injection Hb as <-; by apply elem_of_nil in Hv|].
  apply (each_row_elem_of _ _ _ _ Hb) in Hv as (Hp & Hrow & _).
  unfold visit_entity. rewrite Hp, Hin. simpl. by apply lookup_lt_is_Some_2.
Qed.

(** C8.  Chunked iteration and per-entity iteration over the same component
    set both return, and the rows the chunk callbacks reach through their
    base pointers, taken in order, are the visits of [for_each]: the same
    rows, each the row of an entity, with the same component values. *)
Theorem chunk_iteration_visits_same_rows (Cs : list N) (w : World) :
  Forall component_id_ok Cs → row_parity w →
  ∃ vs chs,
    for_each Cs w = Ret vs ∧
    for_each_chunk Cs w = Ret chs ∧
    chunks_rows chs = Ret vs ∧
    Forall (λ v, is_Some (visit_entity w v)) vs.
Proof.
  intros HCs Hinv.
  enough (∃ vs chs, for_each Cs w = Ret vs ∧ for_each_chunk Cs w = Ret chs ∧
                    chunks_rows chs = Ret vs) as (vs & chs & Hvs & Hchs & Hrows).
  { exists vs, chs. split_and!; try done. apply Forall_forall.
    intros v Hv. by eapply for_each_visit_entity. }
  unfold for_each, for_each_chunk, row_parity in *.
  assert (∀ p a, (p, a) ∈ map_to_list (archetypes_ w) → archetype_ok p a) as Hok.
  { intros p a Hin%elem_of_map_to_list. by apply Hinv. }
  clear Hinv. induction (map_to_list (archetypes_ w)) as [|[p a] l IH]; simpl.
  { exists [], []. done. }
  destruct IH as (vs & chs & Hvs & Hchs & Hrows);
    [intros p' a' Hin; apply Hok; by right|].
  rewrite Hvs, Hchs. specialize (Hok p a (list_elem_of_here _ _)).
  destruct (includes a (required Cs)) eqn:Hinc; simpl.
  2:{ exists vs, chs. done. }
  destruct (each_row_total p a Cs Hok HCs Hinc) as [vs1 Hvs1].
  rewrite Hvs1. simpl.
  destruct (decide (entities a = [])) as [Hnil|Hne]; simpl.
  - assert (vs1 = []) as ->.
    { unfold each_row in Hvs1. rewrite Hnil in Hvs1. by injection Hvs1. }
    exists vs, chs. done.
  - destruct (columns_present p a Cs Hok HCs Hinc) as (base & Hbase & _).
    rewrite Hbase. simpl.
    exists (vs1 ++ vs), (mkChunk p base (length (entities a)) :: chs).
    simpl. by rewrite (chunk_rows_each_row _ _ _ _ Hbase), Hvs1, Hrows.
Qed.

(** ** When the loops return *)

Lemma for_ids_total_inv {S} (I : S → Prop) (body : N → S → Result S) ids s :
  (∀ c s1, c ∈ ids → I s1 → ∃ s2, body c s1 = Ret s2 ∧ I s2) →
  I s → ∃ s', for_ids ids body s = Ret s'.
Proof.
  revert s. induction ids as [|c ids IH]; intros s Hstep Hs; simpl; [eauto|].
  destruct (Hstep c s) as (s2 & -> & Hs2); [by left|done|]. simpl.
  apply IH; [|done]. intros c' s1 Hc'. apply Hstep. by right.
Qed.

Lemma same_frame_is_Some q p m m' : same_frame q m m' → is_Some (m !! p) → is_Some (m' !! p).
Proof.
  intros HF [a Ha]. destruct (decide (p = q)) as [->|Hp].
  - destruct (same_frame_lookup_1 _ _ _ _ HF Ha) as (a' & -> & _). done.
  - destruct HF as [HF _]. rewrite HF by done. eauto.
Qed.

Lemma ensure_loop_total q Cs m :
  is_Some (m !! q) → ∃ m', for_ids Cs (ensure_array q) m = Ret m'.
Proof.
  intros Hq. apply (for_ids_total_inv (λ m, is_Some (m !! q))); [|done].
  intros c m1 _ [a Ha].
  assert (∃ m2, ensure_array q c m1 = Ret m2) as [m2 Hm2].
  { unfold ensure_array, deref. rewrite Ha. simpl. destruct (components a !! c); eauto. }
  exists m2. split; [done|].
  apply ensure_array_spec in Hm2 as (HF & _). by eapply same_frame_is_Some.
Qed.

Lemma clone_loop_total p q nk m :
  is_Some (m !! q) → is_Some (m !! p) →
  ∃ m', for_ids component_ids (clone_step p q nk) m = Ret m'.
Proof.
  intros Hq Hp.
  apply (for_ids_total_inv (λ m, is_Some (m !! q) ∧ is_Some (m !! p))); [|done].
  intros c m1 _ [[dst Hdst] [src Hsrc]].
  assert (∃ m2, clone_step p q nk c m1 = Ret m2) as [m2 Hm2].
  { unfold clone_step, deref. rewrite Hdst, Hsrc. simpl.
    destruct (Key.has nk c); [|eauto].
    destruct (components dst !! c); [eauto|].
    destruct (Key.has (key src) c); [|eauto]. destruct (components src !! c); eauto. }
  exists m2. split; [done|].
  apply clone_step_spec in Hm2 as (HF & _).
  split; eapply same_frame_is_Some; eauto.
Qed.

Lemma copy_loop_total p q nk idx m dst src :
  m !! q = Some dst → m !! p = Some src →
  (∀ c, (c < 64)%N → Key.has nk c = true →
     ∃ d, col q c m = Some d ∧
          (Key.has (key src) c = true → ∃ sv, col p c m = Some sv ∧ idx < length sv)) →
  ∃ m', for_ids component_ids (copy_step p q nk idx) m = Ret m'.
Proof.
  intros Hdst Hsrc Hpre.
  apply (for_ids_cols_total (λ c m, col q c m) (same_frame q)
           (λ c x, Key.has nk c = true →
              ∃ d, x = Some d ∧
                   (Key.has (key src) c = true →
                    ∃ sv, (if decide (p = q) then x else col p c m) = Some sv ∧
                          idx < length sv)));
    [apply NoDup_component_ids| |].
  - intros c m1 _ HF Hc.
    assert (∃ m2, copy_step p q nk idx c m1 = Ret m2) as [m2 Hm2].
    { unfold copy_step, deref, copy_element.
      destruct (same_frame_lookup_1 _ _ _ _ HF Hdst) as (dst1 & Hdst1 & _ & _).
      assert (∃ src1, m1 !! p = Some src1 ∧ key src1 = key src ∧
                      col p c m1 = if decide (p = q) then col q c m1 else col p c m)
        as (src1 & Hsrc1 & Hkey & Hcol).
      { destruct (decide (p = q)) as [->|Hpq].
        - destruct (same_frame_lookup_1 _ _ _ _ HF Hsrc) as (s1 & ? & ? & _). eauto.
        - exists src. destruct HF as [HF _]. rewrite HF by done. split; [done|].
          split; [done|]. unfold col. by rewrite HF. }
      rewrite Hdst1, Hsrc1. simpl. destruct (Key.has nk c) eqn:Hnk; [|eauto].
      destruct (Hc eq_refl) as (d & Hd & Hsv).
      rewrite (col_lookup _ _ _ dst1) in Hd by done. rewrite Hkey, Hd. simpl.
      destruct (Key.has (key src) c); [|eauto].
      destruct Hsv as (sv & Hsv & Hidx); [done|].
      rewrite <- (col_lookup _ _ _ dst1 Hdst1) in Hd.
      assert (col p c m1 = Some sv) as Hsv' by (rewrite Hcol; by case_decide).
      rewrite (col_lookup _ _ _ src1) in Hsv' by done. rewrite Hsv'. simpl.
      destruct (lookup_lt_is_Some_2 sv idx Hidx) as [v ->]. simpl. eauto. }
    exists m2. split; [done|].
    apply (copy_step_spec _ _ _ _ m) in Hm2 as (HF' & Hother & _); done.
  - intros c Hc%elem_of_component_ids Hnk.
    destruct (Hpre c Hc Hnk) as (d & Hd & Hsv). exists d. split; [done|].
    intros Hhas. destruct (Hsv Hhas) as (sv & Hsv' & Hidx). exists sv. split; [|done].
    case_decide; [by subst|done].
Qed.

Lemma default_loop_total q nk m dst :
  m !! q = Some dst →
  (∀ c, (c < 64)%N → Key.has nk c = true → is_Some (col q c m)) →
  ∃ m', for_ids component_ids (default_step q nk) m = Ret m'.
Proof.
  intros Hdst Hpre.
  apply (for_ids_cols_total (λ c m, col q c m) (same_frame q)
           (λ c x, Key.has nk c = true → is_Some x));
    [apply NoDup_component_ids| |].
  - intros c m1 _ HF Hc.
    assert (∃ m2, default_step q nk c m1 = Ret m2) as [m2 Hm2].
    { unfold default_step, deref.
      destruct (same_frame_lookup_1 _ _ _ _ HF Hdst) as (dst1 & Hdst1 & _ & _).
      rewrite Hdst1. simpl. destruct (Key.has nk c) eqn:Hnk; [|eauto].
      destruct (Hc eq_refl) as [d Hd].
      rewrite (col_lookup _ _ _ dst1) in Hd by done. rewrite Hd. simpl. eauto. }
    exists m2. split; [done|].
    apply default_step_spec in Hm2 as (HF' & Hother & _); done.
  - intros c Hc%elem_of_component_ids. by apply Hpre.
Qed.

Lemma pop_columns_total k index last cs :
  (∀ c, (c < 64)%N → Key.has k c = true →
     ∃ vec, cs !! c = Some vec ∧ last < length vec ∧ index < length vec) →
  ∃ cs', for_ids component_ids (pop_column k index last) cs = Ret cs'.
Proof.
  intros Hpre.
  apply (for_ids_cols_total (λ c cs, cs !! c) (λ _ _, True)
           (λ c x, Key.has k c = true →
              ∃ vec, x = Some vec ∧ last < length vec ∧ index < length vec)
           (PreOrder0 := Build_PreOrder _ (λ _, I) (λ _ _ _ _ _, I)));
    [apply NoDup_component_ids| |].
  - intros c cs1 _ _ Hc.
    assert (∃ cs2, pop_column k index last c cs1 = Ret cs2) as [cs2 Hcs2].
    { unfold pop_column, move_and_pop. destruct (Key.has k c); [|eauto].
      destruct (Hc eq_refl) as (vec & -> & Hlast & Hidx). simpl.
      destruct (lookup_lt_is_Some_2 vec last Hlast) as [v ->]. simpl.
      rewrite decide_True by done. simpl. eauto. }
    exists cs2. split; [done|]. split; [done|].
    by apply pop_column_spec in Hcs2 as [? _].
  - intros c Hc%elem_of_component_ids. by apply Hpre.
Qed.

Lemma remove_from_archetype_total e p index w a el :
  archetypes_ w !! p = Some a → archetype_ok p a →
  index < length (entities a) →
  last (entities a) = Some el →
  N.to_nat (id el) < length (entity_locations_ w) →
  N.to_nat (id e) < length (entity_locations_ w) →
  ∃ w', remove_from_archetype e p index w = Ret w'.
Proof.
  intros Ha Hok Hidx Hlast Hel He. unfold remove_from_archetype, deref, at_.
  rewrite Ha. simpl.
  destruct (length (entities a)) as [|n] eqn:Hlen; [lia|].
  assert (entities a !! n = Some el) as ->.
  { rewrite last_lookup, Hlen in Hlast. done. }
  simpl. unfold assign. rewrite decide_True by lia. simpl.
  destruct (pop_columns_total (key a) index n (components a)) as [cs ->].
  { intros c Hc Hhas. pose proof (archetype_ok_columns _ _ _ Hok Hc Hhas) as Hl.
    destruct (components a !! c) as [vec|]; [|done]. injection Hl as Hl.
    exists vec. split; [done|]. lia. }
  simpl. simpl_world.
  destruct (lookup_lt_is_Some_2 (entity_locations_ w) _ Hel) as [lm ->]. simpl.
  rewrite decide_True by (by rewrite length_insert). simpl. eauto.
Qed.

(** ** A migration between two different archetypes *)

Lemma clone_step_unchanged p q nk c m m' :
  clone_step p q nk c m = Ret m' →
  Key.has nk c = false ∨ is_Some (col q c m) → col q c m' = col q c m.
Proof.
  unfold clone_step. intros Hrun Hc.
  destruct (Key.has nk c) eqn:Hnk; [|by injection Hrun as <-].
  destruct Hc as [?|[d Hd]]; [done|].
  apply bind_Ret in Hrun as (dst & Hdst%checked_Ret & Hrun).
  rewrite (col_lookup _ _ _ dst) in Hd by done. rewrite Hd in Hrun. by injection Hrun as <-.
Qed.

Lemma clone_loop_unchanged p q nk m m' :
  for_ids component_ids (clone_step p q nk) m = Ret m' →
  ∀ c, ¬ (c < 64)%N ∨ Key.has nk c = false ∨ is_Some (col q c m) →
       col q c m' = col q c m.
Proof.
  intros Hrun c Hc.
  eapply (for_ids_cols (λ c m, col q c m) (same_frame q)
            (λ c x x', Key.has nk c = false ∨ is_Some x → x' = x))
    in Hrun as [_ Hcols]; [|apply NoDup_component_ids|].
  - destruct (Hcols c) as [Hin Hout].
    destruct (decide (c < 64)%N) as [Hlt|Hge].
    + apply Hin; [by apply elem_of_component_ids|]. destruct Hc as [?|?]; done.
    + apply Hout. by rewrite elem_of_component_ids.
  - intros c1 s1 s2 _ _ Hstep. pose proof (clone_step_unchanged _ _ _ _ _ _ Hstep) as Hun.
    apply clone_step_spec in Hstep as (HF & Hother & _). done.
Qed.

(** The first steps of [migrate]: the destination archetype is found or
    made, the entity pushed, and (when adding) the new columns ensured. *)
Lemma migrate_prefix Cs e (adding : bool) nk m :
  map_Forall archetype_ok m → (mask nk < 2 ^ 64)%N →
  ∃ m1 a m3,
    let q := mask nk in
    let m2 := <[q := set_entities a (entities a ++ [e])]> m1 in
    get_or_create_archetype nk m = (q, m1) ∧
    m1 !! q = Some a ∧
    a = default (mkArchetype nk [] ∅) (m !! q) ∧
    (∀ p, p ≠ q → m1 !! p = m !! p) ∧
    (if adding then for_ids Cs (ensure_array q) m2 else Ret m2) = Ret m3 ∧
    mid_migration q nk (length (entities a)) m3 ∧
    same_frame q m2 m3 ∧
    (∀ c, made (col q c m2) (col q c m3)) ∧
    (adding = true → ∀ c, c ∈ Cs → is_Some (col q c m3)).
Proof.
  intros Hinv Hnk.
  destruct (get_or_create_archetype nk m) as [q m1] eqn:Hgoc.
  assert (q = mask nk ∧ ∃ a, m1 !! q = Some a ∧ a = default (mkArchetype nk [] ∅) (m !! q) ∧
          ∀ p, p ≠ q → m1 !! p = m !! p) as (-> & a & Ha & Hdef & Hm1).
  { unfold get_or_create_archetype in Hgoc.
    destruct (m !! mask nk) as [a0|] eqn:Hm; injection Hgoc as <- <-.
    - split; [done|]. exists a0. rewrite Hm. done.
    - split; [done|]. eexists. rewrite lookup_insert_eq, Hm. split; [done|].
      split; [done|]. intros p Hp. by rewrite lookup_insert_ne. }
  pose proof (get_or_create_mid nk _ _ _ _ e Hinv Hnk Hgoc Ha) as Hmid.
  set (m2 := <[mask nk := set_entities a (entities a ++ [e])]> m1) in *.
  destruct adding.
  - destruct (ensure_loop_total (mask nk) Cs m2) as [m3 Hm3].
    { unfold m2. rewrite lookup_insert_eq. done. }
    pose proof (ensure_loop_spec _ _ _ _ Hm3) as (HF & Hmade & Hsome).
    exists m1, a, m3. cbn zeta. split_and!; try done.
    by eapply mid_migration_made.
  - exists m1, a, m2. cbn zeta. split_and!; try done.
    intros c. apply made_refl.
Qed.

Lemma migrate_from_archetype Cs e (adding : bool) w loc p a0 el :
  row_parity w → Forall component_id_ok Cs →
  entity_locations_ w !! N.to_nat (id e) = Some loc → arch loc = Some p →
  archetypes_ w !! p = Some a0 → entities a0 !! index loc = Some e →
  last (entities a0) = Some el → N.to_nat (id el) < length (entity_locations_ w) →
  ∀ nk, nk = (if adding then Key.add_all (key a0) Cs else Key.remove_all (key a0) Cs) →
  nk ≠ key a0 →
  ∃ w' calls a' es,
    migrate Cs e adding w = Ret (w', calls) ∧
    generations_ w' = generations_ w ∧
    length (entity_locations_ w') = length (entity_locations_ w) ∧
    entity_locations_ w' !! N.to_nat (id e) = Some (mkLocation (Some (mask nk)) (length es)) ∧
    archetypes_ w' !! mask nk = Some a' ∧
    key a' = nk ∧ entities a' = es ++ [e] ∧
    ∀ c, (c < 64)%N → Key.has nk c = true → Key.has (key a0) c = true →
      ∃ vec vec0 v, components a' !! c = Some vec ∧ vec !! length es = Some v ∧
                    components a0 !! c = Some vec0 ∧ vec0 !! index loc = Some v.
Proof.
  intros Hinv HCs Hloc Harch Ha0 He Hlast Hel nk Hnk Hne.
  pose proof (Hinv _ _ Ha0) as Hok0. destruct Hok0 as (Hk0 & Hb0 & _).
  assert (mask nk < 2 ^ 64)%N as Hnkb.
  { subst nk. destruct adding;
      [apply mask_add_all_bound|apply mask_remove_all_bound]; congruence. }
  assert (mask nk ≠ p) as Hqp.
  { intros Heq. apply Hne. destruct nk, (key a0); simpl in *; congruence. }
  destruct (migrate_prefix Cs e adding nk (archetypes_ w) Hinv Hnkb)
    as (m1 & a & m3 & Hgoc & Ha & _ & Hm1 & Hm3 & Hmid3 & HF3 & Hmade3 & Hens).
  cbn zeta in *. set (q := mask nk) in *.
  set (m2 := <[q := set_entities a (entities a ++ [e])]> m1) in *.
  assert (m2 !! q = Some (set_entities a (entities a ++ [e]))) as Hq2
    by (unfold m2; by rewrite lookup_insert_eq).
  assert (m2 !! p = Some a0) as Hp2.
  { unfold m2. rewrite lookup_insert_ne by done. by rewrite Hm1. }
  assert (m3 !! p = Some a0) as Hp3.
  { destruct HF3 as [HF3 _]. by rewrite HF3. }
  destruct (clone_loop_total p q nk m3) as [m4 Hm4];
    [eapply same_frame_is_Some; [exact HF3|by rewrite Hq2]|by rewrite Hp3|].
  pose proof (clone_loop_spec _ _ _ _ _ Hm4) as (HF4 & Hmade4 & Hcl4).
  pose proof (mid_migration_made _ _ _ _ _ Hmid3 HF4 Hmade4) as Hmid4.
  assert (m4 !! p = Some a0) as Hp4.
  { destruct HF4 as [HF4 _]. by rewrite HF4. }
  pose proof Hmid4 as [_ (a4 & Ha4 & Hk4 & _ & _ & Hlen4 & Hcols4)].
  assert (index loc < length (entities a0)) as Hidx by (by eapply lookup_lt_Some).
  assert (∀ c, (c < 64)%N → Key.has (key a0) c = true →
            ∃ vec0, components a0 !! c = Some vec0 ∧ index loc < length vec0) as Hsrc.
  { intros c Hc Hh0. pose proof (archetype_ok_columns _ _ _ (Hinv _ _ Ha0) Hc Hh0) as Hl.
    destruct (components a0 !! c) as [vec0|]; [|done]. injection Hl as Hl.
    exists vec0. split; [done|lia]. }
  assert (∀ c, (c < 64)%N → Key.has nk c = true →
            ∃ d, col q c m4 = Some d ∧ length d = length (entities a)) as Hpres.
  { intros c Hc Hhas.
    assert (is_Some (col q c m4)) as [d Hd].
    { destruct (Key.has (key a0) c) eqn:Hh0.
      - destruct (Hsrc c Hc Hh0) as (vec0 & Hvec0 & _).
        eapply (Hcl4 c a0); try done; by rewrite Hvec0.
      - destruct adding.
        + rewrite Hnk, has_add_all, Hh0 in Hhas. simpl in Hhas.
          apply bool_decide_eq_true in Hhas.
          eapply made_is_Some; [apply Hmade4|]. by apply Hens.
        + rewrite Hnk, has_remove_all, Hh0 in Hhas by done. done. }
    exists d. split; [done|]. rewrite (col_lookup _ _ _ a4) in Hd by done.
    destruct (Hcols4 c Hc Hhas) as [Hl|[Hn _]]; [|congruence].
    rewrite Hd in Hl. by injection Hl. }
  destruct (copy_loop_total p q nk (index loc) m4 a4 a0) as [m5 Hm5]; [done|done| |].
  { intros c Hc Hhas. destruct (Hpres c Hc Hhas) as (d & Hd & _).
    exists d. split; [done|]. intros Hh0. rewrite (col_lookup _ _ _ a0) by done.
    by apply Hsrc. }
  pose proof (copy_loop_spec _ _ _ _ _ _ Hm5) as (HF5 & Hcols5).
  assert (∀ c, (c < 64)%N → Key.has nk c = true →
            ∃ d v, col q c m4 = Some d ∧ length d = length (entities a) ∧
                   col q c m5 = Some (d ++ [v]) ∧
                   (Key.has (key a0) c = true →
                    ∃ vec0, components a0 !! c = Some vec0 ∧ vec0 !! index loc = Some v))
    as Hcopied.
  { intros c Hc Hhas. destruct (Hcols5 c) as [Hcp _]. specialize (Hcp Hc).
    unfold copied in Hcp. rewrite Hhas, Hp4 in Hcp.
    destruct Hcp as (src & d & [= <-] & Hd & Hcp).
    destruct (Hpres c Hc Hhas) as (d' & Hd' & Hlen). rewrite Hd in Hd'. injection Hd' as <-.
    destruct (Key.has (key a0) c) eqn:Hh0.
    - destruct Hcp as (sv & v & Hsv & Hv & Hd5). exists d, v. split_and!; try done.
      intros _. rewrite decide_False in Hsv by done.
      rewrite (col_lookup _ _ _ a0) in Hsv by done. eauto.
    - exists d, default_value. split_and!; done. }
  assert (map_Forall archetype_ok m5) as Hinv5.
  { eapply mid_migration_finish; [done..|]. intros c Hc Hhas.
    destruct (Hcopied c Hc Hhas) as (d & v & ? & _ & ? & _). eauto. }
  assert (m5 !! p = Some a0) as Hp5.
  { destruct HF5 as [HF5 _]. by rewrite HF5. }
  destruct (same_frame_lookup_1 _ _ _ _ HF5 Ha4) as (a5 & Ha5 & Hk5 & He5).
  assert (entities a4 = entities a ++ [e]) as He4.
  { destruct (same_frame_lookup_1 _ _ _ _ HF3 Hq2) as (a3 & Ha3 & _ & He3).
    destruct (same_frame_lookup_1 _ _ _ _ HF4 Ha3) as (a4' & Ha4' & _ & He4).
    rewrite Ha4 in Ha4'. injection Ha4' as <-. by rewrite He4, He3. }
  assert (N.to_nat (id e) < length (entity_locations_ w)) as Hein by (by eapply lookup_lt_Some).
  destruct (remove_from_archetype_total e p (index loc) (set_archetypes w m5) a0 el)
    as [w1 Hw1]; try done; [by apply Hinv|].
  pose proof (remove_from_archetype_inv _ _ _ _ _ Hw1)
    as (a0' & last & moved & cs & lm & Ha0' & _ & _ & _ & _ & _ & _ & Hw1eq).
  simpl_world.
  assert (length (entity_locations_ w1) = length (entity_locations_ w)) as Hlen1.
  { rewrite Hw1eq. simpl_world. by rewrite !length_insert. }
  exists (set_locations w1 (<[N.to_nat (id e) := mkLocation (Some q) (length (entities a))]>
                              (entity_locations_ w1))).
  eexists _, a5, (entities a). split_and!.
  - unfold migrate, at_, deref. rewrite Hloc. simpl. rewrite Harch, Ha0. simpl.
    rewrite <- Hnk, Hgoc, Ha. simpl. fold m2. rewrite Hm3. simpl. rewrite Hm4. simpl.
    rewrite Hm5. simpl. rewrite Hw1. simpl. unfold assign.
    rewrite decide_True by lia. simpl. reflexivity.
  - rewrite Hw1eq. done.
  - simpl_world. by rewrite length_insert.
  - simpl_world. apply list_lookup_insert_eq. lia.
  - rewrite Hw1eq. simpl_world. rewrite lookup_insert_ne by done. done.
  - congruence.
  - congruence.
  - intros c Hc Hhas Hh0.
    destruct (Hcopied c Hc Hhas) as (d & v & _ & Hlen & Hd5 & Hv).
    destruct (Hv Hh0) as (vec0 & Hvec0 & Hv0).
    rewrite (col_lookup _ _ _ a5) in Hd5 by done.
    exists (d ++ [v]), vec0, v. split_and!; try done.
    rewrite <- Hlen. by apply list_lookup_middle.
Qed.

Lemma migrate_from_nowhere Cs e (adding : bool) w loc :
  row_parity w → Forall component_id_ok Cs →
  entity_locations_ w !! N.to_nat (id e) = Some loc → arch loc = None →
  ∀ nk, nk = (if adding then Key.add_all Key.empty Cs else Key.remove_all Key.empty Cs) →
  ∃ w' calls a' es,
    migrate Cs e adding w = Ret (w', calls) ∧
    generations_ w' = generations_ w ∧
    length (entity_locations_ w') = length (entity_locations_ w) ∧
    entity_locations_ w' !! N.to_nat (id e) = Some (mkLocation (Some (mask nk)) (length es)) ∧
    archetypes_ w' !! mask nk = Some a' ∧
    key a' = nk ∧ entities a' = es ++ [e].
Proof.
  intros Hinv HCs Hloc Harch nk Hnk.
  assert (mask nk < 2 ^ 64)%N as Hnkb.
  { subst nk. destruct adding;
      [apply mask_add_all_bound|apply mask_remove_all_bound]; done. }
  destruct (migrate_prefix Cs e adding nk (archetypes_ w) Hinv Hnkb)
    as (m1 & a & m3 & Hgoc & Ha & _ & Hm1 & Hm3 & Hmid3 & HF3 & Hmade3 & Hens).
  cbn zeta in *. set (q := mask nk) in *.
  set (m2 := <[q := set_entities a (entities a ++ [e])]> m1) in *.
  assert (m2 !! q = Some (set_entities a (entities a ++ [e]))) as Hq2
    by (unfold m2; by rewrite lookup_insert_eq).
  destruct (same_frame_lookup_1 _ _ _ _ HF3 Hq2) as (a3 & Ha3 & Hk3 & He3).
  simpl_world.
  destruct (default_loop_total q nk m3 a3) as [m4 Hm4]; [done| |].
  { intros c Hc Hhas. destruct adding.
    - rewrite Hnk, has_add_all, has_empty in Hhas. simpl in Hhas.
      apply bool_decide_eq_true in Hhas. by apply Hens.
    - rewrite Hnk, has_remove_all, has_empty in Hhas by done. done. }
  pose proof (default_loop_spec _ _ _ _ Hm4) as (HF4 & Hcols4).
  destruct (same_frame_lookup_1 _ _ _ _ HF4 Ha3) as (a4 & Ha4 & Hk4 & He4).
  assert (N.to_nat (id e) < length (entity_locations_ w)) as Hein by (by eapply lookup_lt_Some).
  pose proof Hmid3 as [_ (a3' & Ha3' & Hk3' & _)].
  rewrite Ha3 in Ha3'. injection Ha3' as <-.
  exists (set_locations (set_archetypes w m4)
            (<[N.to_nat (id e) := mkLocation (Some q) (length (entities a))]>
               (entity_locations_ w))).
  eexists _, a4, (entities a). split_and!.
  - unfold migrate, at_, deref. rewrite Hloc. simpl. rewrite Harch. simpl.
    rewrite <- Hnk, Hgoc, Ha. simpl. fold m2. rewrite Hm3. simpl. rewrite Hm4. simpl.
    unfold assign. simpl_world. rewrite decide_True by lia. simpl. reflexivity.
  - done.
  - simpl_world. by rewrite length_insert.
  - simpl_world. by apply list_lookup_insert_eq.
  - done.
  - congruence.
  - congruence.
Qed.

Lemma entity_archetype_Some w e loc p a :
  entity_locations_ w !! N.to_nat (id e) = Some loc → arch loc = Some p →
  archetypes_ w !! p = Some a → entity_archetype w e = Some a.
Proof. intros Hloc Harch Ha. unfold entity_archetype. rewrite Hloc. simpl. by rewrite Harch. Qed.

Lemma entity_archetype_None w e loc :
  entity_locations_ w !! N.to_nat (id e) = Some loc → arch loc = None →
  entity_archetype w e = None.
Proof. intros Hloc Harch. unfold entity_archetype. rewrite Hloc. simpl. by rewrite Harch. Qed.

(** A migration to a key other than the entity's own: it returns, the
    entity ends up in the archetype of the new key, and the components it
    keeps have the values they had. *)
Lemma migrate_moves Cs e (adding : bool) w nk :
  row_parity w → Forall component_id_ok Cs → placed w e →
  nk = (if adding then Key.add_all (entity_key w e) Cs
        else Key.remove_all (entity_key w e) Cs) →
  (is_Some (entity_archetype w e) → nk ≠ entity_key w e) →
  ∃ w' calls,
    migrate Cs e adding w = Ret (w', calls) ∧
    generations_ w' = generations_ w ∧
    placed w' e ∧
    is_Some (entity_archetype w' e) ∧
    entity_key w' e = nk ∧
    ∀ c, (c < 64)%N → Key.has nk c = true → Key.has (entity_key w e) c = true →
         is_Some (cell c e w) ∧ cell c e w' = cell c e w.
Proof.
  intros Hinv HCs (loc & Hloc & Hpl) Hnk Hne.
  destruct (arch loc) as [p|] eqn:Harch.
  - destruct Hpl as (a0 & el & Ha0 & He & Hlast & Hel).
    pose proof (entity_archetype_Some _ _ _ _ _ Hloc Harch Ha0) as Hea.
    unfold entity_key in *. rewrite Hea in *. simpl in Hnk, Hne.
    destruct (migrate_from_archetype Cs e adding w loc p a0 el Hinv HCs Hloc Harch Ha0
                He Hlast Hel nk Hnk) as (w' & calls & a' & es & Hm & Hg & Hlen & Hloc' & Ha' & Hk' & He' & Hcells);
      [by apply Hne|].
    pose proof (entity_archetype_Some _ _ _ _ _ Hloc' eq_refl Ha') as Hea'.
    exists w', calls. split; [done|]. split; [done|]. split; [|split; [|split]].
    + exists (mkLocation (Some (mask nk)) (length es)). split; [done|]. simpl.
      exists a', e. rewrite He'. split_and!; [done| | |].
      * by apply list_lookup_middle.
      * apply last_snoc.
      * rewrite Hlen. by eapply lookup_lt_Some.
    + by rewrite Hea'.
    + by rewrite Hea'.
    + intros c Hc Hhas Hh0. simpl in Hh0.
      destruct (Hcells c Hc Hhas Hh0) as (vec & vec0 & v & Hvec & Hv & Hvec0 & Hv0).
      unfold cell. rewrite Hloc, Hloc', Hea, Hea'. simpl. rewrite Hvec, Hvec0. simpl.
      rewrite Hv, Hv0. done.
  - pose proof (entity_archetype_None _ _ _ Hloc Harch) as Hea.
    unfold entity_key in *. rewrite Hea in *. simpl in Hnk.
    destruct (migrate_from_nowhere Cs e adding w loc Hinv HCs Hloc Harch nk Hnk)
      as (w' & calls & a' & es & Hm & Hg & Hlen & Hloc' & Ha' & Hk' & He').
    pose proof (entity_archetype_Some _ _ _ _ _ Hloc' eq_refl Ha') as Hea'.
    exists w', calls. split; [done|]. split; [done|]. split; [|split; [|split]].
    + exists (mkLocation (Some (mask nk)) (length es)). split; [done|]. simpl.
      exists a', e. rewrite He'. split_and!; [done| | |].
      * by apply list_lookup_middle.
      * apply last_snoc.
      * rewrite Hlen. by eapply lookup_lt_Some.
    + by rewrite Hea'.
    + by rewrite Hea'.
    + intros c Hc Hhas Hh0. simpl in Hh0. by rewrite has_empty in Hh0.
Qed.

(** ** Reading the components of a placed entity *)

Lemma alive_generations e w w' :
  generations_ w' = generations_ w → alive e w' = alive e w.
Proof. unfold alive, alive_unsafe. by intros ->. Qed.

Lemma has_entity_key c e w :
  alive e w = true → placed w e → has c e w = Ret (Key.has (entity_key w e) c).
Proof.
  unfold alive, has, at_, deref. intros -> (loc & Hloc & Hpl). simpl.
  rewrite Hloc. simpl. destruct (arch loc) as [p|] eqn:Harch.
  - destruct Hpl as (a & el & Ha & _). rewrite Ha. simpl.
    unfold entity_key. by rewrite (entity_archetype_Some _ _ _ _ _ Hloc Harch Ha).
  - unfold entity_key. rewrite (entity_archetype_None _ _ _ Hloc Harch).
    cbn [from_option]. by rewrite has_empty.
Qed.

Lemma read_cell c e w :
  alive e w = true → placed w e → row_parity w → (c < 64)%N →
  read c e w = Ret (if Key.has (entity_key w e) c then cell c e w else None).
Proof.
  unfold alive, read, get, get_unsafe, at_, deref. intros -> (loc & Hloc & Hpl) Hinv Hc. simpl.
  rewrite Hloc. simpl. destruct (arch loc) as [p|] eqn:Harch.
  - destruct Hpl as (a & el & Ha & He & _). rewrite Ha. simpl.
    unfold entity_key, cell.
    rewrite (entity_archetype_Some _ _ _ _ _ Hloc Harch Ha), Hloc. simpl.
    destruct (Key.has (key a) c) eqn:Hhas; simpl; [|done].
    pose proof (archetype_ok_columns _ _ _ (Hinv _ _ Ha) Hc Hhas) as Hl.
    unfold get_array. destruct (components a !! c) as [vec|] eqn:Hvec; [|done].
    injection Hl as Hl. simpl.
    destruct (lookup_lt_is_Some_2 vec (index loc)) as [v Hv].
    { rewrite Hl. by eapply lookup_lt_Some. }
    rewrite Hv. simpl. unfold load, deref, get_array. simpl. rewrite Ha. simpl.
    rewrite Hvec. simpl. by rewrite Hv.
  - unfold entity_key. rewrite (entity_archetype_None _ _ _ Hloc Harch).
    cbn [from_option]. by rewrite has_empty.
Qed.

(** Where the directory entry of [e] can be followed, adding and then
    removing a component set keeps the other components: for an alive
    entity [e] in a World with row parity and a component set [S] with at
    least one component new to [e], adding [S] and then removing [S] both
    return, and every component outside [S] reads as it did before the add:
    the same value where [e] has it, absent where not. *)
Lemma add_then_remove_keeps_other_components (S : list N) (e : Entity) (w : World) :
  row_parity w → placed w e → alive e w = true →
  Forall component_id_ok S →
  (∃ c, c ∈ S ∧ Key.has (entity_key w e) c = false) →
  ∃ w1 calls1 w2 calls2,
    add S e w = Ret (w1, calls1) ∧
    remove S e w1 = Ret (w2, calls2) ∧
    ∀ c, component_id_ok c → c ∉ S →
      has c e w2 = has c e w ∧
      read c e w2 = read c e w ∧
      ∃ v, read c e w = Ret v.
Proof.
  intros Hinv Hpl Halive HS (c0 & Hc0 & Hnew). unfold add, remove.
  assert (c0 < 64)%N as Hc0lt by (rewrite Forall_forall in HS; by apply HS).
  set (k0 := entity_key w e) in *.
  destruct (migrate_moves S e true w (Key.add_all k0 S) Hinv HS Hpl eq_refl)
    as (w1 & calls1 & Hm1 & Hg1 & Hpl1 & _ & Hk1 & Hcells1).
  { intros _ Heq. fold k0 in Heq.
    assert (Key.has (Key.add_all k0 S) c0 = true) as Hh.
    { rewrite has_add_all, bool_decide_eq_true_2 by done. apply orb_true_r. }
    rewrite Heq in Hh. congruence. }
  pose proof (migrate_parity _ _ _ _ _ _ HS Hinv Hm1) as Hinv1.
  set (k1 := Key.add_all k0 S) in *.
  destruct (migrate_moves S e false w1 (Key.remove_all k1 S) Hinv1 HS Hpl1)
    as (w2 & calls2 & Hm2 & Hg2 & Hpl2 & _ & Hk2 & Hcells2).
  { by rewrite Hk1. }
  { intros _ Heq. rewrite Hk1 in Heq.
    assert (Key.has (Key.remove_all k1 S) c0 = false) as Hh.
    { rewrite has_remove_all, (bool_decide_eq_true_2 _ Hc0) by done. apply andb_false_r. }
    rewrite Heq in Hh. unfold k1 in Hh.
    rewrite has_add_all, bool_decide_eq_true_2, orb_true_r in Hh by done. done. }
  pose proof (migrate_parity _ _ _ _ _ _ HS Hinv1 Hm2) as Hinv2.
  assert (alive e w1 = true) as Halive1 by (by rewrite (alive_generations _ _ _ Hg1)).
  assert (alive e w2 = true) as Halive2 by (by rewrite (alive_generations _ _ _ Hg2)).
  exists w1, calls1, w2, calls2. split; [done|]. split; [done|].
  intros c Hc HcS.
  assert (Key.has (Key.remove_all k1 S) c = Key.has k0 c) as Hsame.
  { rewrite has_remove_all by done. unfold k1.
    rewrite has_add_all, bool_decide_eq_false_2 by done. simpl.
    by rewrite orb_false_r, andb_true_r. }
  assert (Key.has k1 c = Key.has k0 c) as Hsame1.
  { unfold k1. rewrite has_add_all, bool_decide_eq_false_2 by done. apply orb_false_r. }
  rewrite !has_entity_key, !read_cell by done.
  rewrite Hk2, Hsame. fold k0. split; [done|].
  destruct (Key.has k0 c) eqn:Hh0; [|eauto].
  destruct (Hcells1 c Hc) as [_ Hcell1]; [by rewrite <- Hsame1 in Hh0|done|].
  destruct (Hcells2 c Hc) as [_ Hcell2]; [by rewrite Hsame|by rewrite Hk1, Hsame1|].
  rewrite Hcell2, Hcell1. eauto.
Qed.

(** ** A migration that stays in the same archetype *)

Lemma same_frame_cols_eq q m m' :
  same_frame q m m' → (∀ c, col q c m' = col q c m) → m' = m.
Proof.
  intros [Hothers Hq] Hcols. apply map_eq. intros p.
  destruct (decide (p = q)) as [->|Hp]; [|by apply Hothers].
  inversion Hq as [a a' [Hk He] Ha Ha'|]; [|congruence].
  symmetry in Ha, Ha'. f_equal.
  assert (components a' = components a) as Hc.
  { apply map_eq. intros c. specialize (Hcols c).
    by rewrite (col_lookup _ _ _ a'), (col_lookup _ _ _ a) in Hcols. }
  destruct a, a'; simpl in *. by subst.
Qed.

(** Removing components the entity lacks: the migration goes from the
    archetype of the entity to that same archetype. *)
Lemma remove_absent_migration Cs e w loc p a0 :
  row_parity w →
  entity_locations_ w !! N.to_nat (id e) = Some loc → arch loc = Some p →
  archetypes_ w !! p = Some a0 → entities a0 !! index loc = Some e →
  Key.remove_all (key a0) Cs = key a0 →
  migrate Cs e false w =
    Ret (set_locations w (<[N.to_nat (id e) := mkLocation (Some p) (length (entities a0))]>
                            (entity_locations_ w)),
         mjoin ((λ c, fire_component_removed c e w) <$> Cs)).
Proof.
  intros Hinv Hloc Harch Ha0 He Hrem.
  pose proof (Hinv _ _ Ha0) as Hok0. pose proof Hok0 as (Hk0 & Hb0 & _).
  set (nk := key a0) in *. set (n := length (entities a0)).
  set (a2 := set_entities a0 (entities a0 ++ [e])).
  set (m2 := <[p := a2]> (archetypes_ w)).
  assert (m2 !! p = Some a2) as Hp2 by (unfold m2; by rewrite lookup_insert_eq).
  assert (index loc < n) as Hidx by (by eapply lookup_lt_Some).
  assert (∀ c, (c < 64)%N → Key.has nk c = true →
            ∃ d v, col p c m2 = Some d ∧ length d = n ∧ d !! index loc = Some v) as Hcols2.
  { intros c Hc Hhas. pose proof (archetype_ok_columns _ _ _ Hok0 Hc Hhas) as Hl.
    rewrite (col_lookup _ _ _ a2) by done. simpl.
    destruct (components a0 !! c) as [d|]; [|done]. injection Hl as Hl.
    destruct (lookup_lt_is_Some_2 d (index loc)) as [v Hv]; [lia|]. eauto. }
  (* the clone loop changes nothing *)
  destruct (clone_loop_total p p nk m2) as [m4 Hm4]; [by rewrite Hp2..|].
  assert (m4 = m2) as ->.
  { pose proof (clone_loop_spec _ _ _ _ _ Hm4) as (HF4 & _).
    apply (same_frame_cols_eq p); [done|]. intros c.
    apply (clone_loop_unchanged _ _ _ _ _ Hm4).
    destruct (decide (c < 64)%N) as [Hc|Hc]; [|by left]. right.
    destruct (Key.has nk c) eqn:Hhas; [right|by left].
    destruct (Hcols2 c Hc Hhas) as (d & v & -> & _). done. }
  (* the copy loop appends to each key column a copy of the row of [e] *)
  destruct (copy_loop_total p p nk (index loc) m2 a2 a2) as [m5 Hm5]; [done|done| |].
  { intros c Hc Hhas. destruct (Hcols2 c Hc Hhas) as (d & v & Hd & Hlen & Hv).
    exists d. split; [done|]. intros _. exists d. split; [done|lia]. }
  pose proof (copy_loop_spec _ _ _ _ _ _ Hm5) as (HF5 & Hcols5).
  destruct (same_frame_lookup_1 _ _ _ _ HF5 Hp2) as (a5 & Ha5 & Hk5 & He5).
  simpl in Hk5, He5. fold nk in Hk5.
  assert (∀ c, components a5 !! c =
            if decide ((c < 64)%N ∧ Key.has nk c = true)
            then (λ d, d ++ [default default_value (d !! index loc)]) <$> components a0 !! c
            else components a0 !! c) as Hcomp5.
  { intros c. rewrite <- (col_lookup _ _ _ a5 Ha5).
    destruct (Hcols5 c) as [Hin Hout]. case_decide as Hc.
    - destruct Hc as [Hc Hhas]. specialize (Hin Hc). unfold copied in Hin.
      rewrite Hhas, Hp2 in Hin. destruct Hin as (src & d & [= <-] & Hd & Hin).
      simpl in Hin. fold nk in Hin. rewrite Hhas, decide_True in Hin by done.
      destruct Hin as (sv & v & Hsv & Hv & ->).
      rewrite Hd in Hsv. injection Hsv as <-.
      rewrite (col_lookup _ _ _ a2) in Hd by done. simpl in Hd. rewrite Hd. simpl.
      by rewrite Hv.
    - rewrite <- (col_lookup _ _ (<[p:=a2]> (archetypes_ w)) a2 Hp2).
      destruct (decide (c < 64)%N) as [Hlt|Hge]; [|by apply Hout].
      specialize (Hin Hlt). unfold copied in Hin.
      destruct (Key.has nk c) eqn:Hhas; [by destruct Hc|done]. }
  assert (archetype_ok p a5) as Hok5.
  { split; [by rewrite Hk5|]. split; [done|]. apply Forall_forall.
    intros c Hc%elem_of_component_ids Hhas. rewrite Hk5 in Hhas.
    rewrite Hcomp5, decide_True, He5 by done.
    destruct (Hcols2 c Hc Hhas) as (d & v & Hd & Hlen & _).
    rewrite (col_lookup _ _ _ a2) in Hd by done. simpl in Hd. rewrite Hd. simpl.
    rewrite !length_app. simpl. by rewrite Hlen. }
  assert (N.to_nat (id e) < length (entity_locations_ w)) as Hein by (by eapply lookup_lt_Some).
  destruct (remove_from_archetype_total e p (index loc) (set_archetypes w m5) a5 e)
    as [w1 Hw1]; simpl_world; try done.
  { rewrite He5, length_app. simpl. lia. }
  { rewrite He5. apply last_snoc. }
  pose proof (remove_from_archetype_inv _ _ _ _ _ Hw1)
    as (a5' & last & moved & cs & lm & Ha5' & Hlen5 & Hmoved & _ & Hcs & Hlm & _ & Hw1eq).
  simpl_world. rewrite Ha5 in Ha5'. injection Ha5' as <-.
  rewrite He5, length_app in Hlen5. simpl in Hlen5.
  assert (last = n) as -> by (unfold n; lia).
  rewrite He5, list_lookup_middle in Hmoved by done. injection Hmoved as <-.
  rewrite Hloc in Hlm. injection Hlm as <-.
  assert (cs = components a0) as ->.
  { apply map_eq. intros c. destruct (Hcs c) as [Hin Hout].
    destruct (decide (c < 64)%N) as [Hc|Hc].
    - specialize (Hin Hc). unfold popped in Hin. rewrite Hk5 in Hin.
      rewrite Hcomp5 in Hin. destruct (Key.has nk c) eqn:Hhas.
      + rewrite decide_True in Hin by done.
        destruct (Hcols2 c Hc Hhas) as (d & v & Hd & Hlen & Hv).
        rewrite (col_lookup _ _ _ a2) in Hd by done. simpl in Hd. rewrite Hd in *.
        simpl in Hin. rewrite Hv in Hin. simpl in Hin.
        destruct Hin as (vec & v' & [= <-] & Hv' & _ & ->).
        rewrite list_lookup_middle in Hv' by done. injection Hv' as <-.
        f_equal. by apply push_swap_remove.
      + rewrite decide_False in Hin by (by intros [_ ?]). done.
    - rewrite Hout, Hcomp5, decide_False by (by intros [? _] || done). done. }
  assert (removelast (<[index loc := e]> (entities a5)) = entities a0) as Hes.
  { rewrite He5. by apply push_swap_remove. }
  rewrite Hes, Hk5 in Hw1eq.
  assert (<[p := mkArchetype nk (entities a0) (components a0)]> m5 = archetypes_ w) as Hm.
  { apply map_eq. intros p'. destruct (decide (p' = p)) as [->|Hp'].
    - rewrite lookup_insert_eq, Ha0. f_equal. unfold nk. by destruct a0.
    - rewrite lookup_insert_ne by done. destruct HF5 as [HF5 _]. rewrite HF5 by done.
      unfold m2. by rewrite lookup_insert_ne. }
  rewrite Hm in Hw1eq.
  unfold migrate, at_, deref. rewrite Hloc. simpl. rewrite Harch, Ha0. simpl.
  change (key a0) with nk. rewrite Hrem. unfold get_or_create_archetype.
  rewrite Hk0, Ha0. simpl.
  rewrite Ha0. simpl. fold a2 m2. rewrite Hm4. simpl. rewrite Hm5. simpl.
  rewrite Hw1. simpl. unfold assign. rewrite Hw1eq. simpl_world.
  rewrite decide_True by (by rewrite !length_insert). simpl.
  rewrite !list_insert_insert_eq. unfold set_locations. simpl_world. destruct w; done.
Qed.

(** ** Removing a component the entity does not have *)

Lemma remove_all_absent (k : ArchetypeKey) (Cs : list N) :
  (mask k < 2 ^ 64)%N → Forall (λ c, Key.has k c = false) Cs → Key.remove_all k Cs = k.
Proof.
  intros Hk HCs. apply key_eq; [by apply mask_remove_all_bound|done|].
  intros c Hc. rewrite has_remove_all by done.
  case_bool_decide as Hin; simpl; [|apply andb_true_r].
  rewrite Forall_forall in HCs. rewrite (HCs c Hin). done.
Qed.

(** C2, as the code has it.  For an alive entity [e] that resides in an
    archetype and does not have component [C], [remove<C>(e)] returns and
    leaves the generations, the free list, the hooks and every archetype
    (key, entity column, component columns) as they were; in the directory
    only the entry of [e] is rewritten, with the same archetype; and every
    [on_remove] hook registered for [C] is called once with [e]. *)
Theorem remove_absent_component_keeps_storage (c : N) (e : Entity) (w : World) :
  row_parity w → placed w e → alive e w = true → is_Some (entity_archetype w e) →
  component_id_ok c → has c e w = Ret false →
  ∃ w' loc row,
    remove [c] e w = Ret (w', fire_component_removed c e w) ∧
    generations_ w' = generations_ w ∧
    free_ids_ w' = free_ids_ w ∧
    archetypes_ w' = archetypes_ w ∧
    event_handlers_ w' = event_handlers_ w ∧
    entity_locations_ w !! N.to_nat (id e) = Some loc ∧
    entity_locations_ w' =
      <[N.to_nat (id e) := mkLocation (arch loc) row]> (entity_locations_ w).
Proof.
  intros Hinv Hpl Halive [a0 Hea] Hc Hhas.
  rewrite has_entity_key in Hhas by done. injection Hhas as Hhas.
  destruct Hpl as (loc & Hloc & Hpl).
  unfold entity_key in Hhas. rewrite Hea in Hhas. simpl in Hhas.
  unfold entity_archetype in Hea. rewrite Hloc in Hea. simpl in Hea.
  destruct (arch loc) as [p|] eqn:Harch; [|done]. simpl in Hea.
  destruct Hpl as (a & el & Ha & He & _). rewrite Hea in Ha. injection Ha as <-.
  destruct (Hinv _ _ Hea) as (Hk & Hb & _).
  assert (Key.remove_all (key a0) [c] = key a0) as Hrem.
  { apply remove_all_absent; [by rewrite Hk|]. by apply Forall_singleton. }
  pose proof (remove_absent_migration [c] e w loc p a0 Hinv Hloc Harch Hea He Hrem) as Hm.
  eexists _, loc, (length (entities a0)). unfold remove. rewrite Hm. simpl.
  rewrite app_nil_r, Harch. split; [reflexivity|]. split_and!; done.
Qed.

(** ** Destroying an entity and creating the next *)

Lemma uint32_succ_ne (g : N) : uint32_wrap (g + 1) ≠ g.
Proof.
  unfold uint32_wrap. intros Heq.
  pose proof (N.mod_upper_bound (g + 1) (2 ^ 32)) as Hlt.
  destruct (decide (g + 1 < 2 ^ 32)%N) as [Hs|Hs].
  - rewrite N.mod_small in Heq by done. lia.
  - assert (g + 1 = 2 ^ 32)%N as Hg by lia. rewrite Hg, N.Div0.mod_same in Heq. lia.
Qed.


(** ** Stale handles *)

(** What the guarded operations do with a stale handle. *)
Lemma stale_handle_guarded (c : N) (e : Entity) (w : World) :
  alive e w = false →
  destroy e w = Ret w ∧ get c e w = Ret None ∧ has c e w = Ret false.
Proof.
  unfold alive, destroy, destroy_unsafe, get, get_unsafe, has. by intros ->.
Qed.

(** ** Use of the mutex *)

Lemma lock_guard_touching_held {A} (body : Result A) (a : A) (evs : list Event) :
  lock_guard (touching body) = Ret (a, evs) → held_throughout evs.
Proof.
  unfold lock_guard, touching. intros Hrun.
  apply bind_Ret in Hrun as ([a' evs'] & Hb & Hrun).
  apply bind_Ret in Hb as (a'' & _ & [= <- <-]). injection Hrun as <- <-.
  exists [Access]. split; [done|].
  split; intros [?|?%elem_of_nil]%elem_of_cons; done.
Qed.

Lemma lock_guard_calls_held {A B} (body : Result A) (calls : A → list B) a evs :
  lock_guard (then_calls (touching body) calls) = Ret (a, evs) → held_throughout evs.
Proof.
  unfold lock_guard, then_calls, touching. intros Hrun.
  apply bind_Ret in Hrun as ([a1 evs1] & Hb & Hrun). injection Hrun as <- <-.
  apply bind_Ret in Hb as ([a2 evs2] & Hb & Hrun). injection Hrun as <- <-.
  apply bind_Ret in Hb as (a3 & _ & [= <- <-]).
  exists ([Access] ++ ((λ _, Call) <$> calls a3)). split; [done|].
  split; intros [[?|?%elem_of_nil]%elem_of_cons|(? & ? & _)%list_elem_of_fmap]%elem_of_app;
    done.
Qed.

(** X26.  The operations on entities and components hold the mutex from
    their first event to their last. *)
Lemma guarded_operations_hold_the_mutex (w : World) :
  (∀ r evs, API.create w = Ret (r, evs) → held_throughout evs) ∧
  (∀ e r evs, API.destroy e w = Ret (r, evs) → held_throughout evs) ∧
  (∀ e r evs, API.alive e w = Ret (r, evs) → held_throughout evs) ∧
  (∀ Cs e r evs, API.add Cs e w = Ret (r, evs) → held_throughout evs) ∧
  (∀ c e v r evs, API.add_value c e v w = Ret (r, evs) → held_throughout evs) ∧
  (∀ Cs e r evs, API.remove Cs e w = Ret (r, evs) → held_throughout evs) ∧
  (∀ c e r evs, API.get c e w = Ret (r, evs) → held_throughout evs) ∧
  (∀ c e r evs, API.has c e w = Ret (r, evs) → held_throughout evs) ∧
  (∀ n r evs, API.create_batch n w = Ret (r, evs) → held_throughout evs) ∧
  (∀ es r evs, API.destroy_batch es w = Ret (r, evs) → held_throughout evs).
Proof.
  split_and!; intros;
    first [by eapply lock_guard_touching_held | by eapply lock_guard_calls_held].
Qed.

(** The serial iterations never take it. *)
Lemma then_calls_never_held {A B} (body : Result A) (calls : A → list B) a evs :
  then_calls (touching body) calls = Ret (a, evs) → never_held evs.
Proof.
  unfold then_calls, touching, never_held. intros Hrun.
  apply bind_Ret in Hrun as ([a1 evs1] & Hb & Hrun). injection Hrun as <- <-.
  apply bind_Ret in Hb as (a2 & _ & [= <- <-]).
  intros [[?|?%elem_of_nil]%elem_of_cons|(? & ? & _)%list_elem_of_fmap]%elem_of_app; done.
Qed.

Lemma never_held_not_throughout (evs : list Event) : never_held evs → ¬ held_throughout evs.
Proof. intros Hn (body & -> & _). apply Hn. by left. Qed.

Lemma touching_never_held {A} (body : Result A) a evs :
  touching body = Ret (a, evs) → never_held evs.
Proof.
  unfold touching, never_held. intros Hrun.
  apply bind_Ret in Hrun as (a1 & _ & [= <- <-]).
  intros [?|?%elem_of_nil]%elem_of_cons; done.
Qed.

(** For every World: the serial iterations, the hook registration and the
    counters return without having taken the mutex. *)
Lemma unguarded_operations_never_take_the_mutex (w : World) :
  (∀ Cs r evs, API.for_each Cs w = Ret (r, evs) → never_held evs) ∧
  (∀ Cs r evs, API.for_each_chunk Cs w = Ret (r, evs) → never_held evs) ∧
  (∀ Cs Es r evs, API.Query_each Cs Es w = Ret (r, evs) → never_held evs) ∧
  (∀ c cb r evs, API.on_component_added c cb w = Ret (r, evs) → never_held evs) ∧
  (∀ c cb r evs, API.on_component_removed c cb w = Ret (r, evs) → never_held evs) ∧
  (∀ r evs, API.get_entity_count w = Ret (r, evs) → never_held evs) ∧
  (∀ r evs, API.get_archetype_count w = Ret (r, evs) → never_held evs).
Proof.
  unfold API.for_each, API.for_each_chunk, API.Query_each, API.on_component_added,
    API.on_component_removed, API.get_entity_count, API.get_archetype_count.
  split_and!;
    repeat (lazymatch goal with |- never_held _ => fail | |- _ => intro end);
    first [by eapply then_calls_never_held | by eapply touching_never_held].
Qed.

(** X27.  The parallel iterations hold the mutex while they take their
    snapshot and have released it when the first callback is called. *)
Lemma parallel_iteration_locks_the_snapshot_only (Cs : list N) (w : World) :
  (∀ vs evs, API.parallel_for_each Cs w = Ret (vs, evs) →
     evs = [Acquire; Access; Release] ++ ((λ _, Call) <$> vs)) ∧
  (∀ chs evs, API.parallel_for_each_chunk Cs w = Ret (chs, evs) →
     evs = [Acquire; Access; Release] ++ ((λ _, Call) <$> chs)).
Proof.
  split; intros r evs Hrun;
    [unfold API.parallel_for_each in Hrun|unfold API.parallel_for_each_chunk in Hrun];
    simpl in Hrun; apply bind_Ret in Hrun as (r' & _ & [= <- <-]); done.
Qed.

(** ** The operations on the example worlds *)

Lemma ids_ok_0 : Forall component_id_ok [0%N].
Proof. repeat constructor. Qed.

Lemma ids_ok_1 : Forall component_id_ok [1%N].
Proof. repeat constructor. Qed.

Lemma world_two_parity : row_parity world_two.
Proof. apply (bool_decide_unpack _). vm_compute. exact I. Qed.

Lemma world_hooked_parity : row_parity world_hooked.
Proof. apply (bool_decide_unpack _). vm_compute. exact I. Qed.

Lemma world_two_placed : placed world_two entity1.
Proof.
  exists (mkLocation (Some 1%N) 0). split; [by vm_compute|]. simpl.
  exists (mkArchetype (mkKey 1) [entity1] {[0%N := [6%Z]]}), entity1.
  split_and!; [by vm_compute|done|done|vm_compute; lia].
Qed.

Lemma world_hooked_placed : placed world_hooked entity0.
Proof.
  exists (mkLocation (Some 2%N) 0). split; [by vm_compute|]. simpl.
  exists (mkArchetype (mkKey 2) [entity0] {[1%N := [0%Z]]}), entity0.
  split_and!; [by vm_compute|done|done|vm_compute; lia].
Qed.

(** C1.  The claim fails on the code for [add] (and [remove]): [migrate]
    does not test [alive_unsafe].  On the World where [entity0] was created,
    given component 0 and destroyed, the handle is stale, and [add<C0>] with
    it puts the stale handle into the archetype of component 0 and points
    the directory entry of the freed id at it; with a handle whose id the
    directory does not have, [add] is undefined. *)
Theorem stale_add_changes_the_world :
  run [OpCreate; OpAdd [0%N] entity0; OpDestroy entity0] World_new = Ret world_stale ∧
  alive entity0 world_stale = false ∧
  add [0%N] entity0 world_stale = Ret (world_stale_added, []) ∧
  world_stale_added ≠ world_stale ∧
  free_ids_ world_stale_added = [0%N] ∧
  entity_locations_ world_stale !! 0 = Some (mkLocation None 0) ∧
  entity_locations_ world_stale_added !! 0 = Some (mkLocation (Some 1%N) 0) ∧
  entities <$> archetypes_ world_stale !! 1%N = Some [] ∧
  entities <$> archetypes_ world_stale_added !! 1%N = Some [entity0] ∧
  add [0%N] INVALID_ENTITY World_new = Undefined.
Proof.
  split_and!; by vm_compute.
Qed.

(** C2, as stated, fails: with a remove hook registered for component 0 and
    [entity0] holding only component 1, [remove<C0>(entity0)] calls the hook
    and rewrites the directory entry of the entity. *)
Lemma remove_absent_fires_hook :
  run [OpOnRemoved 0 7; OpCreate; OpAdd [1%N] entity0] World_new = Ret world_hooked ∧
  alive entity0 world_hooked = true ∧
  has 0 entity0 world_hooked = Ret false ∧
  remove [0%N] entity0 world_hooked = Ret (world_hooked_removed, [(7, entity0)]) ∧
  world_hooked_removed ≠ world_hooked.
Proof.
  split_and!; by vm_compute.
Qed.

(** The same on [world_hooked]: the hook for component 0 is called. *)
Lemma remove_absent_component_keeps_storage_witness :
  ∃ w' loc row,
    remove [0%N] entity0 world_hooked = Ret (w', fire_component_removed 0 entity0 world_hooked) ∧
    generations_ w' = generations_ world_hooked ∧
    free_ids_ w' = free_ids_ world_hooked ∧
    archetypes_ w' = archetypes_ world_hooked ∧
    event_handlers_ w' = event_handlers_ world_hooked ∧
    entity_locations_ world_hooked !! N.to_nat (id entity0) = Some loc ∧
    entity_locations_ w' =
      <[N.to_nat (id entity0) := mkLocation (arch loc) row]> (entity_locations_ world_hooked).
Proof.
  apply (remove_absent_component_keeps_storage 0 entity0 world_hooked).
  - exact world_hooked_parity.
  - exact world_hooked_placed.
  - vm_compute. reflexivity.
  - vm_compute. eauto.
  - vm_compute. reflexivity.
  - vm_compute. reflexivity.
Defined.

(** C3.  Directory consistency fails after [add<C>(e)] when [e] already has
    [C], and after the remove of an absent component: the entity stays
    alive and stays in its row, but its directory entry is left pointing one
    past the end of the entity column.  [add<C>(e, value)] on such an entity
    then writes through that entry and is undefined. *)
Theorem add_existing_breaks_directory :
  run ops_one World_new = Ret world_one ∧
  alive entity0 world_one = true ∧
  directory_consistent world_one entity0 ∧
  add [0%N] entity0 world_one = Ret (world_one_readded, []) ∧
  alive entity0 world_one_readded = true ∧
  ¬ directory_consistent world_one_readded entity0 ∧
  entity_locations_ world_one_readded !! 0 = Some (mkLocation (Some 1%N) 1) ∧
  entities <$> archetypes_ world_one_readded !! 1%N = Some [entity0] ∧
  remove [1%N] entity0 world_one = Ret (world_one_removed, []) ∧
  ¬ directory_consistent world_one_removed entity0 ∧
  add_value 0 entity0 5%Z world_one = Undefined.
Proof.
  split_and!; try (by vm_compute); intros H; vm_compute in H; discriminate.
Qed.

(** C7.  The claim fails on the code for an alive entity whose directory
    entry an earlier migration within the same archetype has left one past
    the end (the defect of C3).  [create], [add<C0>(e)], [add<C0>(e)] return
    and reach a World with row parity in which [e] is alive, has component
    0 and does not have component 1, while its directory entry names row 1
    of an archetype of one row.  There [add<C1>(e)] copies row 1 of the
    column of component 0, which is out of range: the add is undefined, so
    adding and then removing component 1 gives no World in which component
    0 could have kept its value.  The same happens after [create],
    [add<C0>(e)] and the remove of the absent component 1. *)
Theorem add_then_remove_undefined_after_readd :
  run [OpCreate; OpAdd [0%N] entity0; OpAdd [0%N] entity0] World_new
    = Ret world_one_readded ∧
  row_parity world_one_readded ∧
  alive entity0 world_one_readded = true ∧
  has 0 entity0 world_one_readded = Ret true ∧
  has 1 entity0 world_one_readded = Ret false ∧
  entity_locations_ world_one_readded !! 0 = Some (mkLocation (Some 1%N) 1) ∧
  (length ∘ entities) <$> archetypes_ world_one_readded !! 1%N = Some 1 ∧
  add [1%N] entity0 world_one_readded = Undefined ∧
  (add [1%N] entity0 world_one_readded ≫= λ r, remove [1%N] entity0 r.1) = Undefined ∧
  run [OpCreate; OpAdd [0%N] entity0; OpRemove [1%N] entity0] World_new
    = Ret world_one_removed ∧
  alive entity0 world_one_removed = true ∧
  has 1 entity0 world_one_removed = Ret false ∧
  add [1%N] entity0 world_one_removed = Undefined.
Proof.
  split; [by vm_compute|]. split; [apply (bool_decide_unpack _); by vm_compute|].
  split_and!; by vm_compute.
Qed.

(** C5.  The claim fails on the code for an entity without components:
    [destroy_unsafe] dereferences the null archetype pointer of its
    directory entry.  Create on the empty World followed by destroy of the
    entity just created is undefined. *)
Theorem destroy_fresh_entity_is_undefined :
  create World_new = Ret (entity0, world_fresh) ∧
  alive entity0 world_fresh = true ∧
  entity_locations_ world_fresh !! 0 = Some (mkLocation None 0) ∧
  destroy entity0 world_fresh = Undefined.
Proof. split_and!; by vm_compute. Qed.

(** C9.  The claim fails on the code for the serial iterations: [for_each],
    [for_each_chunk] and [Query::each] have no [lock_guard].  On the World
    with two entities holding component 0 they read the archetypes and call
    the callback without ever taking the mutex, while [parallel_for_each]
    takes and releases it around its snapshot. *)
Theorem serial_iteration_never_takes_the_mutex :
  run ops_two World_new = Ret world_two ∧
  snd <$> API.for_each [0%N] world_two = Ret [Access; Call; Call] ∧
  snd <$> API.for_each_chunk [0%N] world_two = Ret [Access; Call; Call] ∧
  snd <$> API.Query_each [0%N] [1%N] world_two = Ret [Access; Call] ∧
  never_held [Access; Call; Call] ∧ ¬ held_throughout [Access; Call; Call] ∧
  never_held [Access; Call] ∧ ¬ held_throughout [Access; Call] ∧
  snd <$> API.parallel_for_each [0%N] world_two
    = Ret [Acquire; Access; Release; Call; Call].
Proof.
  split_and!; try (by vm_compute);
    try (apply never_held_not_throughout);
    unfold never_held; intros Hin; repeat (apply elem_of_cons in Hin as [?|Hin]; [done|]);
    by apply elem_of_nil in Hin.
Qed.

(** Row parity of the World reached by [ops_two]. *)
Lemma row_parity_after_every_operation_witness :
  row_parity world_two ∧
  ∀ p a c vec,
    archetypes_ world_two !! p = Some a → component_id_ok c → Key.has (key a) c = true →
    components a !! c = Some vec → length vec = length (entities a).
Proof.
  apply (row_parity_after_every_operation ops_two world_two).
  vm_compute. reflexivity.
Defined.

(** The entity of [world_fresh] has no component 3. *)
Lemma fresh_entity_get_null_has_false_witness :
  get 3 entity0 world_fresh = Ret None ∧ has 3 entity0 world_fresh = Ret false.
Proof.
  apply (fresh_entity_get_null_has_false 3 entity0 world_fresh (mkLocation None 0)).
  - vm_compute. reflexivity.
  - vm_compute. reflexivity.
  - reflexivity.
Defined.

(** The query for component 0 without component 1 on [world_two]. *)
Lemma query_each_visits_matching_rows_witness :
  ∃ vs, Query_each [0%N] [1%N] world_two = Ret vs ∧
    NoDup (visit_key <$> vs) ∧
    (∀ v, v ∈ vs ↔
       ∃ a, archetypes_ world_two !! visit_arch v = Some a ∧
            N.land (mask (key a)) (mask (required [0%N])) = mask (required [0%N]) ∧
            N.land (mask (key a)) (mask (Key.add_all Key.empty [1%N])) = 0%N ∧
            visit_row v < length (entities a) ∧
            row_args [0%N] a (visit_row v) = Ret (visit_args v)) ∧
    ((∃ c, c ∈ [0%N] ∧ c ∈ [1%N]) → vs = []).
Proof.
  apply (query_each_visits_matching_rows [0%N] [1%N] world_two).
  - exact ids_ok_0.
  - exact world_two_parity.
Defined.

(** The two iterations over component 0 on [world_two]. *)
Lemma chunk_iteration_visits_same_rows_witness :
  ∃ vs chs,
    for_each [0%N] world_two = Ret vs ∧
    for_each_chunk [0%N] world_two = Ret chs ∧
    chunks_rows chs = Ret vs ∧
    Forall (λ v, is_Some (visit_entity world_two v)) vs.
Proof.
  apply (chunk_iteration_visits_same_rows [0%N] world_two).
  - exact ids_ok_0.
  - exact world_two_parity.
Defined.

(** Adding and removing component 1 on the second entity of [world_two]. *)
Lemma add_then_remove_keeps_other_components_witness :
  ∃ w1 calls1 w2 calls2,
    add [1%N] entity1 world_two = Ret (w1, calls1) ∧
    remove [1%N] entity1 w1 = Ret (w2, calls2) ∧
    ∀ c, component_id_ok c → c ∉ [1%N] →
      has c entity1 w2 = has c entity1 world_two ∧
      read c entity1 w2 = read c entity1 world_two ∧
      ∃ v, read c entity1 world_two = Ret v.
Proof.
  apply (add_then_remove_keeps_other_components [1%N] entity1 world_two).
  - exact world_two_parity.
  - exact world_two_placed.
  - vm_compute. reflexivity.
  - exact ids_ok_1.
  - exists 1%N. split; [by left|]. vm_compute. reflexivity.
Defined.

(** * Further properties of the code *)

(** ** Archetype keys *)

(** X1.  On a 64-bit key and a component id below 64, [add] and [remove]
    are idempotent, and each undoes the other: removing a bit that [add]
    has set gives the key back when the key did not have it, and adding a
    bit that [remove] has cleared gives the key back when the key had it. *)
Theorem key_add_remove_round_trip (k : ArchetypeKey) (c : N) :
  (mask k < 2 ^ 64)%N → component_id_ok c →
  Key.add (Key.add k c) c = Key.add k c ∧
  Key.remove (Key.remove k c) c = Key.remove k c ∧
  (Key.has k c = false → Key.remove (Key.add k c) c = k) ∧
  (Key.has k c = true → Key.add (Key.remove k c) c = k).
Proof.
  intros Hk Hc.
  assert (Ha := mask_add_bound k c Hk Hc).
  assert (Hr := mask_remove_bound k c Hk).
  split_and!.
  - apply key_eq; [by apply mask_add_bound..|].
    intros c' Hc'. rewrite !has_add. by destruct (Key.has k c'), (bool_decide (c = c')).
  - apply key_eq; [by apply mask_remove_bound..|].
    intros c' Hc'. rewrite !has_remove by done.
    by destruct (Key.has k c'), (bool_decide (c = c')).
  - intros Hno. apply key_eq; [by apply mask_remove_bound|done|].
    intros c' Hc'. rewrite has_remove, has_add by done.
    destruct (decide (c = c')) as [<-|Hne].
    + rewrite Hno, bool_decide_eq_true_2 by done. done.
    + rewrite (bool_decide_eq_false_2 _ Hne). by destruct (Key.has k c').
  - intros Hyes. apply key_eq; [by apply mask_add_bound|done|].
    intros c' Hc'. rewrite has_add, has_remove by done.
    destruct (decide (c = c')) as [<-|Hne].
    + rewrite Hyes, bool_decide_eq_true_2 by done. done.
    + rewrite (bool_decide_eq_false_2 _ Hne). by destruct (Key.has k c').
Qed.

(** On the key with components 0 and 2, for component 1. *)
Lemma key_add_remove_round_trip_witness :
  Key.add (Key.add (mkKey 5) 1) 1 = Key.add (mkKey 5) 1 ∧
  Key.remove (Key.remove (mkKey 5) 1) 1 = Key.remove (mkKey 5) 1 ∧
  (Key.has (mkKey 5) 1 = false → Key.remove (Key.add (mkKey 5) 1) 1 = mkKey 5) ∧
  (Key.has (mkKey 5) 1 = true → Key.add (Key.remove (mkKey 5) 1) 1 = mkKey 5).
Proof. apply key_add_remove_round_trip; [by vm_compute | by vm_compute]. Defined.

(** X2.  The key that [add<Cs...>] and [remove<Cs...>] compute depends on
    the set of the ids only, not on their order or repetition: two lists of
    ids below 64 with the same elements give the same key. *)
Theorem key_of_component_set (k : ArchetypeKey) (Cs Cs' : list N) :
  (mask k < 2 ^ 64)%N → Forall component_id_ok Cs → Forall component_id_ok Cs' →
  (∀ c, c ∈ Cs ↔ c ∈ Cs') →
  Key.add_all k Cs = Key.add_all k Cs' ∧ Key.remove_all k Cs = Key.remove_all k Cs'.
Proof.
  intros Hk HCs HCs' Hsame. split.
  - apply key_eq; [by apply mask_add_all_bound..|].
    intros c Hc. rewrite !has_add_all. f_equal. apply bool_decide_ext, Hsame.
  - apply key_eq; [by apply mask_remove_all_bound..|].
    intros c Hc. rewrite !has_remove_all by done. do 2 f_equal.
    apply bool_decide_ext, Hsame.
Qed.

(** The ids 0, 1, 0 and the ids 1, 0 on the key with component 2. *)
Lemma key_of_component_set_witness :
  Key.add_all (mkKey 4) [0; 1; 0]%N = Key.add_all (mkKey 4) [1; 0]%N ∧
  Key.remove_all (mkKey 4) [0; 1; 0]%N = Key.remove_all (mkKey 4) [1; 0]%N.
Proof.
  apply key_of_component_set.
  - by vm_compute.
  - repeat constructor; by vm_compute.
  - repeat constructor; by vm_compute.
  - intros c. rewrite !elem_of_cons, !elem_of_nil. tauto.
Defined.

(** ** Component columns *)

(** X3.  [move_and_pop] onto row [index] with the last row as the source is
    a swap-remove: it is defined for every row of the column, the column
    gets one row shorter, row [index] takes the value of the last row (when
    it is not the last row itself), and every other remaining row keeps its
    value. *)
Theorem move_and_pop_swap_remove (vec : list Value) (index : nat) :
  index < length vec →
  ∃ vec', move_and_pop vec index (pred (length vec)) = Ret vec' ∧
    length vec' = pred (length vec) ∧
    (index < pred (length vec) → vec' !! index = vec !! pred (length vec)) ∧
    (∀ i, i < pred (length vec) → i ≠ index → vec' !! i = vec !! i).
Proof.
  intros Hi. unfold move_and_pop.
  destruct (lookup_lt_is_Some_2 vec (pred (length vec))) as [v Hv]; [lia|].
  rewrite Hv. simpl. rewrite decide_True by done.
  eexists. split; [done|].
  rewrite length_removelast, length_insert. split; [done|].
  rewrite removelast_take, length_insert. split.
  - intros Hlt. rewrite lookup_take_lt by done.
    by rewrite list_lookup_insert_eq by done.
  - intros i Hlt Hne. rewrite lookup_take_lt by done.
    by rewrite list_lookup_insert_ne by done.
Qed.

(** Row 0 of a column of three rows. *)
Lemma move_and_pop_swap_remove_witness :
  ∃ vec', move_and_pop [5; 6; 7]%Z 0 (pred (length [5; 6; 7]%Z)) = Ret vec' ∧
    length vec' = pred (length [5; 6; 7]%Z) ∧
    (0 < pred (length [5; 6; 7]%Z) → vec' !! 0 = [5; 6; 7]%Z !! pred (length [5; 6; 7]%Z)) ∧
    (∀ i, i < pred (length [5; 6; 7]%Z) → i ≠ 0 → vec' !! i = [5; 6; 7]%Z !! i).
Proof. apply (move_and_pop_swap_remove [5; 6; 7]%Z 0). simpl. lia. Defined.

(** ** Component registry *)

Lemma Registry_new_ok : registry_ok Registry_new.
Proof. split; [by vm_compute|]. intros T i H. simpl in H. by rewrite lookup_empty in H. Qed.

Lemma component_id_spec T r i r' :
  registry_ok r → component_id T r = Ret (i, r') →
  registry_ok r' ∧ assigned r' !! T = Some i ∧
  ∀ T' j, assigned r !! T' = Some j → assigned r' !! T' = Some j.
Proof.
  intros [Hn Hr] H. unfold component_id in H.
  destruct (assigned r !! T) as [i0|] eqn:HT.
  - injection H as <- <-. done.
  - unfold next_component_id in H. case_decide as Hlt; [|done].
    simpl in H. injection H as <- <-. simpl.
    assert (Hw : uint32_wrap (next_id r + 1) = (next_id r + 1)%N).
    { unfold uint32_wrap. apply N.mod_small. unfold RECS_MAX_COMPONENTS in Hlt. lia. }
    rewrite Hw. split_and!.
    + split; simpl; [unfold RECS_MAX_COMPONENTS in *; lia|].
      intros T1 i1 H1. destruct (decide (T1 = T)) as [->|Hne].
      * rewrite lookup_insert_eq in H1. injection H1 as <-. split; [lia|].
        intros T2 H2. destruct (decide (T2 = T)) as [->|Hne2]; [done|].
        rewrite lookup_insert_ne in H2 by done. apply Hr in H2 as [H2 _]. lia.
      * rewrite lookup_insert_ne in H1 by done.
        destruct (Hr _ _ H1) as [Hlt1 Hinj]. split; [lia|].
        intros T2 H2. destruct (decide (T2 = T)) as [->|Hne2].
        -- rewrite lookup_insert_eq in H2. injection H2 as H2. lia.
        -- rewrite lookup_insert_ne in H2 by done. by apply Hinj.
    + by rewrite lookup_insert_eq.
    + intros T' j H'. rewrite lookup_insert_ne; [done|]. intros <-. congruence.
Qed.

Lemma component_ids_of_spec Ts r ids r' :
  registry_ok r → component_ids_of Ts r = Ret (ids, r') →
  registry_ok r' ∧
  (∀ T' j, assigned r !! T' = Some j → assigned r' !! T' = Some j) ∧
  Forall2 (λ T i, assigned r' !! T = Some i) Ts ids.
Proof.
  revert r ids r'. induction Ts as [|T Ts IH]; intros r ids r' Hok H; simpl in H.
  - injection H as <- <-. by split_and!.
  - apply bind_Ret in H as ([i r1] & H1 & H).
    apply bind_Ret in H as ([ids1 r2] & H2 & H). injection H as <- <-.
    destruct (component_id_spec _ _ _ _ Hok H1) as (Hok1 & HT & Hmono1).
    destruct (IH _ _ _ Hok1 H2) as (Hok2 & Hmono2 & Hall).
    split_and!; [done|by eauto|]. constructor; [by apply Hmono2|done].
Qed.

(** X4.  The ids [component_id<T>()] gives out in one program, for the
    types in the order in which they are first asked for: every id is
    below [RECS_MAX_COMPONENTS], a type gets the same id on every call, and
    two different types never get the same id. *)
Theorem component_id_one_per_type (Ts : list nat) (ids : list N) (r : Registry) :
  component_ids_of Ts Registry_new = Ret (ids, r) →
  length ids = length Ts ∧ Forall component_id_ok ids ∧
  ∀ i j T T' c c', Ts !! i = Some T → Ts !! j = Some T' →
    ids !! i = Some c → ids !! j = Some c' → (c = c' ↔ T = T').
Proof.
  intros H. destruct (component_ids_of_spec _ _ _ _ Registry_new_ok H) as ([Hn Hr] & _ & Hall).
  split_and!.
  - symmetry. by eapply Forall2_length.
  - apply Forall_forall. intros c Hc. apply list_elem_of_lookup in Hc as [i Hi].
    destruct (Forall2_lookup_r _ _ _ _ _ Hall Hi) as (T & _ & HT).
    apply Hr in HT as [HT _]. unfold component_id_ok. lia.
  - intros i j T T' c c' HTi HTj Hci Hcj.
    destruct (Forall2_lookup_l _ _ _ _ _ Hall HTi) as (c1 & Hc1 & Ha1).
    destruct (Forall2_lookup_l _ _ _ _ _ Hall HTj) as (c2 & Hc2 & Ha2).
    assert (c1 = c) as -> by congruence. assert (c2 = c') as -> by congruence.
    split.
    + intros <-. apply Hr in Ha1 as [_ Hinj]. symmetry. by apply Hinj.
    + intros <-. congruence.
Qed.

(** Three calls for two types: the third gets the id of the first. *)
Lemma component_id_one_per_type_witness :
  length [0; 1; 0]%N = length [7; 9; 7] ∧ Forall component_id_ok [0; 1; 0]%N ∧
  ∀ i j T T' c c', [7; 9; 7] !! i = Some T → [7; 9; 7] !! j = Some T' →
    [0; 1; 0]%N !! i = Some c → [0; 1; 0]%N !! j = Some c' → (c = c' ↔ T = T').
Proof.
  apply (component_id_one_per_type [7; 9; 7] [0; 1; 0]%N
           (mkRegistry 2 (<[9 := 1%N]> (<[7 := 0%N]> ∅)))).
  reflexivity.
Defined.

Lemma component_ids_of_fresh Ts r :
  NoDup Ts → (∀ T, T ∈ Ts → assigned r !! T = None) →
  (next_id r ≤ RECS_MAX_COMPONENTS)%N →
  if decide (N.to_nat (next_id r) + length Ts ≤ 64)
  then ∃ r', component_ids_of Ts r
             = Ret (N.of_nat <$> seq (N.to_nat (next_id r)) (length Ts), r')
  else component_ids_of Ts r = Undefined.
Proof.
  unfold RECS_MAX_COMPONENTS.
  revert r. induction Ts as [|T Ts IH]; intros r Hnd Hfresh Hn; simpl.
  - rewrite decide_True by lia. by eexists.
  - apply NoDup_cons in Hnd as [HT Hnd].
    unfold component_id. rewrite Hfresh by left.
    unfold next_component_id, RECS_MAX_COMPONENTS.
    destruct (decide (next_id r < 64)%N) as [Hlt|Hge]; simpl.
    + assert (Hw : uint32_wrap (next_id r + 1) = (next_id r + 1)%N).
      { unfold uint32_wrap. apply N.mod_small. lia. }
      rewrite Hw.
      specialize (IH (mkRegistry (next_id r + 1) (<[T := next_id r]> (assigned r))) Hnd).
      simpl in IH.
      replace (N.to_nat (next_id r + 1)) with (S (N.to_nat (next_id r))) in IH by lia.
      rewrite N2Nat.id.
      assert (Hfr : ∀ T0, T0 ∈ Ts → <[T := next_id r]> (assigned r) !! T0 = None).
      { intros T0 H0. rewrite lookup_insert_ne by (by intros <-). apply Hfresh. by right. }
      specialize (IH Hfr ltac:(lia)).
      destruct (decide (N.to_nat (next_id r) + S (length Ts) ≤ 64)).
      * rewrite decide_True in IH by lia. destruct IH as [r' ->]. simpl. by eexists.
      * rewrite decide_False in IH by lia. by rewrite IH.
    + rewrite decide_False by lia. done.
Qed.

(** X5.  Asked for [n] different types, a fresh program gets the ids
    [0, 1, ..., n-1] in the order of the first calls when [n] is at most
    [RECS_MAX_COMPONENTS]; with more types the [assert] of
    [next_component_id] fails. *)
Theorem component_ids_are_dense (Ts : list nat) :
  NoDup Ts →
  if decide (length Ts ≤ 64)
  then ∃ r, component_ids_of Ts Registry_new = Ret (N.of_nat <$> seq 0 (length Ts), r)
  else component_ids_of Ts Registry_new = Undefined.
Proof.
  intros Hnd.
  apply (component_ids_of_fresh Ts Registry_new Hnd); [|by vm_compute].
  intros T _. apply lookup_empty.
Qed.

(** Three types get the ids 0, 1 and 2. *)
Lemma component_ids_are_dense_witness :
  if decide (length [7; 9; 4] ≤ 64)
  then ∃ r, component_ids_of [7; 9; 4] Registry_new
            = Ret (N.of_nat <$> seq 0 (length [7; 9; 4]), r)
  else component_ids_of [7; 9; 4] Registry_new = Undefined.
Proof. apply (component_ids_are_dense [7; 9; 4]). apply (bool_decide_unpack _). by vm_compute. Defined.

(** ** Resources *)

(** X6.  After [set_resource<R>(v)], [get_resource<R>()] returns [v] and
    [has_resource<R>()] is true, and the resources of the other types are
    as they were. *)
Theorem set_resource_then_get (r : N) (v : Value) (rs : gmap N ResourceStorage) :
  get_resource r (set_resource r v rs).1 = Ret v ∧
  has_resource r (set_resource r v rs).1 = true ∧
  ∀ r', r' ≠ r →
    get_resource r' (set_resource r v rs).1 = get_resource r' rs ∧
    has_resource r' (set_resource r v rs).1 = has_resource r' rs.
Proof.
  unfold get_resource, has_resource, set_resource. simpl. split_and!.
  - by rewrite lookup_insert_eq.
  - by rewrite lookup_insert_eq.
  - intros r' Hne. by rewrite lookup_insert_ne.
Qed.

(** X7.  [get_resource<R>()] is defined (its [assert] holds) exactly when
    [has_resource<R>()] returns true. *)
Theorem has_resource_iff_get (r : N) (rs : gmap N ResourceStorage) :
  has_resource r rs = true ↔ ∃ v, get_resource r rs = Ret v.
Proof.
  unfold has_resource, get_resource.
  destruct (rs !! r) as [[[v|] d]|]; simpl.
  - split; [by eexists|]. done.
  - split; [done|by intros [? ?]].
  - split; [done|by intros [? ?]].
Qed.

Lemma destroy_resources_delete (r : N) (rs : gmap N ResourceStorage) :
  destroy_resources rs
  ≡ₚ destroy_resource (default (mkResource None false) (rs !! r))
     ++ destroy_resources (delete r rs).
Proof.
  unfold destroy_resources. destruct (rs !! r) as [res|] eqn:Hr; simpl.
  - by rewrite <-(map_to_list_delete rs r res Hr).
  - by rewrite delete_id.
Qed.

Lemma set_resource_destroyed (r : N) (v : Value) (rs : gmap N ResourceStorage) :
  (set_resource r v rs).2 ++ destroy_resources (set_resource r v rs).1
  ≡ₚ v :: destroy_resources rs.
Proof.
  unfold set_resource. simpl.
  rewrite (destroy_resources_delete r rs).
  rewrite <-(insert_delete_eq rs). unfold destroy_resources at 1.
  rewrite map_to_list_insert by apply lookup_delete_eq. simpl.
  by rewrite Permutation_middle.
Qed.

Lemma set_resources_cons r v sets rs :
  set_resources ((r, v) :: sets) rs
  = ((set_resources sets (set_resource r v rs).1).1,
     (set_resource r v rs).2 ++ (set_resources sets (set_resource r v rs).1).2).
Proof. simpl. by destruct (set_resources sets _). Qed.

(** X8.  Over any sequence of [set_resource] calls on a new World followed
    by the destructor of the World, every value that was set is destroyed
    exactly once: the values destroyed by the replacing calls, together
    with those destroyed by [~World()], are the values set. *)
Theorem every_resource_destroyed_once (sets : list (N * Value)) :
  (set_resources sets ∅).2 ++ destroy_resources (set_resources sets ∅).1 ≡ₚ sets.*2.
Proof.
  assert (Hgen : ∀ rs, (set_resources sets rs).2 ++ destroy_resources (set_resources sets rs).1
                       ≡ₚ sets.*2 ++ destroy_resources rs).
  { induction sets as [|[r v] sets IH]; intros rs; [done|].
    rewrite set_resources_cons. cbn [fst snd fmap list_fmap].
    specialize (IH (set_resource r v rs).1).
    assert (Hs := set_resource_destroyed r v rs).
    destruct (set_resource r v rs) as [rs1 d1]. cbn [fst snd] in *.
    destruct (set_resources sets rs1) as [rs2 d2]. cbn [fst snd] in *.
    rewrite <-(assoc_L (++)), IH.
    rewrite (Permutation_app_comm (snd <$> sets)), (assoc_L (++)), Hs. simpl.
    by rewrite (Permutation_app_comm (snd <$> sets)). }
  rewrite Hgen. unfold destroy_resources. rewrite map_to_list_empty. simpl.
  by rewrite app_nil_r.
Qed.

(** ** Hooks *)

(** X9.  A hook is appended to the list of its component and its kind:
    after [on_component_added<C>(cb)] the add hooks of [C] are called as
    before and then [cb]; likewise for [on_component_removed]; the hooks of
    the other kind and of the other components are as before. *)
Theorem hooks_fire_in_registration_order (c : N) (cb : Callback) (e : Entity) (w : World) :
  fire_component_added c e (on_component_added c cb w)
    = fire_component_added c e w ++ [(cb, e)] ∧
  fire_component_removed c e (on_component_removed c cb w)
    = fire_component_removed c e w ++ [(cb, e)] ∧
  fire_component_removed c e (on_component_added c cb w) = fire_component_removed c e w ∧
  fire_component_added c e (on_component_removed c cb w) = fire_component_added c e w ∧
  ∀ c', c' ≠ c →
    fire_component_added c' e (on_component_added c cb w) = fire_component_added c' e w ∧
    fire_component_removed c' e (on_component_added c cb w) = fire_component_removed c' e w ∧
    fire_component_added c' e (on_component_removed c cb w) = fire_component_added c' e w ∧
    fire_component_removed c' e (on_component_removed c cb w) = fire_component_removed c' e w.
Proof.
  unfold fire_component_added, fire_component_removed, on_component_added,
    on_component_removed. simpl_world.
  split_and!; try (rewrite lookup_insert_eq; destruct (event_handlers_ w !! c); simpl;
                   by rewrite ?fmap_app).
  intros c' Hne. by rewrite !lookup_insert_ne.
Qed.

Lemma migrate_keeps Cs e adding w w' calls :
  migrate Cs e adding w = Ret (w', calls) →
  generations_ w' = generations_ w ∧ free_ids_ w' = free_ids_ w ∧
  event_handlers_ w' = event_handlers_ w ∧
  length (entity_locations_ w') = length (entity_locations_ w).
Proof.
  intros H. apply migrate_inv in H
    as (loc & k0 & q & m1 & a & m3 & w1 & _ & _ & _ & _ & _ & Hw1 & _ & -> & _).
  simpl_world. rewrite length_insert.
  destruct (arch loc) as [p|].
  - destruct Hw1 as (m4 & m5 & _ & _ & Hrem).
    apply remove_from_archetype_inv in Hrem
      as (? & ? & ? & ? & ? & _ & _ & _ & _ & _ & _ & _ & ->).
    simpl_world. by rewrite !length_insert.
  - destruct Hw1 as (m4 & _ & ->). done.
Qed.

(** X10.  When [add<Cs...>(e)] or [remove<Cs...>(e)] returns, the hooks it
    has called are: for each component of [Cs] in order, every hook of that
    kind registered for the component (add hooks for add, remove hooks for
    remove), in the order of registration, each with the argument [e]; and
    the table of hooks is as it was. *)
Theorem migrate_fires_hooks_in_order (Cs : list N) (e : Entity) (adding : bool)
    (w w' : World) (calls : list HookCall) :
  migrate Cs e adding w = Ret (w', calls) →
  event_handlers_ w' = event_handlers_ w ∧
  calls = mjoin ((λ c, (λ cb, (cb, e)) <$>
                   (if adding then on_add else on_remove)
                     (default empty_handlers (event_handlers_ w !! c))) <$> Cs).
Proof.
  intros H. destruct (migrate_keeps _ _ _ _ _ _ H) as (_ & _ & Hh & _).
  split; [done|].
  apply migrate_inv in H as (? & ? & ? & ? & ? & ? & ? & _ & _ & _ & _ & _ & _ & _ & _ & ->).
  unfold fire_component_added, fire_component_removed. rewrite Hh.
  destruct adding; f_equal; apply list_fmap_ext; intros _ c _;
    by destruct (event_handlers_ w !! c).
Qed.

(** The two add hooks of component 0 on [world_hooks], in order. *)
Lemma migrate_fires_hooks_in_order_witness :
  event_handlers_ (result_or (World_new, []) (add [0%N] entity0 world_hooks)).1
    = event_handlers_ world_hooks ∧
  [(3, entity0); (4, entity0)]
    = mjoin ((λ c, (λ cb, (cb, entity0)) <$>
               (if true then on_add else on_remove)
                 (default empty_handlers (event_handlers_ world_hooks !! c))) <$> [0%N]).
Proof.
  apply (migrate_fires_hooks_in_order [0%N] entity0 true world_hooks
           (result_or (World_new, []) (add [0%N] entity0 world_hooks)).1
           [(3, entity0); (4, entity0)]).
  by vm_compute.
Defined.

(** ** Creating entities *)

Lemma create_unsafe_inv w e w' :
  create_unsafe w = Ret (e, w') →
  archetypes_ w' = archetypes_ w ∧ event_handlers_ w' = event_handlers_ w ∧
  generations_ w' !! N.to_nat (id e) = Some (generation e) ∧
  (∀ j g, generations_ w !! j = Some g → generations_ w' !! j = Some g) ∧
  entity_locations_ w' !! N.to_nat (id e) = Some (mkLocation None 0) ∧
  (∀ j loc, entity_locations_ w !! j = Some loc →
     entity_locations_ w' !! j = Some loc ∨
     (j = N.to_nat (id e) ∧ entity_locations_ w' !! j = Some (mkLocation None 0))).
Proof.
  unfold create_unsafe. intros H.
  set (iw := match last (free_ids_ w) with
             | Some i => (i, set_free_ids w (removelast (free_ids_ w)))
             | None => (uint32_wrap (N.of_nat (length (generations_ w))),
                        set_generations w (generations_ w ++ [0%N]))
             end) in H.
  assert (Hiw : archetypes_ iw.2 = archetypes_ w ∧ event_handlers_ iw.2 = event_handlers_ w ∧
                entity_locations_ iw.2 = entity_locations_ w ∧
                ∀ j g, generations_ w !! j = Some g → generations_ iw.2 !! j = Some g).
  { unfold iw. destruct (last (free_ids_ w)); simpl; split_and!; try done.
    intros j g Hj. by apply lookup_app_l_Some. }
  destruct iw as [i w1]. simpl in Hiw. destruct Hiw as (Ha & Hh & Hl & Hg).
  apply bind_Ret in H as (g & Hgi & H). apply checked_Ret in Hgi.
  apply bind_Ret in H as (locs2 & Hassign & H). injection H as <- <-.
  apply assign_Ret in Hassign as [Hlt ->]. simpl_world.
  split_and!; try done.
  - by apply list_lookup_insert_eq.
  - intros j loc Hj. destruct (decide (j = N.to_nat i)) as [->|Hne].
    + right. split; [done|]. by apply list_lookup_insert_eq.
    + left. rewrite list_lookup_insert_ne by done. rewrite Hl in Hlt |- *.
      destruct (decide (length (entity_locations_ w) ≤ N.to_nat i)) as [Hle|Hle]; [|done].
      rewrite length_resize in Hlt. apply lookup_lt_Some in Hj as Hjlt.
      rewrite lookup_resize by lia. done.
Qed.

Lemma create_unsafe_keeps_alive w e w' e' :
  create_unsafe w = Ret (e, w') → alive e' w = true → alive e' w' = true.
Proof.
  intros H. apply create_unsafe_inv in H as (_ & _ & _ & Hg & _).
  unfold alive, alive_unsafe.
  destruct (generations_ w !! N.to_nat (id e')) as [g|] eqn:Hge; [|done].
  by rewrite (Hg _ _ Hge).
Qed.

Lemma get_entity_count_small w :
  length (free_ids_ w) ≤ length (generations_ w) →
  (N.of_nat (length (generations_ w)) < 2 ^ 64)%N →
  get_entity_count w = N.of_nat (length (generations_ w) - length (free_ids_ w)).
Proof.
  intros Hle Hlt. unfold get_entity_count.
  replace (2 ^ 64 + N.of_nat (length (generations_ w)) - N.of_nat (length (free_ids_ w)))%N
    with (N.of_nat (length (generations_ w) - length (free_ids_ w)) + 1 * 2 ^ 64)%N by lia.
  rewrite N.Div0.mod_add. apply N.mod_small. lia.
Qed.

(** X11.  On a World whose free ids are in range and that has room for one
    more id, [create] returns.  The handle it returns is alive and has no
    archetype (no components); the archetypes and the hooks are untouched;
    every handle that was alive stays alive; every other entity keeps its
    directory entry; and the entity count grows by one. *)
Theorem create_gives_alive_entity (w : World) :
  free_ids_ok w →
  ∃ e w', create w = Ret (e, w') ∧
    alive e w' = true ∧
    entity_locations_ w' !! N.to_nat (id e) = Some (mkLocation None 0) ∧
    archetypes_ w' = archetypes_ w ∧
    event_handlers_ w' = event_handlers_ w ∧
    (∀ e', alive e' w = true → alive e' w' = true) ∧
    (∀ e' loc, id e' ≠ id e → entity_locations_ w !! N.to_nat (id e') = Some loc →
       entity_locations_ w' !! N.to_nat (id e') = Some loc) ∧
    get_entity_count w' = (get_entity_count w + 1)%N.
Proof.
  intros (Hfree & Hlen & Hmax).
  assert (Hdef : ∃ e w', create w = Ret (e, w') ∧
            length (generations_ w') - length (free_ids_ w')
            = S (length (generations_ w) - length (free_ids_ w)) ∧
            length (free_ids_ w') ≤ length (generations_ w') ∧
            (N.of_nat (length (generations_ w')) < 2 ^ 32)%N).
  { unfold create, create_unsafe.
    destruct (last (free_ids_ w)) as [i|] eqn:Hlast.
    - apply last_Some in Hlast as [fs Hfs]. rewrite Hfs in Hfree, Hlen |- *.
      rewrite Forall_app, Forall_singleton in Hfree. destruct Hfree as [_ Hi].
      rewrite length_app in Hlen. simpl in Hlen.
      destruct (lookup_lt_is_Some_2 (generations_ w) (N.to_nat i) Hi) as [g Hg].
      unfold at_. simpl_world. rewrite Hg. simpl.
      assert (Hw : N.to_nat (uint32_wrap (i + 1)) = S (N.to_nat i)).
      { unfold uint32_wrap. rewrite N.mod_small by lia. lia. }
      unfold assign. rewrite decide_True.
      + simpl. do 2 eexists. split; [done|]. simpl_world.
        rewrite removelast_app, app_nil_r by done. rewrite length_app. simpl. lia.
      + case_decide; [rewrite length_resize|]; lia.
    - apply last_None in Hlast. rewrite Hlast in *. simpl in *.
      assert (Hw : uint32_wrap (N.of_nat (length (generations_ w)))
                   = N.of_nat (length (generations_ w))).
      { unfold uint32_wrap. apply N.mod_small. lia. }
      rewrite Hw. unfold at_. simpl_world. rewrite Nat2N.id.
      rewrite lookup_app_r, Nat.sub_diag by done. simpl.
      assert (Hw1 : N.to_nat (uint32_wrap (N.of_nat (length (generations_ w)) + 1))
                    = S (length (generations_ w))).
      { unfold uint32_wrap. rewrite N.mod_small by lia. lia. }
      unfold assign. rewrite decide_True.
      + simpl. do 2 eexists. split; [done|]. simpl_world. rewrite Hlast, length_app.
        simpl. lia.
      + case_decide; [rewrite length_resize|]; lia. }
  destruct Hdef as (e & w' & Hc & Hcount & Hlen' & Hmax').
  exists e, w'. split; [done|].
  destruct (create_unsafe_inv _ _ _ Hc) as (Ha & Hh & Hg & Hgs & Hl & Hls).
  split_and!; try done.
  - unfold alive, alive_unsafe. rewrite Hg. by apply bool_decide_eq_true.
  - intros e'. by eapply create_unsafe_keeps_alive.
  - intros e' loc Hne Hloc. destruct (Hls _ _ Hloc) as [?|[Heq _]]; [done|].
    destruct Hne. lia.
  - rewrite !get_entity_count_small by lia. lia.
Qed.

(** A third entity on [world_two]. *)
Lemma create_gives_alive_entity_witness :
  ∃ e w', create world_two = Ret (e, w') ∧
    alive e w' = true ∧
    entity_locations_ w' !! N.to_nat (id e) = Some (mkLocation None 0) ∧
    archetypes_ w' = archetypes_ world_two ∧
    event_handlers_ w' = event_handlers_ world_two ∧
    (∀ e', alive e' world_two = true → alive e' w' = true) ∧
    (∀ e' loc, id e' ≠ id e → entity_locations_ world_two !! N.to_nat (id e') = Some loc →
       entity_locations_ w' !! N.to_nat (id e') = Some loc) ∧
    get_entity_count w' = (get_entity_count world_two + 1)%N.
Proof.
  apply create_gives_alive_entity. apply (bool_decide_unpack _). by vm_compute.
Defined.

(** ** Destroying entities *)

Lemma alive_generation e w :
  alive e w = true ↔ generations_ w !! N.to_nat (id e) = Some (generation e).
Proof.
  unfold alive, alive_unsafe. destruct (generations_ w !! N.to_nat (id e)) as [g|].
  - rewrite bool_decide_eq_true. split; congruence.
  - done.
Qed.

Lemma destroy_unsafe_inv e w w' :
  alive e w = true → destroy_unsafe e w = Ret w' →
  ∃ loc p w0,
    entity_locations_ w !! N.to_nat (id e) = Some loc ∧ arch loc = Some p ∧
    remove_from_archetype e p (index loc) w = Ret w0 ∧
    w' = mkWorld (<[N.to_nat (id e) := uint32_wrap (generation e + 1)]> (generations_ w))
           (free_ids_ w ++ [id e]) (archetypes_ w0) (entity_locations_ w0)
           (event_handlers_ w).
Proof.
  intros Halive H. unfold destroy_unsafe in H.
  change (alive_unsafe e w) with (alive e w) in H. rewrite Halive in H. simpl in H.
  apply alive_generation in Halive.
  apply bind_Ret in H as (loc & Hloc & H). apply checked_Ret in Hloc.
  apply bind_Ret in H as (p & Hp & H). apply checked_Ret in Hp.
  apply bind_Ret in H as (w0 & Hrem & H).
  apply bind_Ret in H as (g & Hg & H). apply checked_Ret in Hg.
  injection H as <-. exists loc, p, w0. split_and!; try done.
  apply remove_from_archetype_inv in Hrem as Hinv.
  destruct Hinv as (? & ? & ? & ? & ? & _ & _ & _ & _ & _ & _ & _ & ->).
  simpl_world. rewrite Halive in Hg. by injection Hg as <-.
Qed.

(** A handle that was destroyed: it is stale and its directory entry has
    no archetype. *)
Lemma destroy_unsafe_gone e w w' :
  alive e w = true → destroy_unsafe e w = Ret w' →
  alive e w' = false ∧ entity_locations_ w' !! N.to_nat (id e) = Some (mkLocation None 0).
Proof.
  intros Halive H.
  destruct (destroy_unsafe_inv _ _ _ Halive H) as (loc & p & w0 & Hloc & Hp & Hrem & ->).
  apply alive_generation in Halive. apply lookup_lt_Some in Halive as Hlt.
  split.
  - unfold alive, alive_unsafe. simpl_world. rewrite list_lookup_insert_eq by done.
    apply bool_decide_eq_false, uint32_succ_ne.
  - apply remove_from_archetype_inv in Hrem
      as (? & ? & ? & ? & ? & _ & _ & _ & _ & _ & _ & Hin & ->).
    simpl_world. apply list_lookup_insert_eq. by rewrite length_insert.
Qed.

Lemma destroy_unsafe_stale e w : alive e w = false → destroy_unsafe e w = Ret w.
Proof.
  intros H. unfold destroy_unsafe. change (alive_unsafe e w) with (alive e w).
  by rewrite H.
Qed.

Lemma destroy_unsafe_keeps_gone e2 e w w' :
  destroy_unsafe e2 w = Ret w' → gone w e → gone w' e.
Proof.
  intros H [He Hnone]. destruct (alive e2 w) eqn:Halive2.
  2:{ rewrite destroy_unsafe_stale in H by done. by injection H as <-. }
  destruct (destroy_unsafe_inv _ _ _ Halive2 H) as (loc & p & w0 & Hloc & Hp & Hrem & ->).
  assert (Hid : id e ≠ id e2).
  { intros Hid. rewrite <-Hid in Hloc. apply Hnone in Hloc. congruence. }
  split.
  - unfold alive, alive_unsafe in *. simpl_world.
    rewrite list_lookup_insert_ne; [done|]. intros Heq. apply Hid. lia.
  - apply remove_from_archetype_inv in Hrem
      as (a & lst & moved & cs & lm & _ & _ & _ & _ & _ & Hlm & _ & ->).
    simpl_world. intros l Hl.
    rewrite list_lookup_insert_ne in Hl by (intros Heq; apply Hid; lia).
    destruct (decide (id moved = id e)) as [Hm|Hm].
    + rewrite Hm in Hl, Hlm. apply lookup_lt_Some in Hlm as Hlt.
      rewrite list_lookup_insert_eq in Hl by done. injection Hl as <-. simpl.
      by apply Hnone.
    + rewrite list_lookup_insert_ne in Hl by (intros Heq; apply Hm; lia). by apply Hnone.
Qed.

Lemma destroy_unsafe_others e2 e w w' :
  destroy_unsafe e2 w = Ret w' →
  alive e w = true ∨ gone w e → alive e w' = true ∨ gone w' e.
Proof.
  intros H [He|He]; [|right; by eapply destroy_unsafe_keeps_gone].
  destruct (alive e2 w) eqn:Halive2.
  2:{ rewrite destroy_unsafe_stale in H by done. injection H as <-. by left. }
  destruct (decide (id e = id e2)) as [Hid|Hid].
  - right. assert (e = e2) as ->.
    { apply alive_generation in He, Halive2. rewrite Hid in He.
      destruct e, e2. simpl in *. congruence. }
    destruct (destroy_unsafe_gone _ _ _ Halive2 H) as [? Hl]. split; [done|].
    intros loc. rewrite Hl. by intros [= <-].
  - left. destruct (destroy_unsafe_inv _ _ _ Halive2 H) as (_ & _ & w0 & _ & _ & _ & ->).
    unfold alive, alive_unsafe in *. simpl_world.
    rewrite list_lookup_insert_ne; [done|]. intros Heq. apply Hid. lia.
Qed.

Lemma destroy_batch_keeps_gone es e w w' :
  destroy_batch es w = Ret w' → gone w e → gone w' e.
Proof.
  revert w. induction es as [|e1 es IH]; intros w H He; simpl in H.
  - by injection H as <-.
  - apply bind_Ret in H as (w1 & H1 & H). apply (IH w1 H).
    by eapply destroy_unsafe_keeps_gone.
Qed.

(** X12.  [destroy_batch] on handles that are all alive, the same handle
    possibly several times: when it returns, every one of them is stale,
    and none of them has an archetype in the directory. *)
Theorem destroy_batch_makes_all_stale (es : list Entity) (w w' : World) :
  Forall (λ e, alive e w = true) es → destroy_batch es w = Ret w' →
  Forall (λ e, alive e w' = false) es ∧ Forall (gone w') es.
Proof.
  intros Halive H.
  assert (Hgen : ∀ es w, Forall (λ e, alive e w = true ∨ gone w e) es →
                         destroy_batch es w = Ret w' → Forall (gone w') es).
  { clear. induction es as [|e es IH]; intros w Hes H; [constructor|].
    simpl in H. apply bind_Ret in H as (w1 & H1 & H).
    apply Forall_cons in Hes as [He Hes]. apply Forall_cons. split.
    - apply (destroy_batch_keeps_gone _ _ _ _ H).
      destruct He as [He|He].
      + destruct (destroy_unsafe_gone _ _ _ He H1) as [? Hl]. split; [done|].
        intros loc. rewrite Hl. by intros [= <-].
      + by eapply destroy_unsafe_keeps_gone.
    - apply (IH w1); [|done]. eapply Forall_impl; [exact Hes|].
      intros e0 H0. by eapply destroy_unsafe_others. }
  assert (Hg : Forall (gone w') es).
  { apply (Hgen es w); [|done]. eapply Forall_impl; [exact Halive|]. by left. }
  split; [|done]. eapply Forall_impl; [exact Hg|]. by intros e [? _].
Qed.

(** Both entities of [world_two], one of them twice. *)
Lemma destroy_batch_makes_all_stale_witness :
  Forall (λ e, alive e (result_or World_new (destroy_batch [entity1; entity0; entity1] world_two))
               = false) [entity1; entity0; entity1] ∧
  Forall (gone (result_or World_new (destroy_batch [entity1; entity0; entity1] world_two)))
    [entity1; entity0; entity1].
Proof.
  apply (destroy_batch_makes_all_stale [entity1; entity0; entity1] world_two).
  - repeat constructor.
  - by vm_compute.
Defined.

(** X13.  For an alive entity that resides in an archetype (in a World with
    row parity and a directory that can be followed for it), [destroy]
    returns.  Afterwards the handle is stale: [get] gives null and [has]
    false for every component, and a second [destroy] changes nothing.  The
    id is put at the end of the free list; no other id changes its
    generation; the hooks are untouched; row parity still holds; and, the
    free list being shorter than the table of ids, the entity count drops
    by one. *)
Theorem destroy_resident_entity (e : Entity) (w : World) :
  row_parity w → placed w e → alive e w = true → is_Some (entity_archetype w e) →
  ∃ w1, destroy e w = Ret w1 ∧
    alive e w1 = false ∧
    destroy e w1 = Ret w1 ∧
    (∀ c, get c e w1 = Ret None ∧ has c e w1 = Ret false) ∧
    free_ids_ w1 = free_ids_ w ++ [id e] ∧
    event_handlers_ w1 = event_handlers_ w ∧
    row_parity w1 ∧
    (∀ e', id e' ≠ id e → alive e' w1 = alive e' w) ∧
    (length (free_ids_ w) < length (generations_ w) →
     (N.of_nat (length (generations_ w)) < 2 ^ 64)%N →
     (get_entity_count w1 + 1 = get_entity_count w)%N).
Proof.
  intros Hinv (loc & Hloc & Hpl) Halive [a0 Hea].
  unfold entity_archetype in Hea. rewrite Hloc in Hea. simpl in Hea.
  destruct (arch loc) as [p|] eqn:Harch; [|done]. simpl in Hea.
  destruct Hpl as (a & el & Ha & He & Hlast & Hel). rewrite Hea in Ha. injection Ha as <-.
  assert (N.to_nat (id e) < length (entity_locations_ w)) as Hein by (by eapply lookup_lt_Some).
  destruct (remove_from_archetype_total e p (index loc) w a0 el) as [w0 Hw0]; try done.
  { by apply Hinv. } { by eapply lookup_lt_Some. }
  apply alive_generation in Halive as Hg.
  assert (Hd : ∃ w1, destroy e w = Ret w1).
  { unfold destroy, destroy_unsafe. change (alive_unsafe e w) with (alive e w).
    rewrite Halive. unfold at_. rewrite Hloc. simpl. rewrite Harch. simpl. rewrite Hw0. simpl.
    apply remove_from_archetype_inv in Hw0
      as (? & ? & ? & ? & ? & _ & _ & _ & _ & _ & _ & _ & ->).
    simpl_world. rewrite Hg. simpl. by eexists. }
  destruct Hd as [w1 Hd]. exists w1. split; [done|].
  destruct (destroy_unsafe_gone _ _ _ Halive Hd) as [Hstale _].
  destruct (destroy_unsafe_inv _ _ _ Halive Hd) as (_ & _ & w0' & _ & _ & _ & Hw1).
  split_and!.
  - done.
  - by apply destroy_unsafe_stale.
  - intros c. unfold get, get_unsafe, has. change (alive_unsafe e w1) with (alive e w1).
    by rewrite Hstale.
  - by rewrite Hw1.
  - by rewrite Hw1.
  - by eapply destroy_unsafe_parity.
  - intros e' Hne. rewrite Hw1. unfold alive, alive_unsafe. simpl_world.
    rewrite list_lookup_insert_ne; [done|]. intros Heq. apply Hne. lia.
  - intros Hlt Hmax. rewrite Hw1.
    rewrite (get_entity_count_small w) by lia.
    rewrite get_entity_count_small; simpl_world; rewrite ?length_insert, ?length_app;
      simpl; lia.
Qed.

(** The second entity of [world_two]. *)
Lemma destroy_resident_entity_witness :
  ∃ w1, destroy entity1 world_two = Ret w1 ∧
    alive entity1 w1 = false ∧
    destroy entity1 w1 = Ret w1 ∧
    (∀ c, get c entity1 w1 = Ret None ∧ has c entity1 w1 = Ret false) ∧
    free_ids_ w1 = free_ids_ world_two ++ [id entity1] ∧
    event_handlers_ w1 = event_handlers_ world_two ∧
    row_parity w1 ∧
    (∀ e', id e' ≠ id entity1 → alive e' w1 = alive e' world_two) ∧
    (length (free_ids_ world_two) < length (generations_ world_two) →
     (N.of_nat (length (generations_ world_two)) < 2 ^ 64)%N →
     (get_entity_count w1 + 1 = get_entity_count world_two)%N).
Proof.
  apply destroy_resident_entity.
  - apply world_two_parity.
  - apply world_two_placed.
  - by vm_compute.
  - vm_compute. by eexists.
Defined.


(** ** What [add] and [remove] leave alone *)

(** X15.  When [add<Cs...>(e)] or [remove<Cs...>(e)] returns, no entity was
    created or destroyed: every handle is alive exactly when it was, the
    free list and the entity count are the same, the directory has the
    same length, and for every handle whose id is not the id of [e] the
    directory names the archetype it named before.  When [e] is alive,
    that covers every alive entity other than [e]. *)
Theorem add_remove_keep_entities (Cs : list N) (e : Entity) (adding : bool)
    (w w' : World) (calls : list HookCall) :
  migrate Cs e adding w = Ret (w', calls) →
  (∀ e', alive e' w' = alive e' w) ∧
  free_ids_ w' = free_ids_ w ∧
  get_entity_count w' = get_entity_count w ∧
  length (entity_locations_ w') = length (entity_locations_ w) ∧
  (∀ e', id e' ≠ id e →
     arch <$> entity_locations_ w' !! N.to_nat (id e')
     = arch <$> entity_locations_ w !! N.to_nat (id e')) ∧
  (alive e w = true →
   ∀ e', alive e' w = true → e' ≠ e →
     arch <$> entity_locations_ w' !! N.to_nat (id e')
     = arch <$> entity_locations_ w !! N.to_nat (id e')).
Proof.
  intros H. destruct (migrate_keeps _ _ _ _ _ _ H) as (Hg & Hf & _ & Hl).
  assert (Hothers : ∀ e', id e' ≠ id e →
            arch <$> entity_locations_ w' !! N.to_nat (id e')
            = arch <$> entity_locations_ w !! N.to_nat (id e')); [|split_and!; try done].
  2:{ intros e'. by apply alive_generations. }
  2:{ unfold get_entity_count. by rewrite Hg, Hf. }
  2:{ intros Halive e' Halive' Hne. apply Hothers. intros Hid. apply Hne.
      unfold alive, alive_unsafe in Halive, Halive'. rewrite Hid in Halive'.
      destruct (generations_ w !! N.to_nat (id e)) as [g|]; [|done].
      apply bool_decide_eq_true in Halive, Halive'.
      destruct e, e'. simpl in *. congruence. }
  - intros e' Hne.
    apply migrate_inv in H
      as (loc & k0 & q & m1 & a & m3 & w1 & _ & _ & _ & _ & _ & Hw1 & _ & -> & _).
    simpl_world. rewrite list_lookup_insert_ne by (intros Heq; apply Hne; lia).
    destruct (arch loc) as [p|].
    + destruct Hw1 as (m4 & m5 & _ & _ & Hrem).
      apply remove_from_archetype_inv in Hrem
        as (a0 & lst & moved & cs & lm & _ & _ & _ & _ & _ & Hlm & _ & ->).
      simpl_world. rewrite list_lookup_insert_ne by (intros Heq; apply Hne; lia).
      destruct (decide (id moved = id e')) as [Hm|Hm].
      * rewrite Hm in Hlm |- *. apply lookup_lt_Some in Hlm as Hlt.
        rewrite list_lookup_insert_eq by done. by rewrite Hlm.
      * by rewrite list_lookup_insert_ne by (intros Heq; apply Hm; lia).
    + destruct Hw1 as (m4 & _ & ->). done.
Qed.

(** Adding component 1 to the second entity of [world_two]. *)
Lemma add_remove_keep_entities_witness :
  (∀ e', alive e' (result_or (World_new, []) (add [1%N] entity1 world_two)).1
         = alive e' world_two) ∧
  free_ids_ (result_or (World_new, []) (add [1%N] entity1 world_two)).1
    = free_ids_ world_two ∧
  get_entity_count (result_or (World_new, []) (add [1%N] entity1 world_two)).1
    = get_entity_count world_two ∧
  length (entity_locations_ (result_or (World_new, []) (add [1%N] entity1 world_two)).1)
    = length (entity_locations_ world_two) ∧
  (∀ e', id e' ≠ id entity1 →
     arch <$> entity_locations_ (result_or (World_new, []) (add [1%N] entity1 world_two)).1
                !! N.to_nat (id e')
     = arch <$> entity_locations_ world_two !! N.to_nat (id e')) ∧
  (alive entity1 world_two = true →
   ∀ e', alive e' world_two = true → e' ≠ entity1 →
     arch <$> entity_locations_ (result_or (World_new, []) (add [1%N] entity1 world_two)).1
                !! N.to_nat (id e')
     = arch <$> entity_locations_ world_two !! N.to_nat (id e')).
Proof.
  apply (add_remove_keep_entities [1%N] entity1 true world_two _ []).
  by vm_compute.
Defined.

(** ** Archetypes are kept *)

Lemma archetypes_kept_refl m : archetypes_kept m m.
Proof. intros p a H. by exists a. Qed.

Lemma archetypes_kept_trans m1 m2 m3 :
  archetypes_kept m1 m2 → archetypes_kept m2 m3 → archetypes_kept m1 m3.
Proof.
  intros H12 H23 p a H. destruct (H12 _ _ H) as (a2 & H2 & Hk2).
  destruct (H23 _ _ H2) as (a3 & H3 & Hk3). exists a3. split; [done|congruence].
Qed.

Lemma archetypes_kept_insert m p a a' :
  m !! p = Some a → key a' = key a → archetypes_kept m (<[p := a']> m).
Proof.
  intros Hp Hk p0 a0 H0. destruct (decide (p0 = p)) as [->|Hne].
  - exists a'. rewrite lookup_insert_eq. split; [done|congruence].
  - exists a0. by rewrite lookup_insert_ne.
Qed.

Lemma archetypes_kept_insert_new m p a' :
  m !! p = None → archetypes_kept m (<[p := a']> m).
Proof.
  intros Hp p0 a0 H0. exists a0. rewrite lookup_insert_ne; [done|]. intros <-. congruence.
Qed.

Lemma same_frame_kept q m m' : same_frame q m m' → archetypes_kept m m'.
Proof.
  intros Hf p a H. destruct (decide (p = q)) as [->|Hne].
  - destruct (same_frame_lookup_1 _ _ _ _ Hf H) as (a' & Ha' & Hk & _). by exists a'.
  - exists a. destruct Hf as [Hf _]. by rewrite Hf.
Qed.

Lemma archetypes_kept_size m m' : archetypes_kept m m' → size m ≤ size m'.
Proof.
  intros H. apply dom_subseteq_size. intros p [a Ha]%elem_of_dom.
  destruct (H _ _ Ha) as (a' & Ha' & _). apply elem_of_dom. by exists a'.
Qed.

Lemma remove_from_archetype_kept e p index w w' :
  remove_from_archetype e p index w = Ret w' →
  archetypes_kept (archetypes_ w) (archetypes_ w').
Proof.
  intros H. apply remove_from_archetype_inv in H
    as (a & ? & ? & ? & ? & Ha & _ & _ & _ & _ & _ & _ & ->).
  simpl_world. by eapply archetypes_kept_insert.
Qed.

Lemma migrate_kept Cs e adding w w' calls :
  migrate Cs e adding w = Ret (w', calls) →
  archetypes_kept (archetypes_ w) (archetypes_ w').
Proof.
  intros H. apply migrate_inv in H
    as (loc & k0 & q & m1 & a & m3 & w1 & _ & _ & Hget & Ha & Hm3 & Hw1 & _ & -> & _).
  simpl_world.
  eapply archetypes_kept_trans; [|eapply archetypes_kept_trans;
    [apply (archetypes_kept_insert m1 q a (set_entities a (entities a ++ [e]))); done|]].
  - unfold get_or_create_archetype in Hget.
    destruct (archetypes_ w !! mask _) eqn:Hm; injection Hget as <- <-.
    + apply archetypes_kept_refl.
    + by apply archetypes_kept_insert_new.
  - eapply archetypes_kept_trans.
    + destruct adding.
      * apply ensure_loop_spec in Hm3 as [Hf _]. by eapply same_frame_kept.
      * injection Hm3 as <-. apply archetypes_kept_refl.
    + destruct (arch loc) as [p|].
      * destruct Hw1 as (m4 & m5 & H4 & H5 & Hrem).
        apply clone_loop_spec in H4 as [H4 _]. apply copy_loop_spec in H5 as [H5 _].
        apply remove_from_archetype_kept in Hrem. simpl_world.
        eapply archetypes_kept_trans; [by eapply same_frame_kept|].
        eapply archetypes_kept_trans; [by eapply same_frame_kept|done].
      * destruct Hw1 as (m4 & H4 & ->). apply default_loop_spec in H4 as [H4 _].
        simpl_world. by eapply same_frame_kept.
Qed.

Lemma destroy_unsafe_kept e w w' :
  destroy_unsafe e w = Ret w' → archetypes_kept (archetypes_ w) (archetypes_ w').
Proof.
  intros H. destruct (alive e w) eqn:Halive.
  - destruct (destroy_unsafe_inv _ _ _ Halive H) as (loc & p & w0 & _ & _ & Hrem & ->).
    simpl_world. by eapply remove_from_archetype_kept.
  - rewrite destroy_unsafe_stale in H by done. injection H as <-.
    apply archetypes_kept_refl.
Qed.

Lemma destroy_batch_kept es w w' :
  destroy_batch es w = Ret w' → archetypes_kept (archetypes_ w) (archetypes_ w').
Proof.
  revert w. induction es as [|e es IH]; intros w H; simpl in H.
  - injection H as <-. apply archetypes_kept_refl.
  - apply bind_Ret in H as (w1 & H1 & H).
    eapply archetypes_kept_trans; [by eapply destroy_unsafe_kept|by apply IH].
Qed.

Lemma store_kept q v w w' :
  store q v w = Ret w' → archetypes_kept (archetypes_ w) (archetypes_ w').
Proof.
  unfold store. intros H.
  apply bind_Ret in H as (a & Ha & H). apply checked_Ret in Ha.
  apply bind_Ret in H as (vec & _ & H). apply bind_Ret in H as (vec' & _ & H).
  injection H as <-. simpl_world. by eapply archetypes_kept_insert.
Qed.

Lemma step_kept op w w' :
  step op w = Ret w' → archetypes_kept (archetypes_ w) (archetypes_ w').
Proof.
  unfold step. case_decide as Hids; [|done]. destruct op; intros H.
  - apply fmap_Ret in H as ([e w1] & H & ->). apply create_unsafe_archetypes in H.
    simpl. rewrite H. apply archetypes_kept_refl.
  - by eapply destroy_unsafe_kept.
  - apply fmap_Ret in H as ([w1 calls] & H & ->). by eapply migrate_kept.
  - apply fmap_Ret in H as ([w1 calls] & H & ->). unfold add_value in H.
    apply bind_Ret in H as ([w2 calls2] & Hm & H). apply migrate_kept in Hm.
    apply bind_Ret in H as ([q|] & _ & H).
    + apply bind_Ret in H as (w3 & Hs & H). injection H as <- <-. simpl.
      eapply archetypes_kept_trans; [done|by eapply store_kept].
    + by injection H as <- <-.
  - apply fmap_Ret in H as ([w1 calls] & H & ->). by eapply migrate_kept.
  - apply fmap_Ret in H as ([es w1] & H & ->). apply create_batch_loop_archetypes in H.
    simpl. rewrite H. apply archetypes_kept_refl.
  - by eapply destroy_batch_kept.
  - injection H as <-. apply archetypes_kept_refl.
  - injection H as <-. apply archetypes_kept_refl.
  - by eapply store_kept.
Qed.

(** X16.  The operations on entities and components erase no archetype:
    over any sequence of [create], [destroy], [add], [add] with a value,
    [remove], [create_batch], [destroy_batch], hook registrations and
    writes through component pointers that returns, every archetype that
    was in [archetypes_] is still there under the same pointer and with the
    same key, also when it has become empty; so [get_archetype_count] does
    not decrease over these operations.  Move construction and move
    assignment of a World are not among them. *)
Theorem entity_operations_erase_no_archetype (ops : list Op) (w w' : World) :
  run ops w = Ret w' →
  archetypes_kept (archetypes_ w) (archetypes_ w') ∧
  get_archetype_count w ≤ get_archetype_count w'.
Proof.
  intros H. assert (Hk : archetypes_kept (archetypes_ w) (archetypes_ w')).
  { revert w H. induction ops as [|op ops IH]; intros w H; simpl in H.
    - injection H as <-. apply archetypes_kept_refl.
    - apply bind_Ret in H as (w1 & H1 & H).
      eapply archetypes_kept_trans; [by eapply step_kept|by apply IH]. }
  split; [done|]. by apply archetypes_kept_size.
Qed.

(** Both archetypes of [world_two] stay when they are emptied. *)
Lemma entity_operations_erase_no_archetype_witness :
  archetypes_kept (archetypes_ world_two)
    (archetypes_ (result_or World_new
                    (run [OpDestroy entity1; OpRemove [0%N] entity0] world_two))) ∧
  get_archetype_count world_two
  ≤ get_archetype_count (result_or World_new
                           (run [OpDestroy entity1; OpRemove [0%N] entity0] world_two)).
Proof.
  apply (entity_operations_erase_no_archetype [OpDestroy entity1; OpRemove [0%N] entity0]).
  by vm_compute.
Defined.

(** ** Batches *)

Lemma create_batch_loop_spec n w es w' :
  create_batch_loop n w = Ret (es, w') →
  length es = n ∧
  Forall (λ e, alive e w' = true ∧
               entity_locations_ w' !! N.to_nat (id e) = Some (mkLocation None 0)) es ∧
  (∀ e, alive e w = true → alive e w' = true) ∧
  (∀ j, entity_locations_ w !! j = Some (mkLocation None 0) →
        entity_locations_ w' !! j = Some (mkLocation None 0)).
Proof.
  revert w es w'. induction n as [|n IH]; intros w es w' H; simpl in H.
  - injection H as <- <-. by split_and!.
  - apply bind_Ret in H as ([e w1] & H1 & H).
    apply bind_Ret in H as ([es1 w2] & H2 & H). injection H as <- <-.
    destruct (IH _ _ _ H2) as (Hlen & Hall & Halive & Hlocs).
    destruct (create_unsafe_inv _ _ _ H1) as (_ & _ & Hg & _ & Hl & Hls).
    split_and!.
    + simpl. by rewrite Hlen.
    + apply Forall_cons. split; [|done]. split.
      * apply Halive. by apply alive_generation.
      * by apply Hlocs.
    + intros e0 H0. apply Halive. by eapply create_unsafe_keeps_alive.
    + intros j Hj. apply Hlocs. by destruct (Hls _ _ Hj) as [?|[_ ?]].
Qed.

Lemma create_batch_loop_distinct n w :
  NoDup (free_ids_ w) →
  Forall (λ i, N.to_nat i < length (generations_ w)) (free_ids_ w) →
  (N.of_nat (length (generations_ w) + n) < 2 ^ 32)%N →
  ∃ es w', create_batch_loop n w = Ret (es, w') ∧
    NoDup (id <$> es) ∧
    Forall (λ e, id e ∈ free_ids_ w ∨ length (generations_ w) ≤ N.to_nat (id e)) es.
Proof.
  revert w. induction n as [|n IH]; intros w Hnd Hfree Hmax; simpl.
  - exists [], w. split_and!; [done|constructor|constructor].
  - unfold create_unsafe.
    destruct (last (free_ids_ w)) as [i|] eqn:Hlast.
    + apply last_Some in Hlast as [fs Hfs]. rewrite Hfs in Hfree, Hnd |- *.
      rewrite Forall_app, Forall_singleton in Hfree. destruct Hfree as [Hfs_ok Hi].
      apply NoDup_app in Hnd as (Hndfs & Hdisj & _).
      destruct (lookup_lt_is_Some_2 (generations_ w) (N.to_nat i) Hi) as [g Hg].
      unfold at_. simpl_world. rewrite Hg. simpl.
      unfold assign. rewrite decide_True.
      2:{ case_decide; [rewrite length_resize|]; [|lia].
          unfold uint32_wrap. rewrite N.mod_small by lia. lia. }
      simpl. rewrite removelast_app, app_nil_r by done.
      match goal with |- context [create_batch_loop n ?w1] =>
        destruct (IH w1) as (es & w' & Hes & Hnd' & Hall) end; simpl_world; try done; [lia|].
      rewrite Hes. simpl. exists (mkEntity i g :: es), w'. split_and!; [done| |].
      * rewrite fmap_cons. apply NoDup_cons. split; [|done]. simpl.
        intros [e [He Hin]]%list_elem_of_fmap.
        rewrite Forall_forall in Hall. destruct (Hall _ Hin) as [Hf|Hge].
        -- apply (Hdisj i); [by rewrite He|]. by apply list_elem_of_singleton.
        -- rewrite <-He in Hge. lia.
      * apply Forall_cons. split.
        -- left. simpl. apply elem_of_app. right. by apply list_elem_of_singleton.
        -- eapply Forall_impl; [exact Hall|]. intros e [Hf|Hge]; [|by right].
           left. apply elem_of_app. by left.
    + apply last_None in Hlast. rewrite Hlast in *.
      assert (Hw : uint32_wrap (N.of_nat (length (generations_ w)))
                   = N.of_nat (length (generations_ w))).
      { unfold uint32_wrap. apply N.mod_small. lia. }
      rewrite Hw. unfold at_. simpl_world. rewrite Nat2N.id.
      rewrite lookup_app_r, Nat.sub_diag by done. simpl.
      unfold assign. rewrite decide_True.
      2:{ case_decide; [rewrite length_resize|]; [|lia].
          unfold uint32_wrap. rewrite N.mod_small by lia. lia. }
      simpl.
      match goal with |- context [create_batch_loop n ?w1] =>
        destruct (IH w1) as (es & w' & Hes & Hnd' & Hall) end; simpl_world.
      { by rewrite Hlast. } { by rewrite Hlast. } { rewrite length_app. simpl. lia. }
      rewrite Hes. simpl.
      exists (mkEntity (N.of_nat (length (generations_ w))) 0 :: es), w'.
      rewrite Hlast, length_app in Hall. simpl in Hall.
      split_and!; [done| |].
      * rewrite fmap_cons. apply NoDup_cons. split; [|done]. simpl.
        intros [e [He Hin]]%list_elem_of_fmap.
        rewrite Forall_forall in Hall. destruct (Hall _ Hin) as [Hf|Hge].
        -- by apply elem_of_nil in Hf.
        -- rewrite <-He in Hge. lia.
      * apply Forall_cons. split; [right; simpl; lia|].
        eapply Forall_impl; [exact Hall|]. intros e [Hf|Hge]; [by apply elem_of_nil in Hf|].
        right. lia.
Qed.

(** X17.  On a World whose free ids are distinct and in range and that has
    room for [count] more ids, [create_batch(count)] returns [count]
    handles with pairwise different ids.  All of them are alive afterwards
    and have no archetype; the archetypes are untouched, and every handle
    that was alive stays alive. *)
Theorem create_batch_gives_distinct_alive_handles (count : nat) (w : World) :
  NoDup (free_ids_ w) →
  Forall (λ i, N.to_nat i < length (generations_ w)) (free_ids_ w) →
  (N.of_nat (length (generations_ w) + count) < 2 ^ 32)%N →
  ∃ es w', create_batch count w = Ret (es, w') ∧
    length es = count ∧
    NoDup (id <$> es) ∧
    Forall (λ e, alive e w' = true ∧
                 entity_locations_ w' !! N.to_nat (id e) = Some (mkLocation None 0)) es ∧
    archetypes_ w' = archetypes_ w ∧
    (∀ e, alive e w = true → alive e w' = true).
Proof.
  intros Hnd Hfree Hmax.
  destruct (create_batch_loop_distinct count w Hnd Hfree Hmax) as (es & w' & H & Hd & _).
  exists es, w'. split; [done|].
  destruct (create_batch_loop_spec _ _ _ _ H) as (Hlen & Hall & Halive & _).
  split_and!; try done. by eapply create_batch_loop_archetypes.
Qed.

(** Three handles on [world_stale], the first with the free id. *)
Lemma create_batch_gives_distinct_alive_handles_witness :
  ∃ es w', create_batch 3 world_stale = Ret (es, w') ∧
    length es = 3 ∧
    NoDup (id <$> es) ∧
    Forall (λ e, alive e w' = true ∧
                 entity_locations_ w' !! N.to_nat (id e) = Some (mkLocation None 0)) es ∧
    archetypes_ w' = archetypes_ world_stale ∧
    (∀ e, alive e world_stale = true → alive e w' = true).
Proof.
  apply create_batch_gives_distinct_alive_handles.
  - apply (bool_decide_unpack _). by vm_compute.
  - apply (bool_decide_unpack _). by vm_compute.
  - by vm_compute.
Defined.

(** ** Hooks and the mutex *)

(** X18.  [add<Cs...>] and [remove<Cs...>] call the hooks while they hold
    the World mutex: the mutex is taken, the World is changed, every hook
    of the operation is called, and only then is the mutex released. *)
Theorem hooks_are_called_with_the_mutex_held (Cs : list N) (e : Entity) (w : World) :
  (∀ w' calls evs, API.add Cs e w = Ret ((w', calls), evs) →
     evs = [Acquire; Access] ++ ((λ _, Call) <$> calls) ++ [Release]) ∧
  (∀ w' calls evs, API.remove Cs e w = Ret ((w', calls), evs) →
     evs = [Acquire; Access] ++ ((λ _, Call) <$> calls) ++ [Release]).
Proof.
  split; intros w' calls evs H; unfold API.add, API.remove, lock_guard, then_calls, touching in H;
    apply bind_Ret in H as ([a1 evs1] & Hb & H); injection H as -> <-;
    apply bind_Ret in Hb as ([a2 evs2] & Hb & H); injection H as -> <-;
    apply bind_Ret in Hb as (a3 & _ & H); injection H as -> <-; done.
Qed.

(** ** Iteration *)

Lemma bind_ret_id {A} (m : Result (list A)) : (m ≫= λ vs, Ret ([] ++ vs)) = m.
Proof. by destruct m. Qed.

Lemma dispatch_snapshot Cs w (l : list (N * Archetype)) :
  (∀ p a, (p, a) ∈ l → archetypes_ w !! p = Some a) →
  dispatch Cs
    (omap (λ '(p, a),
             if includes a (required Cs)
             then (if decide (0 < length (entities a)) then Some (p, length (entities a))
                   else None)
             else None) l) w
  = visit_archetypes
      (λ p a, if negb (includes a (required Cs)) then Ret [] else each_row Cs p a) l.
Proof.
  induction l as [|[p a] l IH]; intros Hl; [done|].
  assert (IH' := IH (λ p0 a0 H0, Hl p0 a0 (list_elem_of_further _ _ _ H0))). clear IH.
  cbn [omap list_omap visit_archetypes].
  destruct (includes a (required Cs)); cbn [negb].
  - destruct (decide (0 < length (entities a))) as [Hpos|Hzero].
    + cbn [dispatch]. unfold deref. rewrite (Hl p a) by left. cbn [checked].
      simpl. unfold each_row. by rewrite IH'.
    + unfold each_row. replace (length (entities a)) with 0 by lia. simpl.
      rewrite IH'. by rewrite bind_ret_id.
  - simpl. rewrite IH'. by rewrite bind_ret_id.
Qed.

(** X19.  [parallel_for_each<Cs...>] calls [fn] on the rows on which
    [for_each<Cs...>] calls it, with the same arguments: the snapshot it
    takes under the lock holds the matching, non-empty archetypes with
    their row counts, and its dispatch goes through all of their rows. *)
Theorem parallel_for_each_visits_the_rows_of_for_each (Cs : list N) (w : World) :
  dispatch Cs (work_items Cs w) w = for_each Cs w ∧
  fst <$> API.parallel_for_each Cs w = for_each Cs w.
Proof.
  assert (Hd : dispatch Cs (work_items Cs w) w = for_each Cs w).
  { unfold work_items, for_each. apply dispatch_snapshot.
    intros p a H. by apply elem_of_map_to_list in H. }
  split; [done|].
  unfold API.parallel_for_each, lock_guard, touching. simpl. rewrite Hd.
  by destruct (for_each Cs w).
Qed.

Lemma filter_all {A} (P : A → Prop) `{∀ x, Decision (P x)} (l : list A) :
  Forall P l → filter P l = l.
Proof.
  induction 1 as [|x l Hx _ IH]; [done|]. rewrite filter_cons_True by done. by rewrite IH.
Qed.

Lemma filter_none {A} (P : A → Prop) `{∀ x, Decision (P x)} (l : list A) :
  Forall (λ x, ¬ P x) l → filter P l = [].
Proof.
  induction 1 as [|x l Hx _ IH]; [done|]. by rewrite filter_cons_False.
Qed.

Lemma query_filters_for_each Cs Es w (l : list (N * Archetype)) vs :
  (∀ p a, (p, a) ∈ l → archetypes_ w !! p = Some a) →
  visit_archetypes
    (λ p a, if negb (includes a (required Cs)) then Ret [] else each_row Cs p a) l = Ret vs →
  visit_archetypes
    (λ p a, if negb (includes a (required Cs)) then Ret []
            else if excluded a (Key.add_all Key.empty Es) then Ret []
            else each_row Cs p a) l
  = Ret (filter (λ v, not_excluded Es w v = true) vs).
Proof.
  revert vs. induction l as [|[p a] l IH]; intros vs Hl H.
  - injection H as <-. done.
  - cbn [visit_archetypes] in H |- *.
    apply bind_Ret in H as (vs1 & H1 & H). apply bind_Ret in H as (vs2 & H2 & H).
    injection H as <-.
    rewrite (IH vs2 (λ p0 a0 H0, Hl p0 a0 (list_elem_of_further _ _ _ H0)) H2).
    rewrite filter_app.
    destruct (includes a (required Cs)); cbn [negb] in H1 |- *.
    + destruct (each_row_NoDup _ _ _ _ H1) as [Harch _].
      destruct (excluded a (Key.add_all Key.empty Es)) eqn:Hex.
      * rewrite (filter_none _ vs1); [done|]. eapply Forall_impl; [exact Harch|].
        intros v Hv. unfold not_excluded. simpl in Hv. rewrite Hv, (Hl p a) by left.
        by rewrite Hex.
      * rewrite H1. simpl. rewrite (filter_all _ vs1); [done|].
        eapply Forall_impl; [exact Harch|].
        intros v Hv. unfold not_excluded. simpl in Hv. rewrite Hv, (Hl p a) by left.
        by rewrite Hex.
    + injection H1 as <-. done.
Qed.

Lemma visit_archetypes_ext {V} (f g : N → Archetype → Result (list V)) l :
  (∀ p a, (p, a) ∈ l → f p a = g p a) → visit_archetypes f l = visit_archetypes g l.
Proof.
  induction l as [|[p a] l IH]; intros H; [done|]. simpl.
  rewrite (H p a) by left. rewrite IH; [done|]. intros p0 a0 H0. apply H. by right.
Qed.

(** X20.  A query is [for_each] with a filter: [query<Cs...>().each(fn)]
    without exclusions makes the calls of [for_each<Cs...>(fn)], and with
    the exclusions [Es] it makes, in the same order, those calls of
    [for_each<Cs...>(fn)] that go to archetypes with none of [Es]; it
    returns whenever [for_each] does. *)
Theorem query_is_filtered_for_each (Cs Es : list N) (w : World) :
  Query_each Cs [] w = for_each Cs w ∧
  ∀ vs, for_each Cs w = Ret vs →
    Query_each Cs Es w = Ret (filter (λ v, not_excluded Es w v = true) vs).
Proof.
  split.
  - unfold Query_each, for_each. apply visit_archetypes_ext. intros p a _.
    destruct (includes a (required Cs)); [|done]. cbn [negb].
    unfold excluded. cbn [Key.add_all foldl Key.empty mask].
    by rewrite N.land_0_r.
  - intros vs H. unfold Query_each. apply query_filters_for_each; [|done].
    intros p a Hpa. by apply elem_of_map_to_list in Hpa.
Qed.

(** ** The chunks of [parallel_for_each_chunk] *)

Lemma subdivide_loop_cover fuel p start total :
  total - start ≤ fuel →
  mjoin (chunk_range <$> subdivide_loop fuel p start total) = seq start (total - start) ∧
  Forall (λ ch, ch.1.1 = p ∧ 0 < ch.2 ≤ chunk_size ∧ ch.1.2 + ch.2 ≤ total)
    (subdivide_loop fuel p start total).
Proof.
  revert start. induction fuel as [|fuel IH]; intros start Hfuel; cbn [subdivide_loop].
  - replace (total - start) with 0 by lia. done.
  - destruct (decide (start < total)) as [Hlt|Hge].
    + destruct (IH (start + chunk_size)) as [IH1 IH2]; [unfold chunk_size; lia|].
      split.
      * rewrite fmap_cons. change (mjoin (?x :: ?l)) with (x ++ mjoin l).
        rewrite IH1. unfold chunk_range. cbn [fst snd].
        destruct (decide (total - start ≤ chunk_size)) as [Hsmall|Hbig].
        -- rewrite Nat.min_r by done.
           replace (total - (start + chunk_size)) with 0 by lia. simpl.
           by rewrite app_nil_r.
        -- rewrite Nat.min_l by lia.
           replace (total - start) with (chunk_size + (total - (start + chunk_size))) by lia.
           by rewrite seq_app.
      * apply Forall_cons. split; [|done]. cbn [fst snd]. unfold chunk_size.
        split_and!; [done|lia..].
    + replace (total - start) with 0 by lia. done.
Qed.

Lemma subdivide_loop_closed fuel p k total :
  total - k * chunk_size ≤ fuel →
  subdivide_loop fuel p (k * chunk_size) total
  = (λ j, (p, j * chunk_size, min chunk_size (total - j * chunk_size)))
      <$> seq k ((total + chunk_size - 1) / chunk_size - k).
Proof.
  revert k. induction fuel as [|fuel IH]; intros k Hfuel; cbn [subdivide_loop].
  - replace ((total + chunk_size - 1) / chunk_size - k) with 0; [done|].
    assert ((total + chunk_size - 1) / chunk_size < S k); [|lia].
    apply Nat.Div0.div_lt_upper_bound. unfold chunk_size in *. lia.
  - destruct (decide (k * chunk_size < total)) as [Hlt|Hge].
    + assert (Hk : k < (total + chunk_size - 1) / chunk_size).
      { apply Nat.div_le_lower_bound; unfold chunk_size in *; lia. }
      replace ((total + chunk_size - 1) / chunk_size - k)
        with (S ((total + chunk_size - 1) / chunk_size - S k)) by lia.
      cbn [seq]. rewrite fmap_cons. f_equal.
      replace (k * chunk_size + chunk_size) with (S k * chunk_size) by lia.
      apply IH. unfold chunk_size in *. lia.
    + replace ((total + chunk_size - 1) / chunk_size - k) with 0; [done|].
      assert ((total + chunk_size - 1) / chunk_size < S k); [|lia].
      apply Nat.Div0.div_lt_upper_bound. unfold chunk_size in *. lia.
Qed.

Lemma subdivide_eq_loop p total : subdivide p total = subdivide_loop total p 0 total.
Proof.
  unfold subdivide.
  change (subdivide_loop total p 0 total) with (subdivide_loop total p (0 * chunk_size) total).
  rewrite (subdivide_loop_closed total p 0 total) by lia.
  by rewrite Nat.sub_0_r.
Qed.

(** X21.  The chunk loop of [parallel_for_each_chunk] cuts the rows
    [0 .. total-1] of an archetype into consecutive chunks: every chunk is
    of that archetype, has at least one and at most 4096 rows and ends
    within the archetype, and the chunks taken in order go through every
    row exactly once.  The loop makes [(total + 4095) / 4096] chunks, the
    [k]-th one starting at row [4096 * k]. *)
Theorem chunks_cover_the_rows (p : N) (total : nat) :
  subdivide_loop total p 0 total = subdivide p total ∧
  mjoin (chunk_range <$> subdivide p total) = seq 0 total ∧
  Forall (λ ch, ch.1.1 = p ∧ 0 < ch.2 ≤ chunk_size ∧ ch.1.2 + ch.2 ≤ total)
    (subdivide p total).
Proof.
  rewrite subdivide_eq_loop. split; [done|].
  destruct (subdivide_loop_cover total p 0 total) as [H1 H2]; [lia|].
  by rewrite Nat.sub_0_r in H1.
Qed.

(** ** Writing and reading components *)

Lemma placed_resident w e c :
  placed w e → Key.has (entity_key w e) c = true →
  ∃ loc p a el,
    entity_locations_ w !! N.to_nat (id e) = Some loc ∧ arch loc = Some p ∧
    archetypes_ w !! p = Some a ∧ entities a !! index loc = Some e ∧
    last (entities a) = Some el ∧ N.to_nat (id el) < length (entity_locations_ w) ∧
    entity_archetype w e = Some a.
Proof.
  intros (loc & Hloc & Hpl) Hhas. destruct (arch loc) as [p|] eqn:Harch.
  - destruct Hpl as (a & el & Ha & He & Hlast & Hel).
    exists loc, p, a, el. split_and!; try done. by eapply entity_archetype_Some.
  - unfold entity_key in Hhas. rewrite (entity_archetype_None _ _ _ Hloc Harch) in Hhas.
    cbn [from_option] in Hhas. by rewrite has_empty in Hhas.
Qed.

Lemma store_own_cell c e v w :
  row_parity w → alive e w = true → placed w e → (c < 64)%N →
  Key.has (entity_key w e) c = true →
  ∃ q w', get c e w = Ret (Some q) ∧ store q v w = Ret w' ∧
    generations_ w' = generations_ w ∧
    entity_locations_ w' = entity_locations_ w ∧
    (∀ e2, placed w e2 → placed w' e2 ∧ entity_key w' e2 = entity_key w e2) ∧
    cell c e w' = Some v ∧
    (∀ c', c' ≠ c → cell c' e w' = cell c' e w) ∧
    (∀ e2 c', e2 ≠ e → placed w e2 → cell c' e2 w' = cell c' e2 w).
Proof.
  intros Hinv Halive Hpl Hc Hhas.
  destruct (placed_resident _ _ _ Hpl Hhas) as (loc & p & a & el & Hloc & Harch & Ha & He & _ & _ & Hea).
  unfold entity_key in Hhas. rewrite Hea in Hhas. simpl in Hhas.
  pose proof (archetype_ok_columns _ _ _ (Hinv _ _ Ha) Hc Hhas) as Hl.
  destruct (components a !! c) as [vec|] eqn:Hvec; [|done]. injection Hl as Hl.
  assert (Hidx : index loc < length vec).
  { rewrite Hl. by eapply lookup_lt_Some. }
  destruct (lookup_lt_is_Some_2 vec (index loc) Hidx) as [v0 Hv0].
  exists (mkPtr p c (index loc)).
  set (a' := set_components a (<[c := <[index loc := v]> vec]> (components a))).
  exists (set_archetypes w (<[p := a']> (archetypes_ w))).
  assert (Hothers : ∀ e2, placed w e2 →
            placed (set_archetypes w (<[p := a']> (archetypes_ w))) e2 ∧
            entity_archetype (set_archetypes w (<[p := a']> (archetypes_ w))) e2
            = (λ a2, if decide (key a2 = key a) then a' else a2) <$> entity_archetype w e2).
  { intros e2 (loc2 & Hloc2 & Hpl2). unfold entity_archetype. simpl_world. rewrite Hloc2.
    simpl. destruct (arch loc2) as [p2|] eqn:Harch2; simpl.
    - destruct Hpl2 as (a2 & el2 & Ha2 & He2 & Hlast2 & Hel2).
      destruct (decide (p2 = p)) as [->|Hne].
      + rewrite Ha in Ha2. injection Ha2 as <-. rewrite lookup_insert_eq, Ha. simpl.
        rewrite decide_True by done. split; [|done].
        exists loc2. split; [done|]. rewrite Harch2. exists a', el2.
        simpl_world. by rewrite lookup_insert_eq.
      + rewrite lookup_insert_ne, Ha2 by done. simpl. split.
        * exists loc2. split; [done|]. rewrite Harch2. exists a2, el2.
          simpl_world. by rewrite lookup_insert_ne.
        * rewrite decide_False; [done|]. intros Hk.
          destruct (Hinv _ _ Ha2) as (Hm2 & _). destruct (Hinv _ _ Ha) as (Hm & _).
          apply Hne. by rewrite <-Hm2, <-Hm, Hk.
    - split; [|done]. exists loc2. split; [done|]. by rewrite Harch2. }
  split_and!.
  - unfold get, get_unsafe, at_, deref. change (alive_unsafe e w) with (alive e w).
    rewrite Halive, Hloc. simpl. rewrite Harch, Ha. simpl. rewrite Hhas. simpl.
    unfold get_array. rewrite Hvec. simpl. by rewrite Hv0.
  - unfold store, deref, get_array, assign. simpl. rewrite Ha. simpl. rewrite Hvec. simpl.
    by rewrite decide_True by done.
  - done.
  - done.
  - intros e2 H2. destruct (Hothers e2 H2) as [Hp2 Hea2]. split; [done|].
    unfold entity_key. rewrite Hea2. destruct (entity_archetype w e2) as [a2|]; [|done].
    simpl. by case_decide.
  - unfold cell. destruct (Hothers e Hpl) as [_ ->]. simpl_world. rewrite Hloc, Hea. simpl.
    rewrite decide_True by done. simpl. rewrite lookup_insert_eq. simpl.
    by apply list_lookup_insert_eq.
  - intros c' Hne. unfold cell. destruct (Hothers e Hpl) as [_ ->]. simpl_world.
    rewrite Hloc, Hea. simpl. rewrite decide_True by done. simpl.
    by rewrite lookup_insert_ne.
  - intros e2 c' Hne H2. unfold cell. destruct (Hothers e2 H2) as [_ ->]. simpl_world.
    destruct H2 as (loc2 & Hloc2 & Hpl2). rewrite Hloc2. simpl.
    unfold entity_archetype. rewrite Hloc2. simpl.
    destruct (arch loc2) as [p2|] eqn:Harch2; [|done]. simpl.
    destruct Hpl2 as (a2 & el2 & Ha2 & He2 & _). rewrite Ha2. simpl.
    case_decide as Hk; [|done].
    assert (p2 = p) as ->.
    { destruct (Hinv _ _ Ha2) as (Hm2 & _). destruct (Hinv _ _ Ha) as (Hm & _).
      by rewrite <-Hm2, <-Hm, Hk. }
    rewrite Ha in Ha2. injection Ha2 as <-. simpl.
    destruct (decide (c' = c)) as [->|Hnec].
    + rewrite lookup_insert_eq, Hvec. simpl.
      rewrite list_lookup_insert_ne; [done|]. intros Heq. rewrite Heq in He. congruence.
    + by rewrite lookup_insert_ne.
Qed.

(** X22.  Writing through the pointer that [get<C>(e)] returns, in a
    World with row parity, for an alive entity [e] whose directory entry
    can be followed ([placed]: it names a row that holds [e], in an
    archetype whose last entity has a directory entry) and that has
    component [C]: [get<C>(e)] is not null and the write is within the
    column; afterwards [get<C>(e)] reads the value written, the other
    components of [e] read as before, for every other alive entity whose
    directory entry can be followed every component reads as before, and
    no alive entity whose directory entry can be followed has gained or
    lost a component. *)
Theorem write_through_component_pointer (c : N) (e : Entity) (v : Value) (w : World) :
  row_parity w → alive e w = true → placed w e → component_id_ok c →
  has c e w = Ret true →
  ∃ q w', get c e w = Ret (Some q) ∧ store q v w = Ret w' ∧
    read c e w' = Ret (Some v) ∧
    (∀ c', component_id_ok c' → c' ≠ c → read c' e w' = read c' e w) ∧
    (∀ e2 c', component_id_ok c' → e2 ≠ e → alive e2 w = true → placed w e2 →
       read c' e2 w' = read c' e2 w) ∧
    (∀ e2 c', alive e2 w = true → placed w e2 → has c' e2 w' = has c' e2 w).
Proof.
  unfold component_id_ok, RECS_MAX_COMPONENTS. intros Hinv Halive Hpl Hc Hhas.
  rewrite has_entity_key in Hhas by done. injection Hhas as Hhas.
  destruct (store_own_cell c e v w Hinv Halive Hpl Hc Hhas)
    as (q & w' & Hget & Hstore & Hg & Hl & Hothers & Hcell & Hcells & Hcells2).
  exists q, w'. split; [done|]. split; [done|].
  pose proof (store_parity _ _ _ _ Hinv Hstore) as Hinv'.
  assert (Halive' : ∀ e2, alive e2 w' = alive e2 w) by (intros; by apply alive_generations).
  split_and!.
  - destruct (Hothers e Hpl) as [Hpl' Hk'].
    rewrite read_cell by (rewrite ?Halive'; done). by rewrite Hk', Hhas, Hcell.
  - intros c' Hc' Hne. destruct (Hothers e Hpl) as [Hpl' Hk'].
    rewrite !read_cell by (rewrite ?Halive'; done). by rewrite Hk', Hcells.
  - intros e2 c' Hc' Hne Ha2 Hp2. destruct (Hothers e2 Hp2) as [Hpl' Hk'].
    rewrite !read_cell by (rewrite ?Halive'; done). by rewrite Hk', Hcells2.
  - intros e2 c' Ha2 Hp2. destruct (Hothers e2 Hp2) as [Hpl' Hk'].
    rewrite !has_entity_key by (rewrite ?Halive'; done). by rewrite Hk'.
Qed.

(** Component 0 of the second entity of [world_two]. *)
Lemma write_through_component_pointer_witness :
  ∃ q w', get 0 entity1 world_two = Ret (Some q) ∧ store q 9%Z world_two = Ret w' ∧
    read 0 entity1 w' = Ret (Some 9%Z) ∧
    (∀ c', component_id_ok c' → c' ≠ 0%N → read c' entity1 w' = read c' entity1 world_two) ∧
    (∀ e2 c', component_id_ok c' → e2 ≠ entity1 → alive e2 world_two = true →
       placed world_two e2 → read c' e2 w' = read c' e2 world_two) ∧
    (∀ e2 c', alive e2 world_two = true → placed world_two e2 →
       has c' e2 w' = has c' e2 world_two).
Proof.
  apply write_through_component_pointer.
  - apply world_two_parity.
  - by vm_compute.
  - apply world_two_placed.
  - by vm_compute.
  - by vm_compute.
Defined.

Lemma get_absent c e w :
  alive e w = true → placed w e → Key.has (entity_key w e) c = false →
  get c e w = Ret None.
Proof.
  unfold alive, get, get_unsafe, at_, deref. intros -> (loc & Hloc & Hpl) Hhas. simpl.
  rewrite Hloc. simpl. destruct (arch loc) as [p|] eqn:Harch; [|done].
  destruct Hpl as (a & el & Ha & _). rewrite Ha. simpl.
  unfold entity_key in Hhas. rewrite (entity_archetype_Some _ _ _ _ _ Hloc Harch Ha) in Hhas.
  simpl in Hhas. by rewrite Hhas.
Qed.

Lemma get_present c e w :
  alive e w = true → placed w e → row_parity w → (c < 64)%N →
  Key.has (entity_key w e) c = true → ∃ q, get c e w = Ret (Some q).
Proof.
  intros Halive Hpl Hinv Hc Hhas.
  destruct (store_own_cell c e 0%Z w Hinv Halive Hpl Hc Hhas) as (q & _ & Hget & _).
  by exists q.
Qed.

(** X23.  [add<C>(e, v)] in a World with row parity, on an alive entity
    [e] whose directory entry can be followed ([placed]: it names no
    archetype, or a row that holds [e] in an archetype whose last entity
    has a directory entry) and that does not have [C]: it returns, having
    called the add hooks of [C]; afterwards [e] is alive and has [C],
    [get<C>(e)] reads [v], row parity holds, the directory entry of [e] can
    be followed, and every other component of [e] is present or absent as
    before and reads as before. *)
Theorem add_value_then_get (c : N) (e : Entity) (v : Value) (w : World) :
  row_parity w → placed w e → alive e w = true → component_id_ok c →
  has c e w = Ret false →
  ∃ w' calls, add_value c e v w = Ret (w', calls) ∧
    calls = fire_component_added c e w ∧
    alive e w' = true ∧ row_parity w' ∧ placed w' e ∧
    has c e w' = Ret true ∧
    read c e w' = Ret (Some v) ∧
    ∀ c', component_id_ok c' → c' ≠ c →
      has c' e w' = has c' e w ∧ read c' e w' = read c' e w.
Proof.
  intros Hinv Hpl Halive Hc Hhas.
  rewrite has_entity_key in Hhas by done. injection Hhas as Hhas.
  set (k0 := entity_key w e) in *.
  assert (HCs : Forall component_id_ok [c]) by (by apply Forall_singleton).
  destruct (migrate_moves [c] e true w (Key.add_all k0 [c]) Hinv HCs Hpl eq_refl)
    as (w1 & calls & Hm & Hg & Hpl1 & _ & Hk1 & Hcells).
  { intros _ Heq. fold k0 in Heq.
    assert (Key.has (Key.add_all k0 [c]) c = true) as Hh.
    { rewrite has_add_all, bool_decide_eq_true_2 by (by apply list_elem_of_singleton).
      apply orb_true_r. }
    rewrite Heq in Hh. congruence. }
  pose proof (migrate_parity _ _ _ _ _ _ HCs Hinv Hm) as Hinv1.
  assert (Halive1 : alive e w1 = true) by (by rewrite (alive_generations e w w1)).
  assert (Hhas1 : ∀ c', Key.has (entity_key w1 e) c' = Key.has k0 c' || bool_decide (c' = c)).
  { intros c'. rewrite Hk1, has_add_all. f_equal. apply bool_decide_ext.
    by rewrite list_elem_of_singleton. }
  assert (Hhc : Key.has (entity_key w1 e) c = true).
  { rewrite Hhas1, bool_decide_eq_true_2 by done. apply orb_true_r. }
  destruct (store_own_cell c e v w1 Hinv1 Halive1 Hpl1 Hc Hhc)
    as (q & w2 & Hget & Hstore & Hg2 & Hl2 & Hothers & Hcell & Hcells2 & _).
  destruct (Hothers e Hpl1) as [Hpl2 Hk2].
  pose proof (store_parity _ _ _ _ Hinv1 Hstore) as Hinv2.
  assert (Halive2 : alive e w2 = true) by (by rewrite (alive_generations e w1 w2)).
  exists w2, calls. split_and!; try done.
  - unfold add_value. rewrite Hm. simpl. change (get_unsafe c e w1) with (get c e w1).
    rewrite Hget. simpl. by rewrite Hstore.
  - destruct (migrate_keeps _ _ _ _ _ _ Hm) as (_ & _ & Hh & _).
    apply migrate_inv in Hm as (? & ? & ? & ? & ? & ? & ? & _ & _ & _ & _ & _ & _ & _ & _ & ->).
    simpl. rewrite app_nil_r. unfold fire_component_added. by rewrite Hh.
  - rewrite has_entity_key by done. by rewrite Hk2, Hhc.
  - rewrite read_cell by done. by rewrite Hk2, Hhc, Hcell.
  - intros c' Hc' Hne. rewrite !has_entity_key, !read_cell by done.
    rewrite Hk2, Hhas1, (bool_decide_eq_false_2 _ Hne), orb_false_r. fold k0.
    split; [done|]. destruct (Key.has k0 c') eqn:Hh0; [|done].
    rewrite Hcells2 by done. f_equal. apply Hcells; [done| |done].
    rewrite <-Hk1, Hhas1, Hh0. done.
Qed.

(** Component 1 for the second entity of [world_two]. *)
Lemma add_value_then_get_witness :
  ∃ w' calls, add_value 1 entity1 8%Z world_two = Ret (w', calls) ∧
    calls = fire_component_added 1 entity1 world_two ∧
    alive entity1 w' = true ∧ row_parity w' ∧ placed w' entity1 ∧
    has 1 entity1 w' = Ret true ∧
    read 1 entity1 w' = Ret (Some 8%Z) ∧
    ∀ c', component_id_ok c' → c' ≠ 1%N →
      has c' entity1 w' = has c' entity1 world_two ∧
      read c' entity1 w' = read c' entity1 world_two.
Proof.
  apply add_value_then_get.
  - apply world_two_parity.
  - apply world_two_placed.
  - by vm_compute.
  - by vm_compute.
  - by vm_compute.
Defined.

(** X24.  [remove<Cs...>(e)] in a World with row parity, on an alive
    entity [e] whose directory entry can be followed ([placed]: it names a
    row that holds [e], in an archetype whose last entity has a directory
    entry) and that has at least one of the components [Cs]: it
    returns; afterwards [e] is alive, row parity holds, the directory entry
    of [e] can be followed, [has] is false and [get] null for every
    component of [Cs], and every other component is present or absent as
    before and reads as before. *)
Theorem remove_takes_components_away (Cs : list N) (e : Entity) (w : World) :
  row_parity w → placed w e → alive e w = true → Forall component_id_ok Cs →
  (∃ c, c ∈ Cs ∧ has c e w = Ret true) →
  ∃ w' calls, remove Cs e w = Ret (w', calls) ∧
    alive e w' = true ∧ row_parity w' ∧ placed w' e ∧
    ∀ c, component_id_ok c →
      (c ∈ Cs → has c e w' = Ret false ∧ get c e w' = Ret None) ∧
      (c ∉ Cs → has c e w' = has c e w ∧ read c e w' = read c e w).
Proof.
  intros Hinv Hpl Halive HCs (c0 & Hc0 & Hhas).
  rewrite has_entity_key in Hhas by done. injection Hhas as Hhas.
  assert (c0 < 64)%N as Hc0lt by (rewrite Forall_forall in HCs; by apply HCs).
  set (k0 := entity_key w e) in *.
  destruct (migrate_moves Cs e false w (Key.remove_all k0 Cs) Hinv HCs Hpl eq_refl)
    as (w1 & calls & Hm & Hg & Hpl1 & _ & Hk1 & Hcells).
  { intros _ Heq. fold k0 in Heq.
    assert (Key.has (Key.remove_all k0 Cs) c0 = false) as Hh.
    { rewrite has_remove_all, (bool_decide_eq_true_2 _ Hc0) by done. apply andb_false_r. }
    rewrite Heq in Hh. congruence. }
  pose proof (migrate_parity _ _ _ _ _ _ HCs Hinv Hm) as Hinv1.
  assert (Halive1 : alive e w1 = true) by (by rewrite (alive_generations e w w1)).
  exists w1, calls. split_and!; try done.
  intros c Hc. split.
  - intros Hin.
    assert (Hh : Key.has (entity_key w1 e) c = false).
    { rewrite Hk1, has_remove_all, (bool_decide_eq_true_2 _ Hin) by done.
      apply andb_false_r. }
    split; [|by apply get_absent]. rewrite has_entity_key by done. by rewrite Hh.
  - intros Hnin. rewrite !has_entity_key, !read_cell by done.
    rewrite Hk1, has_remove_all, (bool_decide_eq_false_2 _ Hnin), andb_true_r by done.
    fold k0. split; [done|]. destruct (Key.has k0 c) eqn:Hh0; [|done].
    f_equal. apply Hcells; [done| |done].
    rewrite <-Hk1, Hk1, has_remove_all, (bool_decide_eq_false_2 _ Hnin), Hh0 by done. done.
Qed.

(** Component 0 of the first entity of [world_two], which keeps component 1. *)
Lemma remove_takes_components_away_witness :
  ∃ w' calls, remove [0%N] entity0 world_two = Ret (w', calls) ∧
    alive entity0 w' = true ∧ row_parity w' ∧ placed w' entity0 ∧
    ∀ c, component_id_ok c →
      (c ∈ [0%N] → has c entity0 w' = Ret false ∧ get c entity0 w' = Ret None) ∧
      (c ∉ [0%N] → has c entity0 w' = has c entity0 world_two ∧
                   read c entity0 w' = read c entity0 world_two).
Proof.
  apply remove_takes_components_away.
  - apply world_two_parity.
  - exists (mkLocation (Some 3%N) 0). split; [by vm_compute|]. simpl.
    exists (default (mkArchetype Key.empty [] ∅) (archetypes_ world_two !! 3%N)), entity0.
    split_and!; [by vm_compute..|vm_compute; lia].
  - by vm_compute.
  - apply ids_ok_0.
  - exists 0%N. split; [by apply list_elem_of_singleton|by vm_compute].
Defined.

(** The cell of a component that [add] has just given to the entity. *)
Lemma migrate_new_cell Cs e w w' calls c :
  row_parity w → Forall component_id_ok Cs → placed w e →
  migrate Cs e true w = Ret (w', calls) →
  (c < 64)%N → c ∈ Cs → Key.has (entity_key w e) c = false →
  cell c e w' = Some default_value.
Proof.
  intros Hinv HCs (loc0 & Hloc0 & Hpl) Hm Hc Hin Hno.
  apply migrate_inv in Hm
    as (loc & k0 & q & m1 & a & m3 & w1 & Hloc & Hk0 & Hgoc & Ha & Hm3 & Hw1 & Hlt & -> & _).
  cbn zeta in *. rewrite Hloc0 in Hloc. injection Hloc as <-.
  set (nk := Key.add_all k0 Cs) in *.
  assert (Hk0e : entity_key w e = k0 ∧ (mask k0 < 2 ^ 64)%N).
  { unfold entity_key, entity_archetype. rewrite Hloc0. simpl.
    destruct (arch loc0) as [p|]; simpl.
    - destruct Hk0 as (a0 & Ha0 & <-). rewrite Ha0. simpl. split; [done|].
      destruct (Hinv _ _ Ha0) as (-> & ? & _). done.
    - subst k0. split; [done|]. by vm_compute. }
  destruct Hk0e as [Hke Hk0b]. rewrite Hke in Hno.
  assert (Hnkc : Key.has nk c = true).
  { unfold nk. rewrite has_add_all, bool_decide_eq_true_2 by done. apply orb_true_r. }
  assert (Hnkb : (mask nk < 2 ^ 64)%N) by (by apply mask_add_all_bound).
  destruct (migrate_prefix Cs e true nk (archetypes_ w) Hinv Hnkb)
    as (m1' & a' & m3' & Hgoc' & Ha' & _ & Hm1 & Hm3' & Hmid3 & HF3 & _ & _).
  cbn zeta in *. rewrite Hgoc in Hgoc'. injection Hgoc' as -> <-.
  rewrite Ha in Ha'. injection Ha' as <-. rewrite Hm3 in Hm3'. injection Hm3' as <-.
  set (q := mask nk) in *. set (n := length (entities a)) in *.
  assert (Hfinal : ∀ m4 m5 : gmap N Archetype,
            mid_migration q nk n m4 →
            col q c m5 = (λ d, d ++ [default_value]) <$> col q c m4 →
            is_Some (col q c m4) →
            ∃ a5 vec, m5 !! q = Some a5 ∧ components a5 !! c = Some vec ∧
                      vec !! n = Some default_value).
  { intros m4 m5 [_ (a4 & Ha4 & _ & _ & _ & _ & Hcols)] Hcol [d Hd].
    rewrite Hd in Hcol. simpl in Hcol. rewrite (col_lookup _ _ _ a4) in Hd by done.
    assert (length d = n) as Hlen.
    { destruct (Hcols c Hc Hnkc) as [Hl|[Hn _]]; [|congruence].
      rewrite Hd in Hl. by injection Hl. }
    unfold col in Hcol. destruct (m5 !! q) as [a5|]; [|done]. simpl in Hcol.
    exists a5, (d ++ [default_value]). split_and!; try done.
    rewrite <-Hlen. by apply list_lookup_middle. }
  unfold cell, entity_archetype. simpl_world.
  rewrite list_lookup_insert_eq by done. simpl.
  destruct (arch loc0) as [p|] eqn:Harch.
  - destruct Hk0 as (a0 & Ha0 & Hka0). destruct Hw1 as (m4 & m5 & Hm4 & Hm5 & Hrem).
    assert (Hqp : q ≠ p).
    { intros Heq. destruct (Hinv _ _ Ha0) as (Hmask & _).
      assert (nk = k0) as Hnk0; [|rewrite Hnk0 in Hnkc; congruence].
      destruct nk as [x], k0 as [y]. unfold q in Heq. simpl in *. subst.
      destruct (key a0). simpl in *. congruence. }
    apply clone_loop_spec in Hm4 as (HF4 & Hmade4 & _).
    pose proof (mid_migration_made _ _ _ _ _ Hmid3 HF4 Hmade4) as Hmid4.
    assert (Hp4 : m4 !! p = Some a0).
    { destruct HF4 as [HF4 _]. rewrite HF4 by done. destruct HF3 as [HF3 _].
      rewrite HF3 by done. rewrite lookup_insert_ne by done. by rewrite Hm1. }
    apply copy_loop_spec in Hm5 as (HF5 & Hcols5).
    destruct (Hcols5 c) as [Hcp _]. specialize (Hcp Hc). unfold copied in Hcp.
    rewrite Hnkc in Hcp. destruct Hcp as (src & d & Hsrc & Hd & Hcp).
    rewrite Hp4 in Hsrc. injection Hsrc as <-. rewrite Hka0, Hno in Hcp.
    destruct (Hfinal m4 m5 Hmid4) as (a5 & vec & Ha5 & Hvec & Hv).
    { by rewrite Hcp, Hd. } { by rewrite Hd. }
    apply remove_from_archetype_inv in Hrem
      as (? & ? & ? & ? & ? & _ & _ & _ & _ & _ & _ & _ & ->).
    simpl_world. rewrite lookup_insert_ne by done. rewrite Ha5. simpl. by rewrite Hvec.
  - destruct Hw1 as (m4 & Hm4 & ->). simpl_world.
    apply default_loop_spec in Hm4 as (HF4 & Hcols4).
    destruct (Hcols4 c) as [Hdf _]. specialize (Hdf Hc). unfold defaulted in Hdf.
    rewrite Hnkc in Hdf. destruct Hdf as (d & Hd & Hd').
    destruct (Hfinal m3 m4 Hmid3) as (a5 & vec & Ha5 & Hvec & Hv).
    { by rewrite Hd', Hd. } { by rewrite Hd. }
    rewrite Ha5. simpl. by rewrite Hvec.
Qed.

(** X25.  [add<Cs...>(e)] in a World with row parity, on an alive entity
    [e] whose directory entry can be followed ([placed]: it names no
    archetype, or a row that holds [e] in an archetype whose last entity
    has a directory entry) and that lacks at least one of the components
    [Cs]: it returns; afterwards [e] is alive, row parity holds, the
    directory entry of [e] can be followed, and [e] has every component of
    [Cs]; a component of [Cs] that [e] did not have is value-initialised,
    one that it had keeps its value; and every component outside [Cs] is
    present or absent as before and reads as before. *)
Theorem add_gives_default_components (Cs : list N) (e : Entity) (w : World) :
  row_parity w → placed w e → alive e w = true → Forall component_id_ok Cs →
  (∃ c, c ∈ Cs ∧ has c e w = Ret false) →
  ∃ w' calls, add Cs e w = Ret (w', calls) ∧
    alive e w' = true ∧ row_parity w' ∧ placed w' e ∧
    ∀ c, component_id_ok c →
      (c ∈ Cs → has c e w' = Ret true ∧
                read c e w' = (if Key.has (entity_key w e) c then read c e w
                               else Ret (Some default_value))) ∧
      (c ∉ Cs → has c e w' = has c e w ∧ read c e w' = read c e w).
Proof.
  intros Hinv Hpl Halive HCs (c0 & Hc0 & Hhas).
  rewrite has_entity_key in Hhas by done. injection Hhas as Hhas.
  set (k0 := entity_key w e) in *.
  destruct (migrate_moves Cs e true w (Key.add_all k0 Cs) Hinv HCs Hpl eq_refl)
    as (w1 & calls & Hm & Hg & Hpl1 & _ & Hk1 & Hcells).
  { intros _ Heq. fold k0 in Heq.
    assert (Key.has (Key.add_all k0 Cs) c0 = true) as Hh.
    { rewrite has_add_all, bool_decide_eq_true_2 by done. apply orb_true_r. }
    rewrite Heq in Hh. congruence. }
  pose proof (migrate_parity _ _ _ _ _ _ HCs Hinv Hm) as Hinv1.
  assert (Halive1 : alive e w1 = true) by (by rewrite (alive_generations e w w1)).
  exists w1, calls. split_and!; try done.
  intros c Hc. rewrite !has_entity_key, !read_cell by done.
  rewrite Hk1, has_add_all. fold k0. split.
  - intros Hin. rewrite (bool_decide_eq_true_2 _ Hin), orb_true_r. split; [done|].
    destruct (Key.has k0 c) eqn:Hh0.
    + f_equal. apply Hcells; [done| |done].
      rewrite <-Hk1, Hk1, has_add_all, Hh0. done.
    + f_equal. exact (migrate_new_cell Cs e w w1 calls c Hinv HCs Hpl Hm Hc Hin Hh0).
  - intros Hnin. rewrite (bool_decide_eq_false_2 _ Hnin), orb_false_r. split; [done|].
    destruct (Key.has k0 c) eqn:Hh0; [|done].
    f_equal. apply Hcells; [done| |done].
    rewrite <-Hk1, Hk1, has_add_all, Hh0. done.
Qed.

(** Components 0 and 1 for the second entity of [world_two], which has component 0. *)
Lemma add_gives_default_components_witness :
  ∃ w' calls, add [0; 1]%N entity1 world_two = Ret (w', calls) ∧
    alive entity1 w' = true ∧ row_parity w' ∧ placed w' entity1 ∧
    ∀ c, component_id_ok c →
      (c ∈ [0; 1]%N → has c entity1 w' = Ret true ∧
                read c entity1 w' = (if Key.has (entity_key world_two entity1) c
                                     then read c entity1 world_two
                                     else Ret (Some default_value))) ∧
      (c ∉ [0; 1]%N → has c entity1 w' = has c entity1 world_two ∧
                      read c entity1 w' = read c entity1 world_two).
Proof.
  apply add_gives_default_components.
  - apply world_two_parity.
  - apply world_two_placed.
  - by vm_compute.
  - repeat constructor; by vm_compute.
  - exists 1%N. split; [|by vm_compute]. apply elem_of_cons. right.
    by apply list_elem_of_singleton.
Defined.

(** ** The directory stays consistent *)

Lemma consistent_same_id E locs p es r e p' es' r' e' :
  consistent E locs → E p = Some es → es !! r = Some e →
  E p' = Some es' → es' !! r' = Some e' → id e' = id e → p' = p ∧ r' = r.
Proof.
  intros [HD _] Hp Hr Hp' Hr' Hid.
  pose proof (HD _ _ _ _ Hp Hr) as H1. pose proof (HD _ _ _ _ Hp' Hr') as H2.
  rewrite Hid in H2. rewrite H1 in H2. by injection H2 as <- <-.
Qed.

(** The swap-remove of [remove_from_archetype] on the entity column of
    [p] and on the directory. *)
Lemma swap_remove_consistent E E' locs p es idx e moved lst lm :
  consistent E locs → E p = Some es → es !! idx = Some e →
  length es = S lst → es !! lst = Some moved →
  locs !! N.to_nat (id moved) = Some lm →
  E' p = Some (removelast (<[idx := moved]> es)) → (∀ p', p' ≠ p → E' p' = E p') →
  consistent E'
    (<[N.to_nat (id e) := mkLocation None 0]>
       (<[N.to_nat (id moved) := mkLocation (arch lm) idx]> locs)) ∧
  (∀ p' es' e', E' p' = Some es' → e' ∈ es' →
     id e' ≠ id e ∧ ∃ es0, E p' = Some es0 ∧ e' ∈ es0).
Proof.
  intros Hc Hp He Hlen Hmoved Hlm Hp' Hother.
  pose proof Hc as [HD HL].
  pose proof (HD _ _ _ _ Hp He) as Hle. pose proof (HD _ _ _ _ Hp Hmoved) as Hlmoved.
  rewrite Hlm in Hlmoved. injection Hlmoved as ->. simpl.
  assert (Hidx : idx < length es) by (by eapply lookup_lt_Some).
  assert (Hrows : ∀ r e', removelast (<[idx := moved]> es) !! r = Some e' →
            r < lst ∧ ((r = idx ∧ e' = moved) ∨ (r ≠ idx ∧ es !! r = Some e'))).
  { intros r e' Hr. rewrite removelast_take, length_insert, Hlen in Hr. simpl in Hr.
    apply lookup_take_Some in Hr as [Hr Hlt]. split; [done|].
    destruct (decide (r = idx)) as [->|Hne].
    - left. rewrite list_lookup_insert_eq in Hr by done. by injection Hr as <-.
    - right. by rewrite list_lookup_insert_ne in Hr by done. }
  assert (Hrows' : ∀ r e', r < lst → r ≠ idx → es !! r = Some e' →
            removelast (<[idx := moved]> es) !! r = Some e').
  { intros r e' Hlt Hne Hr. rewrite removelast_take, length_insert, Hlen. simpl.
    rewrite lookup_take_lt by done. by rewrite list_lookup_insert_ne. }
  assert (Hstays : ∀ p' es' r e', E' p' = Some es' → es' !! r = Some e' →
            id e' ≠ id e ∧
            (∃ es0, E p' = Some es0 ∧ e' ∈ es0) ∧
            <[N.to_nat (id e) := mkLocation None 0]>
              (<[N.to_nat (id moved) := mkLocation (Some p) idx]> locs) !! N.to_nat (id e')
            = Some (mkLocation (Some p') r)).
  { intros p' es' r e' HE' Hr. destruct (decide (p' = p)) as [->|Hne].
    - rewrite Hp' in HE'. injection HE' as <-.
      destruct (Hrows _ _ Hr) as [Hlt [[-> ->]|[Hne Hr0]]].
      + assert (id moved ≠ id e) as Hid.
        { intros Hid. destruct (consistent_same_id _ _ _ _ _ _ _ _ _ _ Hc Hp He Hp Hmoved Hid).
          lia. }
        split; [done|]. split; [exists es; split; [done|by eapply list_elem_of_lookup_2]|].
        rewrite list_lookup_insert_ne by (intros Heq; apply Hid; lia).
        apply list_lookup_insert_eq. by eapply lookup_lt_Some.
      + assert (id e' ≠ id e) as Hid.
        { intros Hid. destruct (consistent_same_id _ _ _ _ _ _ _ _ _ _ Hc Hp He Hp Hr0 Hid).
          done. }
        assert (id e' ≠ id moved) as Hid2.
        { intros Hid2.
          destruct (consistent_same_id _ _ _ _ _ _ _ _ _ _ Hc Hp Hmoved Hp Hr0 Hid2). lia. }
        split; [done|]. split; [exists es; split; [done|by eapply list_elem_of_lookup_2]|].
        rewrite !list_lookup_insert_ne by (intros Heq; (apply Hid || apply Hid2); lia).
        by eapply HD.
    - rewrite Hother in HE' by done.
      assert (id e' ≠ id e) as Hid.
      { intros Hid. destruct (consistent_same_id _ _ _ _ _ _ _ _ _ _ Hc Hp He HE' Hr Hid).
        done. }
      assert (id e' ≠ id moved) as Hid2.
      { intros Hid2.
        destruct (consistent_same_id _ _ _ _ _ _ _ _ _ _ Hc Hp Hmoved HE' Hr Hid2). done. }
      split; [done|]. split; [exists es'; split; [done|by eapply list_elem_of_lookup_2]|].
      rewrite !list_lookup_insert_ne by (intros Heq; (apply Hid || apply Hid2); lia).
      by eapply HD. }
  split; [split|].
  - intros p' es' r e' HE' Hr. by destruct (Hstays _ _ _ _ HE' Hr) as (_ & _ & ?).
  - intros i p' r Hi.
    destruct (decide (i = N.to_nat (id e))) as [->|Hie].
    { rewrite list_lookup_insert_eq in Hi; [done|].
      rewrite length_insert. by eapply lookup_lt_Some. }
    rewrite list_lookup_insert_ne in Hi by done.
    destruct (decide (i = N.to_nat (id moved))) as [->|Him].
    + rewrite list_lookup_insert_eq in Hi by (by eapply lookup_lt_Some).
      injection Hi as <- <-.
      assert (idx ≠ lst) as Hne.
      { intros ->. rewrite He in Hmoved. injection Hmoved as ->. done. }
      exists (removelast (<[idx := moved]> es)), moved. split_and!; [done| |done].
      rewrite removelast_take, length_insert, Hlen. simpl.
      rewrite lookup_take_lt by lia. by apply list_lookup_insert_eq.
    + rewrite list_lookup_insert_ne in Hi by done.
      destruct (HL _ _ _ Hi) as (es0 & e1 & HE0 & Hr0 & Hid1).
      destruct (decide (p' = p)) as [->|Hne].
      * rewrite Hp in HE0. injection HE0 as <-.
        assert (r ≠ idx) by (intros ->; rewrite He in Hr0; injection Hr0 as <-; done).
        assert (r ≠ lst) by (intros ->; rewrite Hmoved in Hr0; injection Hr0 as <-; done).
        apply lookup_lt_Some in Hr0 as Hlt.
        exists (removelast (<[idx := moved]> es)), e1. split_and!; [done| |done].
        apply Hrows'; [lia|done|done].
      * exists es0, e1. by rewrite Hother.
  - intros p' es' e' HE' [r Hr]%list_elem_of_lookup.
    by destruct (Hstays _ _ _ _ HE' Hr) as (? & ? & _).
Qed.

(** Pushing an entity without an archetype onto the entity column of [q]. *)
Lemma push_consistent E E' locs q e loc :
  consistent E locs →
  locs !! N.to_nat (id e) = Some loc → arch loc = None →
  E' q = Some (default [] (E q) ++ [e]) → (∀ p', p' ≠ q → E' p' = E p') →
  consistent E'
    (<[N.to_nat (id e) := mkLocation (Some q) (length (default [] (E q)))]> locs) ∧
  (∀ p' es' e', E' p' = Some es' → e' ∈ es' →
     e' = e ∨ (id e' ≠ id e ∧ ∃ es0, E p' = Some es0 ∧ e' ∈ es0)).
Proof.
  intros Hc Hloc Harch Hq Hother. pose proof Hc as [HD HL].
  assert (Hold : ∀ p' es0 r e', E p' = Some es0 → es0 !! r = Some e' → id e' ≠ id e).
  { intros p' es0 r e' HE0 Hr Hid. pose proof (HD _ _ _ _ HE0 Hr) as H1.
    rewrite Hid, Hloc in H1. injection H1 as ->. done. }
  assert (Hrows : ∀ p' es' r e', E' p' = Some es' → es' !! r = Some e' →
            (p' = q ∧ r = length (default [] (E q)) ∧ e' = e) ∨
            (∃ es0, E p' = Some es0 ∧ es0 !! r = Some e')).
  { intros p' es' r e' HE' Hr. destruct (decide (p' = q)) as [->|Hne].
    - rewrite Hq in HE'. injection HE' as <-.
      apply lookup_app_Some in Hr as [Hr|[Hge Hr]].
      + right. destruct (E q) as [es0|]; [|done]. by exists es0.
      + left. apply list_lookup_singleton_Some in Hr as [Hr ->]. split_and!; [done|lia|done].
    - right. exists es'. by rewrite <-Hother. }
  split; [split|].
  - intros p' es' r e' HE' Hr. destruct (Hrows _ _ _ _ HE' Hr) as [(-> & -> & ->)|(es0 & HE0 & Hr0)].
    + apply list_lookup_insert_eq. by eapply lookup_lt_Some.
    + rewrite list_lookup_insert_ne.
      * by eapply HD.
      * intros Heq. apply (Hold _ _ _ _ HE0 Hr0). lia.
  - intros i p' r Hi. destruct (decide (i = N.to_nat (id e))) as [->|Hie].
    + rewrite list_lookup_insert_eq in Hi by (by eapply lookup_lt_Some).
      injection Hi as <- <-. exists (default [] (E q) ++ [e]), e.
      split_and!; [done| |done]. by apply list_lookup_middle.
    + rewrite list_lookup_insert_ne in Hi by done.
      destruct (HL _ _ _ Hi) as (es0 & e1 & HE0 & Hr0 & Hid1).
      destruct (decide (p' = q)) as [->|Hne].
      * exists (es0 ++ [e]), e1. rewrite Hq, HE0. simpl. split_and!; [done| |done].
        by apply lookup_app_l_Some.
      * exists es0, e1. by rewrite Hother.
  - intros p' es' e' HE' [r Hr]%list_elem_of_lookup.
    destruct (Hrows _ _ _ _ HE' Hr) as [(-> & -> & ->)|(es0 & HE0 & Hr0)]; [by left|].
    right. split; [by eapply Hold|]. exists es0. split; [done|].
    by eapply list_elem_of_lookup_2.
Qed.

Lemma remove_from_archetype_view e p idx w w' :
  remove_from_archetype e p idx w = Ret w' →
  ∃ es lst moved lm,
    entity_columns w p = Some es ∧ length es = S lst ∧ es !! lst = Some moved ∧
    entity_locations_ w !! N.to_nat (id moved) = Some lm ∧
    entity_columns w' p = Some (removelast (<[idx := moved]> es)) ∧
    (∀ p', p' ≠ p → entity_columns w' p' = entity_columns w p') ∧
    entity_locations_ w'
    = <[N.to_nat (id e) := mkLocation None 0]>
        (<[N.to_nat (id moved) := mkLocation (arch lm) idx]> (entity_locations_ w)) ∧
    generations_ w' = generations_ w ∧ free_ids_ w' = free_ids_ w.
Proof.
  intros H. apply remove_from_archetype_inv in H
    as (a & lst & moved & cs & lm & Ha & Hlen & Hmoved & _ & _ & Hlm & _ & ->).
  exists (entities a), lst, moved, lm. unfold entity_columns. simpl_world.
  rewrite Ha, lookup_insert_eq. simpl. split_and!; try done.
  intros p' Hne. by rewrite lookup_insert_ne.
Qed.

Lemma entity_key_columns w e loc :
  entity_locations_ w !! N.to_nat (id e) = Some loc →
  entity_key w e
  = match arch loc with
    | Some p => from_option key Key.empty (archetypes_ w !! p)
    | None => Key.empty
    end.
Proof.
  intros Hloc. unfold entity_key, entity_archetype. rewrite Hloc. simpl.
  by destruct (arch loc).
Qed.

(** What [migrate] does to the entity columns and the directory: the
    entity is pushed onto the column of the new archetype, then
    swap-removed from the old one, if there is one. *)
Lemma migrate_columns Cs e (adding : bool) w w' calls :
  migrate Cs e adding w = Ret (w', calls) →
  ∃ loc q w5 w1,
    entity_locations_ w !! N.to_nat (id e) = Some loc ∧
    q = mask (if adding then Key.add_all (entity_key w e) Cs
              else Key.remove_all (entity_key w e) Cs) ∧
    entity_columns w5 q = Some (default [] (entity_columns w q) ++ [e]) ∧
    (∀ p', p' ≠ q → entity_columns w5 p' = entity_columns w p') ∧
    entity_locations_ w5 = entity_locations_ w ∧
    generations_ w5 = generations_ w ∧ free_ids_ w5 = free_ids_ w ∧
    match arch loc with
    | Some p => remove_from_archetype e p (index loc) w5 = Ret w1
    | None => w1 = w5
    end ∧
    w' = set_locations w1
           (<[N.to_nat (id e) :=
                mkLocation (Some q) (length (default [] (entity_columns w q)))]>
              (entity_locations_ w1)).
Proof.
  intros H. apply migrate_inv in H
    as (loc & k0 & q & m1 & a & m3 & w1 & Hloc & Hk0 & Hgoc & Ha & Hm3 & Hw1 & _ & -> & _).
  cbn zeta in *.
  assert (Hkey : entity_key w e = k0).
  { rewrite (entity_key_columns _ _ _ Hloc). destruct (arch loc) as [p|]; [|done].
    destruct Hk0 as (a0 & -> & <-). done. }
  rewrite Hkey. set (nk := if adding then Key.add_all k0 Cs else Key.remove_all k0 Cs) in *.
  assert (Hq : q = mask nk ∧ entities a = default [] (entity_columns w q) ∧
               ∀ p', p' ≠ q → m1 !! p' = archetypes_ w !! p').
  { unfold get_or_create_archetype in Hgoc. unfold entity_columns.
    destruct (archetypes_ w !! mask nk) as [a0|] eqn:Hm; injection Hgoc as <- <-.
    - rewrite Hm in Ha |- *. injection Ha as <-. done.
    - rewrite lookup_insert_eq in Ha. injection Ha as <-. rewrite Hm. simpl.
      split_and!; try done. intros p' Hne. by rewrite lookup_insert_ne. }
  destruct Hq as (Hqm & Hes & Hm1).
  set (m2 := <[q := set_entities a (entities a ++ [e])]> m1) in *.
  assert (Hview : ∀ m', same_frame q m2 m' →
            entity_columns (set_archetypes w m') q = Some (entities a ++ [e]) ∧
            ∀ p', p' ≠ q → entity_columns (set_archetypes w m') p' = entity_columns w p').
  { intros m' Hf. unfold entity_columns. simpl_world. split.
    - destruct (same_frame_lookup_1 q m2 m' (set_entities a (entities a ++ [e])) Hf)
        as (a' & -> & _ & Hes'); [unfold m2; by rewrite lookup_insert_eq|].
      simpl. by rewrite Hes'.
    - intros p' Hne. destruct Hf as [Hf _]. rewrite Hf by done. unfold m2.
      rewrite lookup_insert_ne by done. by rewrite Hm1. }
  assert (HF3 : same_frame q m2 m3).
  { destruct adding.
    - by apply ensure_loop_spec in Hm3 as [? _].
    - injection Hm3 as <-. reflexivity. }
  destruct (arch loc) as [p|] eqn:Harch.
  - destruct Hw1 as (m4 & m5 & H4 & H5 & Hrem).
    apply clone_loop_spec in H4 as [HF4 _]. apply copy_loop_spec in H5 as [HF5 _].
    assert (HF : same_frame q m2 m5) by (etrans; [exact HF3|]; etrans; done).
    destruct (Hview m5 HF) as [Hv1 Hv2].
    exists loc, q, (set_archetypes w m5), w1. rewrite <-Hes, Harch. split_and!; done.
  - destruct Hw1 as (m4 & H4 & ->). apply default_loop_spec in H4 as [HF4 _].
    assert (HF : same_frame q m2 m4) by (etrans; done).
    destruct (Hview m4 HF) as [Hv1 Hv2].
    exists loc, q, (set_archetypes w m4), (set_archetypes w m4). rewrite <-Hes, Harch.
    split_and!; done.
Qed.

Lemma alive_entry_stored w e loc p :
  world_ok w → alive e w = true →
  entity_locations_ w !! N.to_nat (id e) = Some loc → arch loc = Some p →
  ∃ es, entity_columns w p = Some es ∧ es !! index loc = Some e.
Proof.
  intros (_ & [_ HL] & HA & _ & _) Halive Hloc Harch.
  destruct loc as [ar idx]. simpl in *. subst ar.
  destruct (HL _ _ _ Hloc) as (es & e1 & HE & Hr & Hid).
  exists es. split; [done|]. apply N2Nat.inj in Hid.
  destruct (HA _ _ _ HE (list_elem_of_lookup_2 _ _ _ Hr)) as [Ha1 _].
  apply alive_generation in Ha1, Halive. rewrite Hid in Ha1.
  assert (e1 = e) as -> by (destruct e1, e; simpl in *; congruence). done.
Qed.

Lemma destroy_unsafe_ok e w w' :
  world_ok w → destroy_unsafe e w = Ret w' → world_ok w'.
Proof.
  intros Hok H. destruct (alive e w) eqn:Halive.
  2:{ rewrite destroy_unsafe_stale in H by done. by injection H as <-. }
  pose proof (destroy_unsafe_parity _ _ _ (proj1 Hok) H) as Hinv'.
  destruct (destroy_unsafe_inv _ _ _ Halive H) as (loc & p & w0 & Hloc & Harch & Hrem & ->).
  destruct (alive_entry_stored _ _ _ _ Hok Halive Hloc Harch) as (es & HE & He).
  destruct Hok as (_ & Hc & HA & HF & HG).
  apply remove_from_archetype_view in Hrem
    as (es' & lst & moved & lm & HE' & Hlen & Hmoved & Hlm & HE0 & Hother & Hl0 & Hg0 & Hf0).
  rewrite HE in HE'. injection HE' as <-.
  destruct (swap_remove_consistent _ (entity_columns w0) _ _ _ _ _ _ _ _
              Hc HE He Hlen Hmoved Hlm HE0 Hother) as [Hc' Hin].
  apply alive_generation in Halive as Hge. apply lookup_lt_Some in Hge.
  split_and!.
  - done.
  - unfold entity_columns in *. simpl_world. by rewrite Hl0.
  - intros p' es' e' HE' He'. unfold entity_columns in *. simpl_world.
    destruct (Hin _ _ _ HE' He') as (Hid & es0 & HE0' & He0).
    destruct (HA _ _ _ HE0' He0) as [Ha Hfree]. split.
    + unfold alive, alive_unsafe in *. simpl_world.
      rewrite list_lookup_insert_ne; [done|]. intros Heq. apply Hid. lia.
    + rewrite elem_of_app, list_elem_of_singleton. intros [?|?]; done.
  - simpl_world. rewrite length_insert. apply Forall_app. split; [done|].
    by apply Forall_singleton.
  - simpl_world. rewrite Hl0, !length_insert. done.
Qed.

Lemma destroy_batch_ok es w w' :
  world_ok w → destroy_batch es w = Ret w' → world_ok w'.
Proof.
  revert w. induction es as [|e es IH]; intros w Hok H; simpl in H.
  - by injection H as <-.
  - apply bind_Ret in H as (w1 & H1 & H). apply (IH w1); [|done].
    by eapply destroy_unsafe_ok.
Qed.

Lemma migrate_ok Cs e (adding : bool) w w' calls :
  world_ok w → Forall component_id_ok Cs →
  live e w = true → changes_key adding Cs e w = true →
  migrate Cs e adding w = Ret (w', calls) → world_ok w'.
Proof.
  intros Hok HCs Hlive Hchg H.
  pose proof (migrate_parity _ _ _ _ _ _ HCs (proj1 Hok) H) as Hinv'.
  apply andb_true_iff in Hlive as [Halive Hnotfree]. apply bool_decide_eq_true in Hnotfree.
  destruct (migrate_keeps _ _ _ _ _ _ H) as (Hg & Hf & _ & Hlen).
  apply migrate_columns in H
    as (loc & q & w5 & w1 & Hloc & Hq & HE5q & HE5 & Hl5 & Hg5 & Hf5 & Hw1 & ->).
  assert (Hnk : ∀ p a0, arch loc = Some p → archetypes_ w !! p = Some a0 → q ≠ p).
  { intros p a0 Harch Ha0 Heq.
    unfold changes_key in Hchg.
    rewrite (entity_key_columns _ _ _ Hloc), Harch, Ha0 in Hq, Hchg.
    simpl in Hq, Hchg. destruct (proj1 Hok _ _ Ha0) as (Hmask & Hb & _).
    assert (Hb' : (mask (key a0) < 2 ^ 64)%N) by (by rewrite Hmask).
    destruct adding; apply existsb_exists in Hchg as (c & Hc & Hh).
    - assert (Key.has (Key.add_all (key a0) Cs) c = true) as Hh'.
      { rewrite has_add_all, bool_decide_eq_true_2; [apply orb_true_r|].
        by apply list_elem_of_In. }
      assert (Key.add_all (key a0) Cs = key a0) as Heqk.
      { destruct (Key.add_all (key a0) Cs) as [x], (key a0) as [y]. simpl in *. congruence. }
      rewrite Heqk in Hh'. rewrite Hh' in Hh. done.
    - assert (c < 64)%N as Hc64.
      { rewrite Forall_forall in HCs. apply HCs. by apply list_elem_of_In. }
      assert (Key.has (Key.remove_all (key a0) Cs) c = false) as Hh'.
      { rewrite has_remove_all, bool_decide_eq_true_2 by (done || by apply list_elem_of_In).
        apply andb_false_r. }
      assert (Key.remove_all (key a0) Cs = key a0) as Heqk.
      { destruct (Key.remove_all (key a0) Cs) as [x], (key a0) as [y]. simpl in *.
        congruence. }
      rewrite Heqk in Hh'. congruence. }
  destruct Hok as (Hinv & Hc & HA & HF & HG).
  set (n := length (default [] (entity_columns w q))) in *.
  assert (Hfinal : consistent (entity_columns w1)
                     (<[N.to_nat (id e) := mkLocation (Some q) n]> (entity_locations_ w1)) ∧
                   (∀ p' es' e', entity_columns w1 p' = Some es' → e' ∈ es' →
                      e' = e ∨ ∃ es0, entity_columns w p' = Some es0 ∧ e' ∈ es0)).
  { destruct (arch loc) as [p|] eqn:Harch.
    - destruct (alive_entry_stored w e loc p) as (es & HE & He); [by split_and!|done..|].
      assert (Hqp : q ≠ p).
      { unfold entity_columns in HE. destruct (archetypes_ w !! p) as [a0|] eqn:Ha0; [|done].
        by eapply Hnk. }
      apply remove_from_archetype_view in Hw1
        as (es' & lst & moved & lm & HE' & Hlen' & Hmoved & Hlm & HE1 & Hother & Hl1 & _ & _).
      rewrite HE5 in HE' by done. rewrite HE in HE'. injection HE' as <-.
      rewrite Hl5 in Hlm, Hl1.
      set (Er := λ p', if decide (p' = p) then Some (removelast (<[index loc := moved]> es))
                       else entity_columns w p').
      destruct (swap_remove_consistent _ Er _ _ _ _ _ _ _ _ Hc HE He Hlen' Hmoved Hlm)
        as [Hcr Hinr].
      { unfold Er. by rewrite decide_True. }
      { intros p' Hne. unfold Er. by rewrite decide_False. }
      assert (Hlr : (<[N.to_nat (id e) := mkLocation None 0]>
                       (<[N.to_nat (id moved) := mkLocation (arch lm) (index loc)]>
                          (entity_locations_ w))) !! N.to_nat (id e)
                    = Some (mkLocation None 0)).
      { apply list_lookup_insert_eq. rewrite length_insert. by eapply lookup_lt_Some. }
      assert (HErq : Er q = entity_columns w q) by (unfold Er; by rewrite decide_False).
      destruct (push_consistent Er (entity_columns w1) _ q e _ Hcr Hlr eq_refl) as [Hc1 Hin1].
      { rewrite Hother by done. by rewrite HErq, HE5q. }
      { intros p' Hne. unfold Er. destruct (decide (p' = p)) as [->|Hne'].
        - done.
        - rewrite Hother by done. by apply HE5. }
      rewrite HErq in Hc1. fold n in Hc1. rewrite Hl1. split; [done|].
      intros p' es' e' HE' He'. destruct (Hin1 _ _ _ HE' He') as [?|(_ & es0 & HEr & He0)];
        [by left|]. right.
      destruct (Hinr _ _ _ HEr He0) as (_ & es1 & ? & ?). by exists es1.
    - subst w1. rewrite Hl5.
      destruct (push_consistent (entity_columns w) (entity_columns w5) _ q e _ Hc Hloc Harch
                  HE5q HE5) as [Hc1 Hin1].
      split; [done|]. intros p' es' e' HE' He'.
      destruct (Hin1 _ _ _ HE' He') as [?|(_ & es0 & ? & ?)]; [by left|].
      right. by exists es0. }
  destruct Hfinal as [Hc' Hin']. simpl_world.
  split_and!.
  - done.
  - done.
  - intros p' es' e' HE' He'. unfold entity_columns in HE'. simpl_world.
    assert (Hsame : ∀ e0, alive e0 (set_locations w1
                (<[N.to_nat (id e) := mkLocation (Some q) n]> (entity_locations_ w1)))
              = alive e0 w).
    { intros e0. apply alive_generations. simpl_world. done. }
    rewrite Hsame, Hf.
    destruct (Hin' _ _ _ HE' He') as [->|(es0 & HE0 & He0)]; [done|].
    by eapply HA.
  - simpl_world. by rewrite Hg, Hf.
  - simpl_world. rewrite Hg. rewrite length_insert in Hlen |- *. by rewrite Hlen.
Qed.

Lemma create_unsafe_ids w e w' :
  create_unsafe w = Ret (e, w') →
  ((id e ∈ free_ids_ w ∧ generations_ w' = generations_ w) ∨
   (free_ids_ w = [] ∧ id e = uint32_wrap (N.of_nat (length (generations_ w))) ∧
    generations_ w' = generations_ w ++ [0%N])) ∧
  (∀ i, i ∈ free_ids_ w' → i ∈ free_ids_ w) ∧
  (∀ j l, entity_locations_ w' !! j = Some l →
     l = mkLocation None 0 ∨ entity_locations_ w !! j = Some l) ∧
  length (entity_locations_ w) ≤ length (entity_locations_ w') ∧
  N.to_nat (id e) < length (entity_locations_ w').
Proof.
  unfold create_unsafe. intros H.
  set (iw := match last (free_ids_ w) with
             | Some i => (i, set_free_ids w (removelast (free_ids_ w)))
             | None => (uint32_wrap (N.of_nat (length (generations_ w))),
                        set_generations w (generations_ w ++ [0%N]))
             end) in H.
  assert (Hiw : ((iw.1 ∈ free_ids_ w ∧ generations_ iw.2 = generations_ w) ∨
                 (free_ids_ w = [] ∧
                  iw.1 = uint32_wrap (N.of_nat (length (generations_ w))) ∧
                  generations_ iw.2 = generations_ w ++ [0%N])) ∧
                (∀ i, i ∈ free_ids_ iw.2 → i ∈ free_ids_ w) ∧
                entity_locations_ iw.2 = entity_locations_ w).
  { unfold iw. destruct (last (free_ids_ w)) as [i|] eqn:Hlast; simpl.
    - apply last_Some in Hlast as [fs Hfs]. rewrite Hfs.
      rewrite removelast_app, app_nil_r by done. split_and!; [|set_solver|done].
      left. split; [|done]. set_solver.
    - apply last_None in Hlast. split_and!; [by right|done|done]. }
  destruct iw as [i w1]. simpl in Hiw. destruct Hiw as (Hid & Hfree & Hl).
  apply bind_Ret in H as (g & Hgi & H). apply checked_Ret in Hgi.
  apply bind_Ret in H as (locs2 & Hassign & H). injection H as <- <-.
  apply assign_Ret in Hassign as [Hlt ->]. simpl_world. rewrite Hl in Hlt |- *.
  split_and!; try done.
  - intros j l Hj. apply list_lookup_insert_Some in Hj as [(_ & <- & _)|[Hne Hj]]; [by left|].
    destruct (decide (length (entity_locations_ w) ≤ N.to_nat i)) as [Hle|Hle]; [|by right].
    rewrite length_resize in Hlt.
    destruct (decide (j < length (entity_locations_ w))) as [Hjl|Hjl].
    + right. apply lookup_lt_Some in Hj as Hjn. rewrite length_resize in Hjn.
      by rewrite lookup_resize in Hj by done.
    + left. apply lookup_lt_Some in Hj as Hjn. rewrite length_resize in Hjn.
      rewrite lookup_resize_new in Hj by lia. by injection Hj as <-.
  - rewrite length_insert.
    destruct (decide (length (entity_locations_ w) ≤ N.to_nat i)); [|done].
    rewrite length_resize in Hlt |- *. lia.
  - by rewrite length_insert.
Qed.

Lemma create_unsafe_ok w e w' :
  world_ok w → (N.of_nat (length (generations_ w)) < 2 ^ 32)%N →
  create_unsafe w = Ret (e, w') →
  world_ok w' ∧ length (generations_ w') ≤ S (length (generations_ w)).
Proof.
  intros (Hinv & [HD HL] & HA & HF & HG) Hmax H.
  destruct (create_unsafe_inv _ _ _ H) as (Harchs & _ & Hge & Hgs & Hle & Hfwd).
  destruct (create_unsafe_ids _ _ _ H) as (Hcase & Hfree & Hback & Hlen & Hlt).
  assert (HE : ∀ p, entity_columns w' p = entity_columns w p).
  { intros p. unfold entity_columns. by rewrite Harchs. }
  assert (Hfresh : ∀ p es e', entity_columns w p = Some es → e' ∈ es → id e' ≠ id e).
  { intros p es e' HEp He' Hid. destruct (HA _ _ _ HEp He') as [Ha Hnf].
    destruct Hcase as [[Hin _]|(_ & Hnew & _)].
    - apply Hnf. by rewrite Hid.
    - apply alive_generation, lookup_lt_Some in Ha.
      rewrite Hid, Hnew in Ha. unfold uint32_wrap in Ha. rewrite N.mod_small in Ha by done.
      lia. }
  split.
  - split_and!.
    + unfold row_parity. by rewrite Harchs.
    + split.
      * intros p es r e' HEp Hr. rewrite HE in HEp.
        destruct (Hfwd _ _ (HD _ _ _ _ HEp Hr)) as [?|[Heq _]]; [done|].
        exfalso. apply (Hfresh _ _ _ HEp (list_elem_of_lookup_2 _ _ _ Hr)). lia.
      * intros i p r Hi. destruct (Hback _ _ Hi) as [?|Hi']; [done|].
        destruct (HL _ _ _ Hi') as (es & e1 & ? & ? & ?). exists es, e1. by rewrite HE.
    + intros p es e' HEp He'. rewrite HE in HEp. destruct (HA _ _ _ HEp He') as [Ha Hnf].
      split; [by eapply create_unsafe_keeps_alive|]. intros Hin. by apply Hnf, Hfree.
    + destruct Hcase as [[_ Hg]|(Hnil & _ & Hg)]; rewrite Hg.
      * rewrite Forall_forall in HF |- *. intros i Hi. by apply HF, Hfree.
      * apply Forall_forall. intros i Hi. apply Hfree in Hi. rewrite Hnil in Hi.
        by apply elem_of_nil in Hi.
    + destruct Hcase as [[_ Hg]|(_ & Hnew & Hg)]; rewrite Hg.
      * lia.
      * rewrite length_app. simpl. rewrite Hnew in Hlt. unfold uint32_wrap in Hlt.
        rewrite N.mod_small in Hlt by done. lia.
  - destruct Hcase as [[_ Hg]|(_ & _ & Hg)]; rewrite Hg; [lia|].
    rewrite length_app. simpl. lia.
Qed.

Lemma create_batch_loop_ok n w es w' :
  world_ok w → (N.of_nat (length (generations_ w) + n) ≤ 2 ^ 32)%N →
  create_batch_loop n w = Ret (es, w') → world_ok w'.
Proof.
  revert w es w'. induction n as [|n IH]; intros w es w' Hok Hmax H; simpl in H.
  - by injection H as <- <-.
  - apply bind_Ret in H as ([e w1] & H1 & H).
    apply bind_Ret in H as ([es1 w2] & H2 & H). injection H as <- <-.
    destruct (create_unsafe_ok _ _ _ Hok ltac:(lia) H1) as [Hok1 Hlen].
    apply (IH _ _ _ Hok1 ltac:(lia) H2).
Qed.

Lemma store_ok q v w w' : world_ok w → store q v w = Ret w' → world_ok w'.
Proof.
  intros (Hinv & Hc & HA & HF & HG) H.
  pose proof (store_parity _ _ _ _ Hinv H) as Hinv'.
  unfold store in H.
  apply bind_Ret in H as (a & Ha & H). apply checked_Ret in Ha.
  apply bind_Ret in H as (vec & _ & H). apply bind_Ret in H as (vec' & _ & H).
  injection H as <-.
  assert (HE : ∀ p, entity_columns
            (set_archetypes w (<[ptr_arch q := set_components a
                                   (<[ptr_component q := vec']> (components a))]>
                                 (archetypes_ w))) p = entity_columns w p).
  { intros p. unfold entity_columns. simpl_world.
    destruct (decide (p = ptr_arch q)) as [->|Hne].
    - by rewrite lookup_insert_eq, Ha.
    - by rewrite lookup_insert_ne. }
  split_and!; try done.
  - destruct Hc as [HD HL]. split.
    + intros p es r e HEp Hr. rewrite HE in HEp. by eapply HD.
    + intros i p r Hi. destruct (HL _ _ _ Hi) as (es & e1 & ? & ? & ?).
      exists es, e1. by rewrite HE.
  - intros p es e HEp He. rewrite HE in HEp. by eapply HA.
Qed.

Lemma handlers_ok w h : world_ok w → world_ok (set_handlers w h).
Proof. by intros (? & ? & ? & ? & ?). Qed.

(** One careful operation keeps a World in good order. *)
Lemma step_ok op w w' :
  world_ok w → careful op w = true → step op w = Ret w' → world_ok w'.
Proof.
  intros Hok Hcareful H. unfold step in H. case_decide as Hids; [|done].
  unfold careful in Hcareful. apply andb_true_iff in Hcareful as [_ Hcareful].
  destruct op; simpl in Hids.
  - apply fmap_Ret in H as ([e w1] & H & ->). apply bool_decide_eq_true in Hcareful.
    by eapply create_unsafe_ok; [done|lia|].
  - by eapply destroy_unsafe_ok.
  - apply fmap_Ret in H as ([w1 calls] & H & ->).
    apply andb_true_iff in Hcareful as [Hlive Hchg]. by eapply migrate_ok.
  - apply fmap_Ret in H as ([w1 calls] & H & ->). unfold add_value in H.
    apply andb_true_iff in Hcareful as [Hlive Hchg].
    apply bind_Ret in H as ([w2 calls2] & Hm & H).
    pose proof (migrate_ok _ _ _ _ _ _ Hok Hids Hlive Hchg Hm) as Hok2.
    apply bind_Ret in H as ([q|] & _ & H).
    + apply bind_Ret in H as (w3 & Hs & H). injection H as <- <-. simpl.
      by eapply store_ok.
    + by injection H as <- <-.
  - apply fmap_Ret in H as ([w1 calls] & H & ->).
    apply andb_true_iff in Hcareful as [Hlive Hchg]. by eapply migrate_ok.
  - apply fmap_Ret in H as ([es w1] & H & ->). apply bool_decide_eq_true in Hcareful.
    eapply create_batch_loop_ok; [done| |done]. lia.
  - by eapply destroy_batch_ok.
  - injection H as <-. by apply handlers_ok.
  - injection H as <-. by apply handlers_ok.
  - by eapply store_ok.
Qed.

Lemma World_new_ok : world_ok World_new.
Proof.
  split_and!.
  - apply World_new_parity.
  - split.
    + intros p es r e HE. unfold entity_columns in HE. simpl in HE.
      by rewrite lookup_empty in HE.
    + intros i p r Hi. simpl in Hi. by rewrite lookup_nil in Hi.
  - intros p es e HE. unfold entity_columns in HE. simpl in HE. by rewrite lookup_empty in HE.
  - constructor.
  - done.
Qed.

(** In a World in good order the directory can be followed for every
    alive handle. *)
Lemma world_ok_placed w e : world_ok w → alive e w = true → placed w e.
Proof.
  intros Hok Halive. pose proof Hok as (_ & [HD _] & _ & _ & HG).
  apply alive_generation in Halive as Hg. apply lookup_lt_Some in Hg.
  destruct (lookup_lt_is_Some_2 (entity_locations_ w) (N.to_nat (id e))) as [loc Hloc]; [lia|].
  exists loc. split; [done|]. destruct (arch loc) as [p|] eqn:Harch; [|done].
  destruct (alive_entry_stored _ _ _ _ Hok Halive Hloc Harch) as (es & HE & He).
  unfold entity_columns in HE. destruct (archetypes_ w !! p) as [a|] eqn:Ha; [|done].
  injection HE as <-.
  destruct (last (entities a)) as [el|] eqn:Hlast.
  - exists a, el. split_and!; try done.
    rewrite last_lookup in Hlast.
    assert (HEp : entity_columns w p = Some (entities a)).
    { unfold entity_columns. by rewrite Ha. }
    apply (HD _ _ _ _ HEp) in Hlast. by eapply lookup_lt_Some.
  - apply last_None in Hlast. rewrite Hlast in He. by rewrite lookup_nil in He.
Qed.

(** ** Careful operations are defined *)

Lemma create_unsafe_total w :
  Forall (λ i, N.to_nat i < length (generations_ w)) (free_ids_ w) →
  (N.of_nat (length (generations_ w)) < 2 ^ 32 - 1)%N →
  ∃ e w', create_unsafe w = Ret (e, w').
Proof.
  intros Hfree Hmax. unfold create_unsafe.
  destruct (last (free_ids_ w)) as [i|] eqn:Hlast.
  - apply last_Some in Hlast as [fs Hfs]. rewrite Hfs in Hfree.
    rewrite Forall_app, Forall_singleton in Hfree. destruct Hfree as [_ Hi].
    destruct (lookup_lt_is_Some_2 (generations_ w) (N.to_nat i) Hi) as [g Hg].
    unfold at_. simpl_world. rewrite Hg. simpl.
    unfold assign. rewrite decide_True; [simpl; by do 2 eexists|].
    case_decide; [rewrite length_resize|]; [|lia].
    unfold uint32_wrap. rewrite N.mod_small by lia. lia.
  - unfold at_. simpl_world.
    assert (Hw : uint32_wrap (N.of_nat (length (generations_ w)))
                 = N.of_nat (length (generations_ w))).
    { unfold uint32_wrap. apply N.mod_small. lia. }
    rewrite Hw, Nat2N.id, lookup_app_r, Nat.sub_diag by done. simpl.
    unfold assign. rewrite decide_True; [simpl; by do 2 eexists|].
    case_decide; [rewrite length_resize|]; [|lia].
    unfold uint32_wrap. rewrite N.mod_small by lia. lia.
Qed.

Lemma destroy_unsafe_total e w :
  world_ok w → careful_destroy e w = true → ∃ w', destroy_unsafe e w = Ret w'.
Proof.
  intros Hok Hcareful. destruct (alive e w) eqn:Halive.
  2:{ exists w. by apply destroy_unsafe_stale. }
  unfold careful_destroy in Hcareful. rewrite Halive in Hcareful. simpl in Hcareful.
  apply bool_decide_eq_true in Hcareful as [a0 Hea].
  destruct (world_ok_placed _ _ Hok Halive) as (loc & Hloc & Hpl).
  unfold entity_archetype in Hea. rewrite Hloc in Hea. simpl in Hea.
  destruct (arch loc) as [p|] eqn:Harch; [|done]. simpl in Hea.
  destruct Hpl as (a & el & Ha & He & Hlast & Hel). rewrite Hea in Ha. injection Ha as <-.
  destruct (remove_from_archetype_total e p (index loc) w a0 el) as [w0 Hw0]; try done.
  { by apply (proj1 Hok). } { by eapply lookup_lt_Some. } { by eapply lookup_lt_Some. }
  apply alive_generation in Halive as Hg.
  unfold destroy_unsafe. change (alive_unsafe e w) with (alive e w).
  rewrite Halive. unfold at_. rewrite Hloc. simpl. rewrite Harch. simpl. rewrite Hw0. simpl.
  apply remove_from_archetype_inv in Hw0
    as (? & ? & ? & ? & ? & _ & _ & _ & _ & _ & _ & _ & ->).
  simpl_world. rewrite Hg. simpl. by eexists.
Qed.

Lemma changes_key_ne Cs e (adding : bool) w :
  Forall component_id_ok Cs → changes_key adding Cs e w = true →
  (if adding then Key.add_all (entity_key w e) Cs
   else Key.remove_all (entity_key w e) Cs) ≠ entity_key w e.
Proof.
  intros HCs Hchg Heq. unfold changes_key in Hchg.
  destruct adding; apply existsb_exists in Hchg as (c & Hc & Hh);
    apply list_elem_of_In in Hc.
  - assert (Key.has (Key.add_all (entity_key w e) Cs) c = true) as Hh'.
    { rewrite has_add_all, bool_decide_eq_true_2 by done. apply orb_true_r. }
    rewrite Heq in Hh'. by rewrite Hh' in Hh.
  - assert (c < 64)%N as Hc64 by (rewrite Forall_forall in HCs; by apply HCs).
    assert (Key.has (Key.remove_all (entity_key w e) Cs) c = false) as Hh'.
    { rewrite has_remove_all, bool_decide_eq_true_2 by done. apply andb_false_r. }
    rewrite Heq in Hh'. congruence.
Qed.

Lemma migrate_total Cs e (adding : bool) w :
  world_ok w → Forall component_id_ok Cs →
  live e w = true → changes_key adding Cs e w = true →
  ∃ w' calls, migrate Cs e adding w = Ret (w', calls).
Proof.
  intros Hok HCs Hlive Hchg. apply andb_true_iff in Hlive as [Halive _].
  destruct (migrate_moves Cs e adding w _ (proj1 Hok) HCs (world_ok_placed _ _ Hok Halive)
              eq_refl) as (w' & calls & Hm & _).
  { intros _. by apply (changes_key_ne Cs e adding w). }
  by exists w', calls.
Qed.

Lemma add_value_total c e v w :
  world_ok w → component_id_ok c →
  live e w = true → changes_key true [c] e w = true →
  ∃ w' calls, add_value c e v w = Ret (w', calls).
Proof.
  intros Hok Hc Hlive Hchg.
  assert (HCs : Forall component_id_ok [c]) by (by apply Forall_singleton).
  destruct (migrate_total [c] e true w Hok HCs Hlive Hchg) as (w1 & calls & Hm).
  pose proof (migrate_ok _ _ _ _ _ _ Hok HCs Hlive Hchg Hm) as Hok1.
  apply andb_true_iff in Hlive as [Halive _].
  destruct (migrate_keeps _ _ _ _ _ _ Hm) as (Hg & _).
  assert (Halive1 : alive e w1 = true) by (by rewrite (alive_generations e w w1)).
  destruct (migrate_moves [c] e true w _ (proj1 Hok) HCs (world_ok_placed _ _ Hok Halive)
              eq_refl) as (w1' & calls' & Hm' & _ & _ & _ & Hk1 & _).
  { intros _. by apply (changes_key_ne [c] e true w). }
  rewrite Hm in Hm'. injection Hm' as <- <-.
  assert (Hhc : Key.has (entity_key w1 e) c = true).
  { rewrite Hk1, has_add_all, bool_decide_eq_true_2 by (by apply list_elem_of_singleton).
    apply orb_true_r. }
  destruct (store_own_cell c e v w1 (proj1 Hok1) Halive1 (world_ok_placed _ _ Hok1 Halive1)
              Hc Hhc) as (q & w2 & Hget & Hstore & _).
  exists w2, calls. unfold add_value. rewrite Hm. simpl.
  change (get_unsafe c e w1) with (get c e w1). rewrite Hget. simpl. by rewrite Hstore.
Qed.

Lemma create_batch_loop_total n w :
  world_ok w → (N.of_nat (length (generations_ w) + n) < 2 ^ 32)%N →
  ∃ es w', create_batch_loop n w = Ret (es, w').
Proof.
  revert w. induction n as [|n IH]; intros w Hok Hmax; simpl.
  - by do 2 eexists.
  - pose proof Hok as (_ & _ & _ & HF & _).
    destruct (create_unsafe_total w HF ltac:(lia)) as (e & w1 & H1). rewrite H1. simpl.
    destruct (create_unsafe_ok _ _ _ Hok ltac:(lia) H1) as [Hok1 Hlen].
    destruct (IH w1 Hok1 ltac:(lia)) as (es & w' & H2). rewrite H2. simpl.
    by do 2 eexists.
Qed.

Lemma destroy_batch_total es w :
  world_ok w → careful_destroys es w = true → ∃ w', destroy_batch es w = Ret w'.
Proof.
  revert w. induction es as [|e es IH]; intros w Hok Hcareful; simpl in *.
  - by eexists.
  - apply andb_true_iff in Hcareful as [Hc1 Hrest].
    destruct (destroy_unsafe_total e w Hok Hc1) as [w1 H1]. rewrite H1 in Hrest |- *.
    simpl. apply IH; [|done]. by eapply destroy_unsafe_ok.
Qed.

Lemma store_total q v w :
  (∃ x, load q w = Ret x) → ∃ w', store q v w = Ret w'.
Proof.
  intros [x H]. unfold load in H. unfold store.
  apply bind_Ret in H as (a & Ha & H). apply bind_Ret in H as (vec & Hvec & H).
  apply checked_Ret in H. rewrite Ha. simpl. rewrite Hvec. simpl. unfold assign.
  rewrite decide_True by (by eapply lookup_lt_Some). simpl. by eexists.
Qed.

(** One careful operation on a World in good order returns. *)
Lemma step_total op w :
  world_ok w → careful op w = true → ∃ w', step op w = Ret w'.
Proof.
  intros Hok Hcareful. unfold careful in Hcareful.
  apply andb_true_iff in Hcareful as [Hids Hcareful]. apply bool_decide_eq_true in Hids.
  unfold step. rewrite decide_True by done. destruct op; simpl in Hids.
  - apply bool_decide_eq_true in Hcareful. pose proof Hok as (_ & _ & _ & HF & _).
    destruct (create_unsafe_total w HF Hcareful) as (e & w' & H).
    exists w'. unfold create. by rewrite H.
  - by apply destroy_unsafe_total.
  - apply andb_true_iff in Hcareful as [Hlive Hchg].
    destruct (migrate_total Cs e true w Hok Hids Hlive Hchg) as (w' & calls & H).
    exists w'. unfold add. by rewrite H.
  - apply andb_true_iff in Hcareful as [Hlive Hchg].
    rewrite Forall_singleton in Hids.
    destruct (add_value_total c e v w Hok Hids Hlive Hchg) as (w' & calls & H).
    exists w'. by rewrite H.
  - apply andb_true_iff in Hcareful as [Hlive Hchg].
    destruct (migrate_total Cs e false w Hok Hids Hlive Hchg) as (w' & calls & H).
    exists w'. unfold remove. by rewrite H.
  - apply bool_decide_eq_true in Hcareful.
    destruct (create_batch_loop_total count w Hok Hcareful) as (es & w' & H).
    exists w'. unfold create_batch. by rewrite H.
  - by apply destroy_batch_total.
  - by eexists.
  - by eexists.
  - apply store_total. destruct (load q w) as [x|]; [by exists x|done].
Qed.

Lemma careful_run_ok ops w0 :
  world_ok w0 → careful_run ops w0 = true → ∃ w, run ops w0 = Ret w ∧ world_ok w.
Proof.
  revert w0. induction ops as [|op ops IH]; intros w0 Hok Hcareful; simpl in *.
  - by exists w0.
  - apply andb_true_iff in Hcareful as [Hop Hrest].
    destruct (step_total op w0 Hok Hop) as [w1 H1]. rewrite H1 in Hrest |- *. simpl.
    apply IH; [|done]. by eapply step_ok.
Qed.

Lemma world_careful_ok : world_ok world_careful.
Proof.
  destruct (careful_run_ok ops_careful World_new World_new_ok) as (w & Hw & Hok);
    [by vm_compute|].
  unfold world_careful. by rewrite Hw.
Qed.

(** X28.  Careful use never runs into undefined behaviour and keeps the
    World in good order.  Over any sequence of public operations from the
    empty World in which component ids are below [RECS_MAX_COMPONENTS], ids
    stay within [uint32_t], [destroy] is given stale handles or entities
    that have an archetype, [add] and [remove] are given live handles and
    change the component set, and writes go through valid pointers: every
    operation returns, and afterwards row parity holds, the directory and
    the entity columns agree in both directions, every stored entity is
    alive and its id is not free, and for every alive handle the directory
    can be followed and, when it names an archetype, names the row that
    holds the entity. *)
Theorem careful_use_is_defined_and_keeps_order (ops : list Op) :
  careful_run ops World_new = true →
  ∃ w, run ops World_new = Ret w ∧
    world_ok w ∧
    (∀ e, alive e w = true → placed w e) ∧
    (∀ e, alive e w = true → is_Some (entity_archetype w e) → directory_consistent w e).
Proof.
  intros Hcareful.
  destruct (careful_run_ok ops World_new World_new_ok Hcareful) as (w & Hw & Hok).
  exists w. split_and!; try done.
  - intros e. by apply world_ok_placed.
  - intros e Halive [a Hea].
    destruct (world_ok_placed _ _ Hok Halive) as (loc & Hloc & Hpl).
    unfold entity_archetype in Hea. unfold directory_consistent.
    rewrite Hloc in Hea |- *. simpl in Hea. destruct loc as [[p|] row]; simpl in *; [|done].
    destruct Hpl as (a' & el & -> & He & _). done.
Qed.

(** The sequence [ops_careful]. *)
Lemma careful_use_is_defined_and_keeps_order_witness :
  ∃ w, run ops_careful World_new = Ret w ∧
    world_ok w ∧
    (∀ e, alive e w = true → placed w e) ∧
    (∀ e, alive e w = true → is_Some (entity_archetype w e) → directory_consistent w e).
Proof. apply careful_use_is_defined_and_keeps_order. by vm_compute. Defined.

(** ** The rows of [parallel_for_each_chunk] *)

Lemma mapR_app {A B} (f : A → Result B) (l1 l2 : list A) :
  mapR f (l1 ++ l2) = ys1 ← mapR f l1; ys2 ← mapR f l2; Ret (ys1 ++ ys2).
Proof.
  induction l1 as [|x l1 IH]; simpl.
  - by destruct (mapR f l2).
  - destruct (f x) as [y|]; simpl; [|done]. rewrite IH.
    destruct (mapR f l1) as [ys1|]; simpl; [|done].
    by destruct (mapR f l2).
Qed.

Lemma mapR_fmap_l {A A' B} (f : A' → Result B) (g : A → A') (l : list A) :
  mapR f (g <$> l) = mapR (λ x, f (g x)) l.
Proof.
  induction l as [|x l IH]; [done|]. rewrite fmap_cons. cbn [mapR]. by rewrite IH.
Qed.

Lemma mapR_proj {A B C} (f1 f2 : A → Result B) (proj : B → C) (l : list A) (ys : list B) :
  (∀ x y, x ∈ l → f1 x = Ret y → ∃ y', f2 x = Ret y' ∧ proj y' = proj y) →
  mapR f1 l = Ret ys → ∃ ys', mapR f2 l = Ret ys' ∧ proj <$> ys' = proj <$> ys.
Proof.
  revert ys. induction l as [|x l IH]; intros ys Hf H; simpl in H.
  - injection H as <-. by exists [].
  - apply bind_Ret in H as (y & Hy & H). apply bind_Ret in H as (ys0 & Hys & H).
    injection H as <-.
    destruct (Hf x y) as (y' & Hy' & Hp); [by left|done|].
    destruct (IH ys0) as (ys' & Hys' & Hps); [|done|].
    { intros x0 y0 H0. apply Hf. by right. }
    exists (y' :: ys'). cbn [mapR]. rewrite Hy'. simpl. rewrite Hys'. simpl.
    split; [done|]. f_equal; [done|]. exact Hps.
Qed.

Lemma dispatch_chunks_app Cs wk1 wk2 w :
  dispatch_chunks Cs (wk1 ++ wk2) w
  = chs1 ← dispatch_chunks Cs wk1 w; chs2 ← dispatch_chunks Cs wk2 w; Ret (chs1 ++ chs2).
Proof.
  induction wk1 as [|[[p s] c] wk1 IH]; simpl.
  - by destruct (dispatch_chunks Cs wk2 w).
  - destruct (deref p (archetypes_ w)) as [a|]; simpl; [|done].
    destruct (mapR (λ c0, get_array c0 a) Cs) as [base|]; simpl; [|done].
    rewrite IH. destruct (dispatch_chunks Cs wk1 w) as [chs1|]; simpl; [|done].
    by destruct (dispatch_chunks Cs wk2 w).
Qed.

Lemma chunks_rows_app chs1 chs2 :
  chunks_rows (chs1 ++ chs2)
  = vs1 ← chunks_rows chs1; vs2 ← chunks_rows chs2; Ret (vs1 ++ vs2).
Proof.
  induction chs1 as [|ch chs1 IH]; simpl.
  - by destruct (chunks_rows chs2).
  - destruct (chunk_rows ch) as [vs|]; simpl; [|done]. rewrite IH.
    destruct (chunks_rows chs1) as [vs1|]; simpl; [|done].
    destruct (chunks_rows chs2) as [vs2|]; simpl; [|done]. by rewrite (assoc_L (++)).
Qed.

(** The rows a chunk callback reaches from the advanced base pointers are
    the rows of the archetype from [start] on. *)
Lemma chunk_rows_offset Cs p a base start count :
  mapR (λ c, get_array c a) Cs = Ret base →
  chunk_rows (mkChunk p (drop start <$> base) count)
  = mapR (λ i, args ← row_args Cs a (start + i); Ret (mkVisit p i args)) (seq 0 count).
Proof.
  intros Hbase. unfold chunk_rows. simpl. apply mapR_ext. intros i _.
  rewrite (row_args_base _ _ _ _ Hbase), mapR_fmap_l.
  f_equal. apply mapR_ext. intros col _. by rewrite lookup_drop.
Qed.

(** The chunks of one archetype. *)
Lemma chunks_of_archetype Cs w p a base (wk : list (N * nat * nat)) vs :
  archetypes_ w !! p = Some a →
  mapR (λ c, get_array c a) Cs = Ret base →
  Forall (λ ch, ch.1.1 = p) wk →
  mapR (λ i, args ← row_args Cs a i; Ret (mkVisit p i args)) (mjoin (chunk_range <$> wk))
    = Ret vs →
  ∃ chs vs',
    dispatch_chunks Cs wk w = Ret chs ∧ chunks_rows chs = Ret vs' ∧
    (λ v, (visit_arch v, visit_args v)) <$> vs' = (λ v, (visit_arch v, visit_args v)) <$> vs ∧
    chunk_count <$> chs = snd <$> wk.
Proof.
  intros Ha Hbase. revert vs. induction wk as [|[[p0 s] c] wk IH]; intros vs Hp H.
  - injection H as <-. by exists [], [].
  - apply Forall_cons in Hp as [Hp0 Hp]. simpl in Hp0. subst p0.
    rewrite fmap_cons in H. change (mjoin (?x :: ?l)) with (x ++ mjoin l) in H.
    rewrite mapR_app in H. apply bind_Ret in H as (vs1 & H1 & H).
    apply bind_Ret in H as (vs2 & H2 & H). injection H as <-.
    destruct (IH vs2 Hp H2) as (chs & vs2' & Hd & Hr & Hproj & Hcount).
    unfold chunk_range in H1. cbn [fst snd] in H1.
    replace (seq s c) with (Nat.add s <$> seq 0 c) in H1
      by (rewrite fmap_add_seq; f_equal; lia).
    rewrite mapR_fmap_l in H1.
    eapply (mapR_proj _ (λ i, args ← row_args Cs a (s + i); Ret (mkVisit p i args))
              (λ v, (visit_arch v, visit_args v))) in H1 as (vs1' & H1' & Hproj1).
    2:{ intros i y _ Hy. apply bind_Ret in Hy as (args & Hargs & Hy). injection Hy as <-.
        rewrite Hargs. simpl. by eexists. }
    exists (mkChunk p (drop s <$> base) c :: chs), (vs1' ++ vs2').
    split_and!.
    + cbn [dispatch_chunks]. unfold deref. rewrite Ha. simpl. rewrite Hbase. simpl.
      by rewrite Hd.
    + cbn [chunks_rows]. rewrite (chunk_rows_offset _ _ _ _ _ _ Hbase), H1'. simpl.
      by rewrite Hr.
    + by rewrite !fmap_app, Hproj1, Hproj.
    + rewrite !fmap_cons. by rewrite Hcount.
Qed.

(** X29.  [parallel_for_each_chunk<Cs...>] reaches, through the advanced
    base pointers and the counts it passes to [fn], the rows that
    [for_each<Cs...>] visits: in a World with row parity both return, and
    the rows of the chunks, taken in order, carry the same archetypes and
    the same component values as the calls of [for_each]; no chunk is empty
    or has more than 4096 rows. *)
Theorem parallel_chunks_reach_the_rows_of_for_each (Cs : list N) (w : World) :
  Forall component_id_ok Cs → row_parity w →
  ∃ vs chs vs',
    for_each Cs w = Ret vs ∧
    dispatch_chunks Cs (chunk_work Cs w) w = Ret chs ∧
    chunks_rows chs = Ret vs' ∧
    (λ v, (visit_arch v, visit_args v)) <$> vs' = (λ v, (visit_arch v, visit_args v)) <$> vs ∧
    Forall (λ ch, 0 < chunk_count ch ≤ chunk_size) chs.
Proof.
  intros HCs Hinv. unfold for_each, chunk_work.
  assert (Hl : ∀ p a, (p, a) ∈ map_to_list (archetypes_ w) →
            archetypes_ w !! p = Some a ∧ archetype_ok p a).
  { intros p a H. apply elem_of_map_to_list in H. split; [done|]. by apply Hinv. }
  induction (map_to_list (archetypes_ w)) as [|[p a] l IH].
  - exists [], [], []. by split_and!.
  - destruct IH as (vs & chs & vs' & Hfe & Hd & Hr & Hproj & Hbound).
    { intros p0 a0 H0. apply Hl. by right. }
    destruct (Hl p a) as [Ha Hok]; [by left|].
    cbn [visit_archetypes fmap list_fmap].
    change (mjoin (?x :: ?l)) with (x ++ mjoin l).
    destruct (includes a (required Cs)) eqn:Hincl; cbn [negb].
    + destruct (each_row_total p a Cs Hok HCs Hincl) as [vsa Hvsa].
      rewrite Hvsa. simpl. rewrite Hfe. simpl.
      destruct (decide (entities a = [])) as [Hnil|Hne].
      * unfold each_row in Hvsa. rewrite Hnil in Hvsa. injection Hvsa as <-.
        exists vs, chs, vs'. by split_and!.
      * destruct (columns_present p a Cs Hok HCs Hincl) as (base & Hbase & _).
        destruct (subdivide_loop_cover (length (entities a)) p 0 (length (entities a)))
          as [Hcover Hchunks]; [lia|].
        rewrite Nat.sub_0_r in Hcover. rewrite <-subdivide_eq_loop in Hcover, Hchunks.
        set (wk := subdivide p (length (entities a))) in *. clearbody wk.
        unfold each_row in Hvsa. rewrite <-Hcover in Hvsa.
        destruct (chunks_of_archetype Cs w p a base wk vsa
                    Ha Hbase) as (chsa & vsa' & Hda & Hra & Hproja & Hcounta); [|done|].
        { eapply Forall_impl; [exact Hchunks|]. by intros ch (? & _). }
        exists (vsa ++ vs), (chsa ++ chs), (vsa' ++ vs').
        rewrite dispatch_chunks_app, Hda, chunks_rows_app, Hra. simpl.
        rewrite Hd, Hr. simpl. split_and!; try done.
        -- by rewrite !fmap_app, Hproja, Hproj.
        -- apply Forall_app. split; [|done].
           assert (Hc : Forall (λ c, 0 < c ≤ chunk_size) (snd <$> wk)).
           { apply Forall_fmap. eapply Forall_impl; [exact Hchunks|].
             by intros ch (_ & ? & _). }
           rewrite <-Hcounta in Hc. by apply Forall_fmap in Hc.
    + simpl. rewrite Hfe. simpl. exists vs, chs, vs'. by split_and!.
Qed.

(** Component 0 on [world_three]: one chunk of three rows. *)
Lemma parallel_chunks_reach_the_rows_of_for_each_witness :
  ∃ vs chs vs',
    for_each [0%N] world_three = Ret vs ∧
    dispatch_chunks [0%N] (chunk_work [0%N] world_three) world_three = Ret chs ∧
    chunks_rows chs = Ret vs' ∧
    (λ v, (visit_arch v, visit_args v)) <$> vs' = (λ v, (visit_arch v, visit_args v)) <$> vs ∧
    Forall (λ ch, 0 < chunk_count ch ≤ chunk_size) chs.
Proof.
  apply parallel_chunks_reach_the_rows_of_for_each.
  - apply ids_ok_0.
  - apply (bool_decide_unpack _). by vm_compute.
Defined.

(** ** Iteration and entities *)

Lemma has_includes a Cs :
  (mask (key a) < 2 ^ 64)%N → Forall component_id_ok Cs →
  (∀ c, c ∈ Cs → Key.has (key a) c = true) → includes a (required Cs) = true.
Proof.
  intros Hb HCs Hall. unfold includes, required. apply bool_decide_eq_true.
  apply N.bits_inj. intros c. rewrite N.land_spec.
  rewrite <-!has_testbit. rewrite has_add_all, has_empty. simpl.
  destruct (decide (c ∈ Cs)) as [Hc|Hc].
  - rewrite (bool_decide_eq_true_2 _ Hc), (Hall c Hc). done.
  - rewrite (bool_decide_eq_false_2 _ Hc). apply andb_false_r.
Qed.

Lemma mapR_Forall2 {A B} (f : A → Result B) (l : list A) (ys : list B) :
  mapR f l = Ret ys → Forall2 (λ x y, f x = Ret y) l ys.
Proof.
  revert ys. induction l as [|x l IH]; intros ys H; simpl in H.
  - injection H as <-. constructor.
  - apply bind_Ret in H as (y & Hy & H). apply bind_Ret in H as (ys0 & Hys & H).
    injection H as <-. constructor; [done|by apply IH].
Qed.

(** The entity at a row of a World in good order. *)
Lemma stored_entity w p a r e :
  world_ok w → archetypes_ w !! p = Some a → entities a !! r = Some e →
  alive e w = true ∧ placed w e ∧
  entity_locations_ w !! N.to_nat (id e) = Some (mkLocation (Some p) r) ∧
  entity_archetype w e = Some a.
Proof.
  intros Hok Ha Hr. pose proof Hok as (_ & [HD _] & HA & _ & _).
  assert (HE : entity_columns w p = Some (entities a)).
  { unfold entity_columns. by rewrite Ha. }
  destruct (HA _ _ _ HE (list_elem_of_lookup_2 _ _ _ Hr)) as [Halive _].
  pose proof (HD _ _ _ _ HE Hr) as Hloc.
  split_and!; [done|by apply world_ok_placed|done|].
  by eapply entity_archetype_Some.
Qed.

(** X30.  In a World in good order [for_each<Cs...>(fn)] returns and calls
    [fn] exactly once for every alive entity that has an archetype and all
    of the components [Cs], and for nothing else: every call is for the row
    of an alive entity that has all of [Cs], with the values that
    [get<C>(e)] reads as its arguments; every such entity gets a call; and
    no entity gets two: the entities of the calls, listed call by call,
    are without repetition. *)
Theorem for_each_visits_each_entity_once (Cs : list N) (w : World) :
  world_ok w → Forall component_id_ok Cs →
  ∃ vs, for_each Cs w = Ret vs ∧
    (∀ v, v ∈ vs →
       ∃ e, visit_entity w v = Some e ∧ alive e w = true ∧
            Forall2 (λ c x, has c e w = Ret true ∧ read c e w = Ret (Some x))
              Cs (visit_args v)) ∧
    (∀ e, alive e w = true → is_Some (entity_archetype w e) →
       (∀ c, c ∈ Cs → has c e w = Ret true) →
       ∃ v, v ∈ vs ∧ visit_entity w v = Some e) ∧
    NoDup (visit_entity w <$> vs).
Proof.
  intros Hok HCs. pose proof Hok as (Hinv & Hc & _).
  assert (Htotal : ∃ vs, for_each Cs w = Ret vs).
  { unfold for_each. apply visit_archetypes_total. intros p a Hin%elem_of_map_to_list.
    destruct (includes a (required Cs)) eqn:Hincl; simpl; [|by eexists].
    eapply each_row_total; [by apply Hinv|done|done]. }
  destruct Htotal as [vs Hvs]. exists vs. split; [done|].
  assert (Hvisit : ∀ v, v ∈ vs ↔
            ∃ a, archetypes_ w !! visit_arch v = Some a ∧ includes a (required Cs) = true ∧
                 visit_row v < length (entities a) ∧
                 row_args Cs a (visit_row v) = Ret (visit_args v)).
  { intros v. unfold for_each in Hvs. rewrite (visit_archetypes_elem_of _ _ _ Hvs). split.
    - intros (p & a & vs' & Hin%elem_of_map_to_list & Hb & Hv).
      destruct (includes a (required Cs)) eqn:Hincl; simpl in Hb;
        [|injection Hb as <-; by apply elem_of_nil in Hv].
      apply (each_row_elem_of _ _ _ _ Hb) in Hv as (Hp & Hrow & Hargs).
      exists a. by rewrite Hp.
    - intros (a & Ha & Hincl & Hrow & Hargs).
      destruct (each_row_total (visit_arch v) a Cs) as [vs' Hvs']; [by apply Hinv|done..|].
      exists (visit_arch v), a, vs'. split; [by apply elem_of_map_to_list|].
      rewrite Hincl. simpl. split; [done|].
      by apply (each_row_elem_of _ _ _ _ Hvs'). }
  split_and!.
  - intros v (a & Ha & Hincl & Hrow & Hargs)%Hvisit.
    destruct (lookup_lt_is_Some_2 (entities a) (visit_row v) Hrow) as [e He].
    destruct (stored_entity _ _ _ _ _ Hok Ha He) as (Halive & Hpl & Hloc & Hea).
    exists e. split_and!.
    + unfold visit_entity. rewrite Ha. done.
    + done.
    + apply mapR_Forall2 in Hargs.
      assert (Hcs : Forall (λ c, c ∈ Cs) Cs) by (by apply Forall_forall).
      revert Hcs Hargs. generalize (visit_args v) as xs. generalize Cs at 2 3 4 as Cs1.
      intros Cs1 xs Hcs Hargs.
      induction Hargs as [|c x Cs1 xs Hx _ IH]; [constructor|].
      apply Forall_cons in Hcs as [Hin Hcs]. constructor; [|by apply IH].
      assert (Hc64 : (c < 64)%N) by (rewrite Forall_forall in HCs; by apply HCs).
      assert (Hk : Key.has (entity_key w e) c = true).
      { unfold entity_key. rewrite Hea. simpl. by eapply includes_has. }
      rewrite has_entity_key, read_cell by done. rewrite Hk. split; [done|]. f_equal.
      unfold cell. rewrite Hloc, Hea. simpl.
      apply bind_Ret in Hx as (vec & Hvec%checked_Ret & Hx%checked_Ret).
      by rewrite Hvec.
  - intros e Halive [a Hea] Hall.
    destruct (world_ok_placed _ _ Hok Halive) as (loc & Hloc & Hpl).
    unfold entity_archetype in Hea. rewrite Hloc in Hea. simpl in Hea.
    destruct (arch loc) as [p|] eqn:Harch; [|done]. simpl in Hea.
    destruct Hpl as (a' & el & Ha & He & _). rewrite Hea in Ha. injection Ha as <-.
    assert (Hincl : includes a (required Cs) = true).
    { destruct (Hinv _ _ Hea) as (Hm & Hb & _). apply has_includes; [by rewrite Hm|done|].
      intros c Hin. specialize (Hall c Hin).
      rewrite has_entity_key in Hall by (done || by apply world_ok_placed).
      injection Hall as Hall. unfold entity_key, entity_archetype in Hall.
      rewrite Hloc in Hall. simpl in Hall. rewrite Harch in Hall. simpl in Hall.
      by rewrite Hea in Hall. }
    destruct (row_args_total p a Cs (index loc)) as [args Hargs];
      [by apply Hinv|done|done|by eapply lookup_lt_Some|].
    exists (mkVisit p (index loc) args). split.
    + apply Hvisit. exists a. simpl. split_and!; try done. by eapply lookup_lt_Some.
    + unfold visit_entity. simpl. by rewrite Hea.
  - apply NoDup_fmap_2_strong.
    2:{ apply (NoDup_fmap_1 visit_key). unfold for_each in Hvs.
        eapply visit_archetypes_NoDup; [apply NoDup_fst_map_to_list|done|].
        intros p a vs' _. cbn beta.
        destruct (negb _); [intros [= <-]; split; [done|constructor]|].
        apply each_row_NoDup. }
    intros v v' (a & Ha & _ & Hrow & Hargs)%Hvisit (a' & Ha' & _ & Hrow' & Hargs')%Hvisit Heq.
    unfold visit_entity in Heq. rewrite Ha, Ha' in Heq. simpl in Heq.
    destruct (lookup_lt_is_Some_2 (entities a) (visit_row v) Hrow) as [e He].
    rewrite He in Heq. symmetry in Heq.
    assert (HE : entity_columns w (visit_arch v) = Some (entities a)).
    { unfold entity_columns. by rewrite Ha. }
    assert (HE' : entity_columns w (visit_arch v') = Some (entities a')).
    { unfold entity_columns. by rewrite Ha'. }
    destruct (consistent_same_id _ _ _ _ _ _ _ _ _ _ Hc HE He HE' Heq eq_refl) as [Hp Hr].
    rewrite Hp in Ha'. rewrite Ha in Ha'. injection Ha' as <-.
    rewrite Hr in Hargs'. rewrite Hargs in Hargs'. injection Hargs' as Hargs'.
    destruct v, v'. simpl in *. by subst.
Qed.

(** Component 1 on [world_careful]. *)
Lemma for_each_visits_each_entity_once_witness :
  ∃ vs, for_each [1%N] world_careful = Ret vs ∧
    (∀ v, v ∈ vs →
       ∃ e, visit_entity world_careful v = Some e ∧ alive e world_careful = true ∧
            Forall2 (λ c x, has c e world_careful = Ret true ∧
                            read c e world_careful = Ret (Some x))
              [1%N] (visit_args v)) ∧
    (∀ e, alive e world_careful = true → is_Some (entity_archetype world_careful e) →
       (∀ c, c ∈ [1%N] → has c e world_careful = Ret true) →
       ∃ v, v ∈ vs ∧ visit_entity world_careful v = Some e) ∧
    NoDup (visit_entity world_careful <$> vs).
Proof.
  apply for_each_visits_each_entity_once; [apply world_careful_ok|apply ids_ok_1].
Defined.
